(** * tiny_cnn: the fully connected layer

    A shallow embedding of [jni/tiny_cnn/layers/fully_connected_layer.h]:
    forward propagation, first-order back-propagation, the second-order
    (diagonal Hessian) pass and the size queries of
    [fully_connected_layer<Activation>].

    Conventions of the embedding.
    - [float_t] is the calculation type of the library.  It is declared in
      another header, so the development is parametric in the type and in its
      zero, sum and product; no algebraic law is assumed, and every sum is
      written in the order in which the source accumulates it.
    - [vec_t] is [std::vector<float_t>]; it is a list, [v[i]] is a lookup and
      an index outside the vector is the fault [OutOfRange].
    - [cnn_size_t] and [size_t] are unsigned machine integers whose widths are
      declared in other headers; arithmetic on them wraps modulo [2^width].
      Loop counters ([cnn_size_t c], [int i]) range below a dimension and are
      natural numbers.
    - A node of the chain reaches its neighbours through [prev_] and [next_].
      Following [next_] (or [prev_]) from a node enumerates a list of nodes,
      nearest first; the empty list is the null pointer.
    - The effects of a pass are threaded through an error monad: a method
      returns its C++ result together with the nodes it has written. *)

From Stdlib Require Import ZArith NArith Lia SpecFloat.
From stdpp Require Import base tactics option list.

(** ** Faults and the error monad *)

(** What the C++ leaves undefined: following an absent neighbour, and an index
    outside a vector. *)
Inductive fault : Type :=
| NullDereference
| OutOfRange.

Inductive result (A : Type) : Type :=
| Ok (a : A)
| Fault (e : fault).
Arguments Ok {A} a.
Arguments Fault {A} e.

#[global] Instance result_ret : MRet result := @Ok.
#[global] Instance result_bind : MBind result :=
  λ A B f m, match m with Ok a => f a | Fault e => Fault e end.
#[global] Instance result_fmap : FMap result :=
  λ A B f m, match m with Ok a => Ok (f a) | Fault e => Fault e end.

Definition is_Ok {A} (m : result A) : Prop := ∃ a, m = Ok a.
Definition is_Fault {A} (m : result A) : Prop := ∃ e, m = Fault e.

(** ** The calculation type and the target's integer widths *)

(** What the source uses of [float_t]: [float_t(0)], [+] and [*]. *)
Class Float_t (float_t : Type) : Type := {
  fzero : float_t;
  fadd : float_t → float_t → float_t;
  fmul : float_t → float_t → float_t
}.

Infix "⊞" := fadd (at level 50, left associativity).
Infix "⊠" := fmul (at level 40, left associativity).

(** Modelled from the spec: [sqr] of tiny_cnn/util, the square of a value. *)
Definition sqr {float_t : Type} {FT : Float_t float_t} (x : float_t) : float_t :=
  x ⊠ x.

(** The widths of [cnn_size_t] and [size_t], and the number of workers
    [CNN_TASK_SIZE]: three declarations of other headers, taken as parameters. *)
Class Target : Type := {
  cnn_size_bits : N;
  size_t_bits : N;
  CNN_TASK_SIZE : nat
}.

Definition cnn_wrap {TG : Target} (x : N) : N := (x mod 2 ^ cnn_size_bits)%N.
Definition size_wrap {TG : Target} (x : N) : N := (x mod 2 ^ size_t_bits)%N.

(** ** Vectors *)

Section Vectors.
Context {float_t : Type} {FT : Float_t float_t}.

Local Abbreviation vec := (list float_t).

(** [v[i]] read. *)
Definition vget (v : vec) (i : nat) : result float_t :=
  match v !! i with
  | Some x => Ok x
  | None => Fault OutOfRange
  end.

(** [v[i] = x]. *)
Definition vset (v : vec) (i : nat) (x : float_t) : result vec :=
  if decide (i < length v) then Ok (<[i := x]> v) else Fault OutOfRange.

(** [v[i] += x]. *)
Definition vadd_at (v : vec) (i : nat) (x : float_t) : result vec :=
  y ← vget v i; vset v i (y ⊞ x).

(** [v[i] *= x]. *)
Definition vmul_at (v : vec) (i : nat) (x : float_t) : result vec :=
  y ← vget v i; vset v i (y ⊠ x).

(** The value of [v[i]] where the index is known to be inside. *)
Definition at_ (v : vec) (i : nat) : float_t := default fzero (v !! i).

End Vectors.

(** ** Loops and parallel dispatch *)

(** [for (i = lo; i < lo + n; i++) body(i)] over a state [St]. *)
Fixpoint for_loop {St : Type} (body : nat → St → result St) (lo n : nat) (s : St)
  : result St :=
  match n with
  | 0 => Ok s
  | S n' => s' ← body lo s; for_loop body (S lo) n' s'
  end.

Record blocked_range : Type := { r_begin : nat; r_end : nat }.

(** The blocks tile [lo, hi): each starts where the one before ends. *)
Fixpoint tiles (lo hi : nat) (bs : list blocked_range) : Prop :=
  match bs with
  | [] => lo = hi
  | b :: bs' => r_begin b = lo ∧ lo ≤ r_end b ∧ r_end b ≤ hi ∧ tiles (r_end b) hi bs'
  end.

(** Modelled from the spec: the parallel dispatcher [for_] of tiny_cnn/util.
    It cuts an index range into disjoint blocks and hands each block to the
    body; which blocks it cuts is the dispatcher's choice, whatever tiles the
    range.  The blocks run here one after another: the bodies that the layer
    hands over write disjoint locations per block. *)
Class Dispatch : Type := {
  blocks : bool → nat → nat → list blocked_range;
  blocks_tile : ∀ p lo hi, lo ≤ hi → tiles lo hi (blocks p lo hi)
}.

Fixpoint run_blocks {St : Type} (f : blocked_range → St → result St)
  (bs : list blocked_range) (s : St) : result St :=
  match bs with
  | [] => Ok s
  | b :: bs' => s' ← f b s; run_blocks f bs' s'
  end.

Definition for_ {DP : Dispatch} {St : Type} (parallelize : bool) (lo hi : nat)
  (f : blocked_range → St → result St) (s : St) : result St :=
  run_blocks f (blocks parallelize lo hi) s.

(** Modelled from the spec: [for_i], which calls the body once per index of
    the range, block by block. *)
Definition for_i {DP : Dispatch} {St : Type} (parallelize : bool) (size : nat)
  (f : nat → St → result St) (s : St) : result St :=
  for_ parallelize 0 size
    (λ r s, for_loop f (r_begin r) (r_end r - r_begin r) s) s.

(** ** Activation functions *)

(** Modelled from the spec: the activation strategy, which is external to the
    layer.  It supplies [f(preActivations, index)], which may read the whole
    pre-activation vector, and [df(outputValue)]. *)
Module activation.
Record function (float_t : Type) : Type := {
  f : list float_t → nat → float_t;
  df : float_t → float_t
}.
Arguments f {float_t} _ _ _.
Arguments df {float_t} _ _.

(** The identity activation: [f(a, i) = a[i]], [df = 1]. *)
Definition identity {float_t : Type} {FT : Float_t float_t} (one : float_t)
  : function float_t :=
  {| f a i := at_ a i; df _ := one |}.
End activation.

(** ** The layer and its neighbours *)

Section Layer.
Context {float_t : Type} {FT : Float_t float_t} {TG : Target} {DP : Dispatch}.

Local Abbreviation vec := (list float_t).

(** Modelled from the spec: the members that the base class [layer<Activation>]
    of tiny_cnn/layers/layer.h declares (CNN_USE_LAYER_MEMBERS); the per-worker
    scratch buffers first. *)
Record worker_storage : Type := {
  a_ : vec;
  output_ : vec;
  prev_delta_ : vec;
  dW_ : vec;
  db_ : vec
}.

Record fully_connected_layer : Type := {
  in_size_ : nat;
  out_size_ : nat;
  has_bias_ : bool;
  parallelize_ : bool;
  h_ : activation.function float_t;
  W_ : vec;
  b_ : vec;
  Whessian_ : vec;
  bhessian_ : vec;
  prev_delta2_ : vec;
  worker_storage_ : list worker_storage
}.

(** Modelled from the spec: the chain's input node, which caches the vector it
    is given as its output, one per worker. *)
Record input_layer : Type := {
  input_h_ : activation.function float_t;
  input_output_ : list vec
}.

(** The layer kinds a chain is built of here: the dense layer and the input
    node that ends the chain upstream. *)
Inductive node : Type :=
| input (l : input_layer)
| fully_connected (l : fully_connected_layer).

(** *** Field updates *)

Definition with_a_output (ws : worker_storage) (a out : vec) : worker_storage :=
  {| a_ := a; output_ := out; prev_delta_ := prev_delta_ ws;
     dW_ := dW_ ws; db_ := db_ ws |}.

Definition with_gradients (ws : worker_storage) (prev_delta dW db : vec)
  : worker_storage :=
  {| a_ := a_ ws; output_ := output_ ws; prev_delta_ := prev_delta;
     dW_ := dW; db_ := db |}.

Definition with_worker_storage (l : fully_connected_layer) (index : nat)
  (ws : worker_storage) : fully_connected_layer :=
  {| in_size_ := in_size_ l; out_size_ := out_size_ l; has_bias_ := has_bias_ l;
     parallelize_ := parallelize_ l; h_ := h_ l; W_ := W_ l; b_ := b_ l;
     Whessian_ := Whessian_ l; bhessian_ := bhessian_ l;
     prev_delta2_ := prev_delta2_ l;
     worker_storage_ := <[index := ws]> (worker_storage_ l) |}.

Definition with_hessian (l : fully_connected_layer) (Wh bh pd2 : vec)
  : fully_connected_layer :=
  {| in_size_ := in_size_ l; out_size_ := out_size_ l; has_bias_ := has_bias_ l;
     parallelize_ := parallelize_ l; h_ := h_ l; W_ := W_ l; b_ := b_ l;
     Whessian_ := Wh; bhessian_ := bh; prev_delta2_ := pd2;
     worker_storage_ := worker_storage_ l |}.

(** *** Construction *)

(** Modelled from the spec: the base constructor
    [Base(in_dim, out_dim, weight_dim, bias_dim)] sizes the weight-shaped
    buffers to [weight_dim], the bias-shaped ones to [bias_dim], the input-sized
    ones to [in_dim], the output-sized ones to [out_dim], all zero, for each of
    the [CNN_TASK_SIZE] workers.  [has_bias] fills [has_bias_], the member that
    the derived class adds and initializes. *)
Definition Base (in_dim out_dim weight_dim bias_dim : nat) (has_bias : bool)
  (h : activation.function float_t) : fully_connected_layer :=
  {| in_size_ := in_dim; out_size_ := out_dim; has_bias_ := has_bias;
     parallelize_ := true; h_ := h;
     W_ := replicate weight_dim fzero; b_ := replicate bias_dim fzero;
     Whessian_ := replicate weight_dim fzero;
     bhessian_ := replicate bias_dim fzero;
     prev_delta2_ := replicate in_dim fzero;
     worker_storage_ :=
       replicate CNN_TASK_SIZE
         {| a_ := replicate out_dim fzero; output_ := replicate out_dim fzero;
            prev_delta_ := replicate in_dim fzero;
            dW_ := replicate weight_dim fzero;
            db_ := replicate bias_dim fzero |} |}.

(** [fully_connected_layer(in_dim, out_dim, has_bias)]: the weight count is
    [size_t(in_dim) * out_dim], the bias count [has_bias ? out_dim : 0]. *)
Definition new_fully_connected_layer (h : activation.function float_t)
  (in_dim out_dim : nat) (has_bias : bool) : fully_connected_layer :=
  Base in_dim out_dim
    (N.to_nat (size_wrap (size_wrap (N.of_nat in_dim) * N.of_nat out_dim)))
    (if has_bias then out_dim else 0) has_bias h.

(** *** Queries *)

(** [size_t(in_size_) * out_size_ + size_t(has_bias_) * out_size_], in [size_t]
    arithmetic. *)
Definition connection_size (l : fully_connected_layer) : N :=
  size_wrap
    (size_wrap (size_wrap (N.of_nat (in_size_ l)) * N.of_nat (out_size_ l))
     + size_wrap ((if has_bias_ l then 1 else 0) * N.of_nat (out_size_ l))).

(** [return in_size_], converted to [size_t]. *)
Definition fan_in_size (l : fully_connected_layer) : N :=
  size_wrap (N.of_nat (in_size_ l)).

(** [return out_size_], converted to [size_t]. *)
Definition fan_out_size (l : fully_connected_layer) : N :=
  size_wrap (N.of_nat (out_size_ l)).

(** *** Access paths *)

(** Product and sum in [cnn_size_t]: [c * out_size_ + i] is
    [cnn_add (cnn_mul c out_size_) i]. *)
Definition cnn_mul (x y : nat) : nat :=
  N.to_nat (cnn_wrap (N.of_nat x * N.of_nat y)).
Definition cnn_add (x y : nat) : nat :=
  N.to_nat (cnn_wrap (N.of_nat x + N.of_nat y)).

(** Modelled from the spec: [get_worker_storage(index)] of the base class, the
    scratch buffers of one worker id. *)
Definition get_worker_storage (l : fully_connected_layer) (index : nat)
  : result worker_storage :=
  match worker_storage_ l !! index with
  | Some ws => Ok ws
  | None => Fault OutOfRange
  end.

(** Modelled from the spec: [output(worker_index)] of a chain node, the output
    it cached for that worker. *)
Definition output (n : node) (worker_index : nat) : result vec :=
  match n with
  | input l =>
      match input_output_ l !! worker_index with
      | Some o => Ok o
      | None => Fault OutOfRange
      end
  | fully_connected l => output_ <$> get_worker_storage l worker_index
  end.

(** Modelled from the spec: [activation_function()] of a chain node. *)
Definition activation_function (n : node) : activation.function float_t :=
  match n with
  | input l => input_h_ l
  | fully_connected l => h_ l
  end.

(** *** Numeric kernels *)

(** Modelled from the spec: [vectorize::dot(p1, p2, size)] of
    tiny_cnn/util/product.h, the dot product of two contiguous ranges.  A
    pointer is a vector and an offset into it. *)
Definition dot (v1 : vec) (o1 : nat) (v2 : vec) (o2 : nat) (size : nat)
  : result float_t :=
  for_loop
    (λ r acc, x ← vget v1 (o1 + r); y ← vget v2 (o2 + r); Ok (acc ⊞ x ⊠ y))
    0 size fzero.

(** Modelled from the spec: [vectorize::muladd(src, c, size, dst)], the scaled
    multiply-accumulate [dst[i] += src[i] * c] over a contiguous range. *)
Definition muladd (src : vec) (os : nat) (c : float_t) (size : nat)
  (dst : vec) (od : nat) : result vec :=
  for_loop
    (λ i dst, x ← vget src (os + i); vadd_at dst (od + i) (x ⊠ c))
    0 size dst.

(** *** Forward propagation *)

(** The body of the first [for_i] of [forward_propagation], for one output
    index [i]:
    [a[i] = 0; for c: a[i] += W_[c*out_size_ + i] * in[c];
     if (has_bias_) a[i] += b_[i]]. *)
Definition forward_a (l : fully_connected_layer) (in_ : vec) (i : nat) (a : vec)
  : result vec :=
  a ← vset a i fzero;
  a ← for_loop
        (λ c a,
           w ← vget (W_ l) (cnn_add (cnn_mul c (out_size_ l)) i);
           x ← vget in_ c;
           vadd_at a i (w ⊠ x))
        0 (in_size_ l) a;
  if has_bias_ l then bi ← vget (b_ l) i; vadd_at a i bi else Ok a.

(** The body of the second [for_i]: [out[i] = h_.f(a, i)]. *)
Definition forward_out (l : fully_connected_layer) (a : vec) (i : nat) (out : vec)
  : result vec :=
  vset out i (activation.f (h_ l) a i).

(** [forward_propagation] up to its [return]: the two passes over the worker's
    buffers.  The result is [out] and the layer with the buffers written. *)
Definition forward_propagation_local (l : fully_connected_layer) (in_ : vec)
  (index : nat) : result (vec * fully_connected_layer) :=
  ws ← get_worker_storage l index;
  a ← for_i (parallelize_ l) (out_size_ l) (forward_a l in_) (a_ ws);
  out ← for_i (parallelize_ l) (out_size_ l) (forward_out l a) (output_ ws);
  Ok (out, with_worker_storage l index (with_a_output ws a out)).

(** [forward_propagation(in, index)] of a node whose [next_] chain is [next_]:
    [return next_ ? next_->forward_propagation(out, index) : out].  The second
    component is the chain from this node on, as the call leaves it.
    The [input] case is modelled from the spec (a pass-through that caches its
    input as its output). *)
Fixpoint forward_propagation (this : node) (next_ : list node) (in_ : vec)
  (index : nat) {struct next_} : result (vec * list node) :=
  match this with
  | fully_connected l =>
      '(out, l') ← forward_propagation_local l in_ index;
      match next_ with
      | [] => Ok (out, [fully_connected l'])
      | nx :: rest =>
          '(res, chain) ← forward_propagation nx rest out index;
          Ok (res, fully_connected l' :: chain)
      end
  | input l =>
      if decide (index < length (input_output_ l)) then
        let l' := {| input_h_ := input_h_ l;
                     input_output_ := <[index := in_]> (input_output_ l) |} in
        match next_ with
        | [] => Ok (in_, [input l'])
        | nx :: rest =>
            '(res, chain) ← forward_propagation nx rest in_ index;
            Ok (res, input l' :: chain)
        end
      else Fault OutOfRange
  end.

(** *** First-order back-propagation *)

(** The body of the delta loop, for one input index [c]:
    [prev_delta[c] = dot(&curr_delta[0], &W_[c*out_size_], out_size_);
     prev_delta[c] *= prev_h.df(prev_out[c])]. *)
Definition back_delta (l : fully_connected_layer) (prev_out : vec)
  (prev_h : activation.function float_t) (curr_delta : vec) (c : nat)
  (prev_delta : vec) : result vec :=
  d ← dot curr_delta 0 (W_ l) (cnn_mul c (out_size_ l)) (out_size_ l);
  prev_delta ← vset prev_delta c d;
  po ← vget prev_out c;
  vmul_at prev_delta c (activation.df prev_h po).

(** The body handed to [for_], for one block [r] of output indices:
    [for c: muladd(&curr_delta[r.begin()], prev_out[c], r.end() - r.begin(),
                   &dW[c*out_size_ + r.begin()]);
     if (has_bias_) for i in r: db[i] += curr_delta[i]]. *)
Definition back_gradients (l : fully_connected_layer) (prev_out curr_delta : vec)
  (r : blocked_range) (g : vec * vec) : result (vec * vec) :=
  dW ← for_loop
         (λ c dW,
            po ← vget prev_out c;
            muladd curr_delta (r_begin r) po (r_end r - r_begin r)
              dW (cnn_add (cnn_mul c (out_size_ l)) (r_begin r)))
         0 (in_size_ l) g.1;
  db ← (if has_bias_ l then
          for_loop (λ i db, x ← vget curr_delta i; vadd_at db i x)
            (r_begin r) (r_end r - r_begin r) g.2
        else Ok g.2);
  Ok (dW, db).

(** [back_propagation] between the reads of [prev_] and the [return]. *)
Definition back_propagation_local (l : fully_connected_layer)
  (ws : worker_storage) (prev_out : vec) (prev_h : activation.function float_t)
  (curr_delta : vec) : result worker_storage :=
  prev_delta ← for_loop (back_delta l prev_out prev_h curr_delta)
                 0 (in_size_ l) (prev_delta_ ws);
  g ← for_ (parallelize_ l) 0 (out_size_ l)
        (back_gradients l prev_out curr_delta) (dW_ ws, db_ ws);
  Ok (with_gradients ws prev_delta g.1 g.2).

(** [back_propagation(curr_delta, index)] of a node whose [prev_] chain is
    [prev_]: [return prev_->back_propagation(ws.prev_delta_, index)].  The
    second component is the chain from this node upstream, as the call leaves
    it.  The [input] case is modelled from the spec (it returns at once, with
    the delta it was given). *)
Fixpoint back_propagation (this : node) (prev_ : list node) (curr_delta : vec)
  (index : nat) {struct prev_} : result (vec * list node) :=
  match this with
  | input l => Ok (curr_delta, this :: prev_)
  | fully_connected l =>
      ws ← get_worker_storage l index;
      match prev_ with
      | [] => Fault NullDereference
      | p :: up =>
          prev_out ← output p index;
          ws' ← back_propagation_local l ws prev_out (activation_function p)
                  curr_delta;
          '(res, chain) ← back_propagation p up (prev_delta_ ws') index;
          Ok (res, fully_connected (with_worker_storage l index ws') :: chain)
      end
  end.

(** *** Second-order back-propagation *)

(** [back_propagation_2nd] between the reads of [prev_] and the [return]. *)
Definition back_propagation_2nd_local (l : fully_connected_layer)
  (prev_out : vec) (prev_h : activation.function float_t)
  (current_delta2 : vec) : result fully_connected_layer :=
  Wh ← for_loop
         (λ c Wh,
            for_loop
              (λ r Wh,
                 d ← vget current_delta2 r;
                 po ← vget prev_out c;
                 vadd_at Wh (cnn_add (cnn_mul c (out_size_ l)) r) (d ⊠ sqr po))
              0 (out_size_ l) Wh)
         0 (in_size_ l) (Whessian_ l);
  bh ← (if has_bias_ l then
          for_loop (λ r bh, d ← vget current_delta2 r; vadd_at bh r d)
            0 (out_size_ l) (bhessian_ l)
        else Ok (bhessian_ l));
  pd2 ← for_loop
          (λ c pd2,
             pd2 ← vset pd2 c fzero;
             pd2 ← for_loop
                     (λ r pd2,
                        d ← vget current_delta2 r;
                        w ← vget (W_ l) (cnn_add (cnn_mul c (out_size_ l)) r);
                        vadd_at pd2 c (d ⊠ sqr w))
                     0 (out_size_ l) pd2;
             po ← vget prev_out c;
             vmul_at pd2 c (sqr (activation.df prev_h po)))
          0 (in_size_ l) (prev_delta2_ l);
  Ok (with_hessian l Wh bh pd2).

(** [back_propagation_2nd(current_delta2)]: the upstream output is
    [prev_->output(0)]; [return prev_->back_propagation_2nd(prev_delta2_)].
    The [input] case is modelled from the spec, as for [back_propagation]. *)
Fixpoint back_propagation_2nd (this : node) (prev_ : list node)
  (current_delta2 : vec) {struct prev_} : result (vec * list node) :=
  match this with
  | input l => Ok (current_delta2, this :: prev_)
  | fully_connected l =>
      match prev_ with
      | [] => Fault NullDereference
      | p :: up =>
          prev_out ← output p 0;
          l' ← back_propagation_2nd_local l prev_out (activation_function p)
                 current_delta2;
          '(res, chain) ← back_propagation_2nd p up (prev_delta2_ l');
          Ok (res, fully_connected l' :: chain)
      end
  end.

End Layer.

Arguments worker_storage : clear implicits.
Arguments fully_connected_layer : clear implicits.
Arguments input_layer : clear implicits.
Arguments node : clear implicits.

(** * The formulas of the specification *)

(** ** Sums in the order of the source *)

Section Accumulate.
Context {float_t : Type} {FT : Float_t float_t}.

Local Abbreviation vec := (list float_t).

(** [acc += g lo; acc += g (lo+1); ...; acc += g (lo+n-1)]. *)
Fixpoint accumulate (g : nat → float_t) (lo n : nat) (acc : float_t) : float_t :=
  match n with
  | 0 => acc
  | S n' => accumulate g (S lo) n' (acc ⊞ g lo)
  end.

(** The sum of [g 0 .. g (n-1)], accumulated from zero, left to right. *)
Definition sum_of (g : nat → float_t) (n : nat) : float_t :=
  accumulate g 0 n fzero.

(** [v'] is [v] with the entries selected by [S] rewritten by [G], the others
    kept. *)
Record updated_on (S : nat → Prop) (G : nat → float_t → float_t) (v v' : vec)
  : Prop := {
  upd_length : length v' = length v;
  upd_in : ∀ j, S j → v' !! j = G j <$> v !! j;
  upd_out : ∀ j, ¬ S j → v' !! j = v !! j
}.

End Accumulate.

(** ** Dimensions and invariants *)

(** The products of the dimensions that [cnn_size_t] can hold. *)
Definition fits_cnn_size {TG : Target} (in_size out_size : nat) : Prop :=
  (N.of_nat in_size * N.of_nat out_size ≤ 2 ^ cnn_size_bits)%N.

(** The dimensions of a layer and its connection count are values that
    [size_t] can hold. *)
Definition fits_size_t {TG : Target} (in_size out_size : nat) (has_bias : bool)
  : Prop :=
  (N.of_nat in_size < 2 ^ size_t_bits)%N ∧
  (N.of_nat out_size < 2 ^ size_t_bits)%N ∧
  (N.of_nat in_size * N.of_nat out_size
   + (if has_bias then N.of_nat out_size else 0) < 2 ^ size_t_bits)%N.

(** ** The passes, entry by entry *)

Section Reference.
Context {float_t : Type} {FT : Float_t float_t}.

Local Abbreviation vec := (list float_t).

(** The vector [g 0, g 1, ..., g (n-1)]. *)
Definition tabulate (g : nat → float_t) (n : nat) : vec := g <$> seq 0 n.

(** [Σ_c W[c*out_size+i]*input[c]], plus [b[i]] if [hasBias]. *)
Definition pre_activation (l : fully_connected_layer float_t) (in_ : vec) (i : nat)
  : float_t :=
  let s := sum_of (λ c, at_ (W_ l) (c * out_size_ l + i) ⊠ at_ in_ c) (in_size_ l) in
  if has_bias_ l then s ⊞ at_ (b_ l) i else s.

Definition pre_activations (l : fully_connected_layer float_t) (in_ : vec) : vec :=
  tabulate (pre_activation l in_) (out_size_ l).

(** [out[i] = activation.f(a, i)]. *)
Definition outputs (l : fully_connected_layer float_t) (in_ : vec) : vec :=
  tabulate (activation.f (h_ l) (pre_activations l in_)) (out_size_ l).

(** [dot(currDelta, W[c*out_size .. c*out_size+out_size))
     * upstream.activation.df(upstreamOutput[c])]. *)
Definition upstream_delta (l : fully_connected_layer float_t) (prev_out : vec)
  (prev_h : activation.function float_t) (curr_delta : vec) (c : nat) : float_t :=
  sum_of (λ r, at_ curr_delta r ⊠ at_ (W_ l) (c * out_size_ l + r)) (out_size_ l)
  ⊠ activation.df prev_h (at_ prev_out c).

(** [(Σ_r currDelta2[r]*W[c*out_size+r]^2)
     * upstream.activation.df(upstreamOutput[c])^2]. *)
Definition upstream_delta2 (l : fully_connected_layer float_t) (prev_out : vec)
  (prev_h : activation.function float_t) (current_delta2 : vec) (c : nat)
  : float_t :=
  sum_of (λ r, at_ current_delta2 r ⊠ sqr (at_ (W_ l) (c * out_size_ l + r)))
    (out_size_ l)
  ⊠ sqr (activation.df prev_h (at_ prev_out c)).

(** The entry at [k = c*out_size + i] of a weight-shaped accumulator, after
    [u c i] has been added to it. *)
Definition outer_step (out_size : nat) (u : nat → nat → float_t) (k : nat)
  (w : float_t) : float_t :=
  w ⊞ u (k / out_size) (k mod out_size).

(** [currDelta[i]*upstreamOutput[c]]. *)
Definition dW_term (prev_out curr_delta : vec) (c i : nat) : float_t :=
  at_ curr_delta i ⊠ at_ prev_out c.

(** [currDelta2[r] * upstreamOutput[c]^2]. *)
Definition hessian_term (prev_out current_delta2 : vec) (c r : nat) : float_t :=
  at_ current_delta2 r ⊠ sqr (at_ prev_out c).

(** The entry [i] of a bias-shaped accumulator, after [delta[i]] has been
    added to it. *)
Definition bias_step (delta : vec) (i : nat) (w : float_t) : float_t :=
  w ⊞ at_ delta i.

(** [dW[c*out_size+i] += currDelta[i]*upstreamOutput[c]], for every entry. *)
Definition accumulated_dW (l : fully_connected_layer float_t)
  (prev_out curr_delta dW : vec) : vec :=
  imap (outer_step (out_size_ l) (dW_term prev_out curr_delta)) dW.

(** [db[i] += currDelta[i]] if [hasBias]. *)
Definition accumulated_db (l : fully_connected_layer float_t)
  (curr_delta db : vec) : vec :=
  if has_bias_ l then imap (bias_step curr_delta) db else db.

(** [WHessian[c*out_size+r] += currDelta2[r] * upstreamOutput[c]^2]. *)
Definition accumulated_Whessian (l : fully_connected_layer float_t)
  (prev_out current_delta2 Wh : vec) : vec :=
  imap (outer_step (out_size_ l) (hessian_term prev_out current_delta2)) Wh.

(** [bHessian[r] += currDelta2[r]] if [hasBias]. *)
Definition accumulated_bhessian (l : fully_connected_layer float_t)
  (current_delta2 bh : vec) : vec :=
  if has_bias_ l then imap (bias_step current_delta2) bh else bh.

(** The worker's buffers after [back_propagation]. *)
Definition back_propagated (l : fully_connected_layer float_t)
  (ws : worker_storage float_t) (prev_out : vec)
  (prev_h : activation.function float_t) (curr_delta : vec)
  : worker_storage float_t :=
  with_gradients ws
    (tabulate (upstream_delta l prev_out prev_h curr_delta) (in_size_ l))
    (accumulated_dW l prev_out curr_delta (dW_ ws))
    (accumulated_db l curr_delta (db_ ws)).

(** The layer after [back_propagation_2nd]. *)
Definition back_propagated_2nd (l : fully_connected_layer float_t)
  (prev_out : vec) (prev_h : activation.function float_t)
  (current_delta2 : vec) : fully_connected_layer float_t :=
  with_hessian l
    (accumulated_Whessian l prev_out current_delta2 (Whessian_ l))
    (accumulated_bhessian l current_delta2 (bhessian_ l))
    (tabulate (upstream_delta2 l prev_out prev_h current_delta2) (in_size_ l)).

(** The invariants of the data model: the dimensions fit [cnn_size_t] and the
    buffers have the sizes of their shapes. *)
Record layer_invariant {TG : Target} (l : fully_connected_layer float_t) : Prop := {
  inv_fits : fits_cnn_size (in_size_ l) (out_size_ l);
  inv_W : length (W_ l) = in_size_ l * out_size_ l;
  inv_b : length (b_ l) = if has_bias_ l then out_size_ l else 0;
  inv_Whessian : length (Whessian_ l) = in_size_ l * out_size_ l;
  inv_bhessian : length (bhessian_ l) = if has_bias_ l then out_size_ l else 0;
  inv_prev_delta2 : length (prev_delta2_ l) = in_size_ l
}.

Record worker_invariant (l : fully_connected_layer float_t) (ws : worker_storage float_t)
  : Prop := {
  inv_a : length (a_ ws) = out_size_ l;
  inv_output : length (output_ ws) = out_size_ l;
  inv_prev_delta : length (prev_delta_ ws) = in_size_ l;
  inv_dW : length (dW_ ws) = in_size_ l * out_size_ l;
  inv_db : length (db_ ws) = if has_bias_ l then out_size_ l else 0
}.

End Reference.

(** ** What is observed of a layer *)

Section Observations.
Context {float_t : Type}.

Local Abbreviation vec := (list float_t).

(** The bias-related buffers of a layer: [b_], [bhessian_] and every worker's
    [db_]. *)
Definition bias_buffers (l : fully_connected_layer float_t)
  : vec * vec * list vec :=
  (b_ l, bhessian_ l, db_ <$> worker_storage_ l).

(** A node with the storage of worker [j] blanked: two nodes that differ only
    in what they hold for worker [j] have the same image. *)
Definition forget_worker (j : nat) (n : node float_t) : node float_t :=
  match n with
  | input l =>
      input {| input_h_ := input_h_ l;
               input_output_ := <[j := []]> (input_output_ l) |}
  | fully_connected l =>
      fully_connected
        (with_worker_storage l j
           {| a_ := []; output_ := []; prev_delta_ := []; dW_ := []; db_ := [] |})
  end.

(** What a second-order pass is observed by: the vector it returns and the
    chain it leaves, up to the storage of worker [j]. *)
Definition observe (j : nat) (r : vec * list (node float_t))
  : vec * list (node float_t) :=
  (r.1, forget_worker j <$> r.2).

End Observations.

(** * Concrete calculation types, targets and dispatchers *)

(** IEEE 754 binary floating point of precision [prec] and exponent bound
    [emax], with round-to-nearest-even sum and product. *)
Definition ieee754 (prec emax : Z) : Float_t spec_float :=
  {| fzero := S754_zero false;
     fadd := SFadd prec emax;
     fmul := SFmul prec emax |}.

Definition binary32 : Float_t spec_float := ieee754 24 128.
Definition binary64 : Float_t spec_float := ieee754 53 1024.

(** The float nearest to the decimal [±n/d]. *)
Definition decimal (prec emax : Z) (negative : bool) (n d : positive)
  : spec_float :=
  SFdiv prec emax (S754_finite negative n 0) (S754_finite false d 0).

Definition dec32 := decimal 24 128.
Definition dec64 := decimal 53 1024.

(** A 64-bit target and a 32-bit one, both with a 32-bit [cnn_size_t] and the
    eight workers tiny_cnn configures by default. *)
Definition lp64 : Target :=
  {| cnn_size_bits := 32; size_t_bits := 64; CNN_TASK_SIZE := 8 |}.
Definition ilp32 : Target :=
  {| cnn_size_bits := 32; size_t_bits := 32; CNN_TASK_SIZE := 8 |}.

(** The dispatcher that hands the whole range to the body as one block. *)
Definition one_block (p : bool) (lo hi : nat) : list blocked_range :=
  [{| r_begin := lo; r_end := hi |}].

(** The dispatcher that cuts the range in two halves when asked to
    parallelize. *)
Definition two_blocks (p : bool) (lo hi : nat) : list blocked_range :=
  if p then
    [{| r_begin := lo; r_end := lo + (hi - lo) / 2 |};
     {| r_begin := lo + (hi - lo) / 2; r_end := hi |}]
  else [{| r_begin := lo; r_end := hi |}].

Lemma one_block_tile (p : bool) (lo hi : nat) :
  lo ≤ hi → tiles lo hi (one_block p lo hi).
Proof. intros Hle. simpl. lia. Qed.

Lemma two_blocks_tile (p : bool) (lo hi : nat) :
  lo ≤ hi → tiles lo hi (two_blocks p lo hi).
Proof.
  intros Hle. unfold two_blocks.
  assert ((hi - lo) / 2 ≤ hi - lo) by (apply Nat.Div0.div_le_upper_bound; lia).
  destruct p; cbn [tiles r_begin r_end]; lia.
Qed.

Definition sequential : Dispatch :=
  {| blocks := one_block; blocks_tile := one_block_tile |}.
Definition halves : Dispatch :=
  {| blocks := two_blocks; blocks_tile := two_blocks_tile |}.

(** ** The worked example of the specification *)

(** The external initializer: the weights and biases it writes. *)
Definition with_weights {float_t : Type} (l : fully_connected_layer float_t)
  (W b : list float_t) : fully_connected_layer float_t :=
  {| in_size_ := in_size_ l; out_size_ := out_size_ l; has_bias_ := has_bias_ l;
     parallelize_ := parallelize_ l; h_ := h_ l; W_ := W; b_ := b;
     Whessian_ := Whessian_ l; bhessian_ := bhessian_ l;
     prev_delta2_ := prev_delta2_ l; worker_storage_ := worker_storage_ l |}.

(** [in_size=2, out_size=1, hasBias=true, W=[0.5,-0.5], b=[0.1]], identity
    activation. *)
Definition example_layer (prec emax : Z) : fully_connected_layer spec_float :=
  with_weights
    (new_fully_connected_layer (FT := ieee754 prec emax) (TG := lp64)
       (activation.identity (FT := ieee754 prec emax) (decimal prec emax false 1 1))
       2 1 true)
    [decimal prec emax false 1 2; decimal prec emax true 1 2]
    [decimal prec emax false 1 10].

(** The input [[2,4]]. *)
Definition example_input (prec emax : Z) : list spec_float :=
  [decimal prec emax false 2 1; decimal prec emax false 4 1].

(** An input node for the eight workers, as the chain's upstream end. *)
Definition example_source (prec emax : Z) (x : list spec_float)
  : input_layer spec_float :=
  {| input_h_ :=
       activation.identity (FT := ieee754 prec emax) (decimal prec emax false 1 1);
     input_output_ := replicate 8 x |}.

(** * Chains *)

(** ** Shapes *)

Section Shapes.
Context {float_t : Type}.

(** The lengths of a worker's buffers. *)
Definition worker_shape (ws : worker_storage float_t) : list nat :=
  [length (a_ ws); length (output_ ws); length (prev_delta_ ws);
   length (dW_ ws); length (db_ ws)].

(** The dimensions of a layer and the lengths of all its buffers. *)
Definition layer_shape (l : fully_connected_layer float_t)
  : nat * nat * bool * list nat * list (list nat) :=
  (in_size_ l, out_size_ l, has_bias_ l,
   [length (W_ l); length (b_ l); length (Whessian_ l); length (bhessian_ l);
    length (prev_delta2_ l)],
   worker_shape <$> worker_storage_ l).

(** The shape of a node; of an input node, the number of workers it caches
    for. *)
Definition node_shape (n : node float_t)
  : nat + nat * nat * bool * list nat * list (list nat) :=
  match n with
  | input l => inl (length (input_output_ l))
  | fully_connected l => inr (layer_shape l)
  end.

(** A node with the second-order accumulators blanked: two nodes that differ
    only in [Whessian_], [bhessian_] and [prev_delta2_] have the same image. *)
Definition forget_hessian (n : node float_t) : node float_t :=
  match n with
  | input l => input l
  | fully_connected l => fully_connected (with_hessian l [] [] [])
  end.

(** A node with the first-order scratch of worker [j] blanked: two nodes that
    differ only in the [prev_delta_], [dW_] and [db_] of worker [j] have the
    same image. *)
Definition forget_gradients (j : nat) (n : node float_t) : node float_t :=
  match n with
  | input l => input l
  | fully_connected l =>
      fully_connected
        {| in_size_ := in_size_ l; out_size_ := out_size_ l;
           has_bias_ := has_bias_ l; parallelize_ := parallelize_ l;
           h_ := h_ l; W_ := W_ l; b_ := b_ l; Whessian_ := Whessian_ l;
           bhessian_ := bhessian_ l; prev_delta2_ := prev_delta2_ l;
           worker_storage_ :=
             alter (λ ws, with_gradients ws [] [] []) j (worker_storage_ l) |}
  end.

End Shapes.

(** ** Calls at the head of a chain *)

Section Chains.
Context {float_t : Type} {FT : Float_t float_t} {TG : Target} {DP : Dispatch}.

Local Abbreviation vec := (list float_t).

(** [head->forward_propagation(in, index)] for the first node of a chain; the
    empty chain is the null pointer. *)
Definition forward_chain (chain : list (node float_t)) (in_ : vec) (index : nat)
  : result (vec * list (node float_t)) :=
  match chain with
  | [] => Fault NullDereference
  | this :: next_ => forward_propagation this next_ in_ index
  end.

(** [last->back_propagation(delta, index)] for a chain listed from its last
    node upstream. *)
Definition back_chain (chain : list (node float_t)) (delta : vec) (index : nat)
  : result (vec * list (node float_t)) :=
  match chain with
  | [] => Fault NullDereference
  | this :: prev_ => back_propagation this prev_ delta index
  end.

(** [last->back_propagation_2nd(delta2)], likewise. *)
Definition back_chain_2nd (chain : list (node float_t)) (delta2 : vec)
  : result (vec * list (node float_t)) :=
  match chain with
  | [] => Fault NullDereference
  | this :: prev_ => back_propagation_2nd this prev_ delta2
  end.

(** ** Chains whose sizes agree *)

(** The buffers that worker id [index] uses in the node have the sizes of the
    data model. *)
Definition node_ready (index : nat) (n : node float_t) : Prop :=
  match n with
  | input l => index < length (input_output_ l)
  | fully_connected l =>
      layer_invariant l ∧
      ∃ ws, worker_storage_ l !! index = Some ws ∧ worker_invariant l ws
  end.

(** The length of the vector that a node hands downstream when it is given
    one of length [len]. *)
Definition node_out_size (n : node float_t) (len : nat) : nat :=
  match n with
  | input _ => len
  | fully_connected l => out_size_ l
  end.

(** A vector of length [len] is what the node expects. *)
Definition node_accepts (n : node float_t) (len : nat) : Prop :=
  match n with
  | input _ => True
  | fully_connected l => len = in_size_ l
  end.

(** The chain, listed downstream from its first node, is ready for a forward
    pass of worker id [index] on a vector of length [len]: every node is
    ready and is given a vector of the length it expects. *)
Fixpoint forward_ready (index len : nat) (chain : list (node float_t)) : Prop :=
  match chain with
  | [] => True
  | n :: rest =>
      node_ready index n ∧ node_accepts n len ∧
      forward_ready index (node_out_size n len) rest
  end.

(** The length of what the last node of the chain hands on. *)
Fixpoint chain_out_size (chain : list (node float_t)) (len : nat) : nat :=
  match chain with
  | [] => len
  | n :: rest => chain_out_size rest (node_out_size n len)
  end.

(** [this], whose upstream chain is [prev_], is ready for a backward pass of
    worker id [index] on a delta of length [dlen]: every dense layer up to the
    nearest input node is ready, has an upstream node, and finds there a
    cached output of its own input size.  [n] is the input size of the most
    upstream dense layer (the length of the delta itself when [this] is an
    input node). *)
Fixpoint backward_ready (index n dlen : nat) (this : node float_t)
  (prev_ : list (node float_t)) {struct prev_} : Prop :=
  match this with
  | input _ => dlen = n
  | fully_connected l =>
      dlen = out_size_ l ∧ node_ready index this ∧
      match prev_ with
      | [] => False
      | p :: up =>
          (∃ po, output p index = Ok po ∧ length po = in_size_ l) ∧
          backward_ready index n (in_size_ l) p up
      end
  end.

(** The same for the second-order pass, which uses no worker's scratch
    buffers and reads the upstream output cached for worker 0. *)
Fixpoint backward_2nd_ready (n dlen : nat) (this : node float_t)
  (prev_ : list (node float_t)) {struct prev_} : Prop :=
  match this with
  | input _ => dlen = n
  | fully_connected l =>
      dlen = out_size_ l ∧ layer_invariant l ∧
      match prev_ with
      | [] => False
      | p :: up =>
          (∃ po, output p 0 = Ok po ∧ length po = in_size_ l) ∧
          backward_2nd_ready n (in_size_ l) p up
      end
  end.

(** [this] and the dense layers upstream of it are ready for a backward pass
    of worker id [index] on a delta of length [dlen], but the chain has no
    input node: every node is a dense layer and the most upstream one has no
    [prev_]. *)
Fixpoint unterminated (index dlen : nat) (this : node float_t)
  (prev_ : list (node float_t)) {struct prev_} : Prop :=
  match this with
  | input _ => False
  | fully_connected l =>
      dlen = out_size_ l ∧ node_ready index this ∧
      match prev_ with
      | [] => True
      | p :: up =>
          (∃ po, output p index = Ok po ∧ length po = in_size_ l) ∧
          unterminated index (in_size_ l) p up
      end
  end.

(** ** Schedules *)

(** Modelled from the spec: a dispatch that hands the indices to the body one
    at a time, in an order of its choosing, as a parallel [for_i] may. *)
Fixpoint for_each {St : Type} (f : nat → St → result St) (order : list nat)
  (s : St) : result St :=
  match order with
  | [] => Ok s
  | i :: rest => s' ← f i s; for_each f rest s'
  end.

(** [forward_propagation] up to its [return], with the iterations of its two
    [for_i] run in the orders [order_a] and [order_out]; the second loop
    starts when the first has ended. *)
Definition forward_propagation_scheduled (l : fully_connected_layer float_t)
  (in_ : vec) (index : nat) (order_a order_out : list nat)
  : result (vec * fully_connected_layer float_t) :=
  ws ← get_worker_storage l index;
  a ← for_each (forward_a l in_) order_a (a_ ws);
  out ← for_each (forward_out l a) order_out (output_ ws);
  Ok (out, with_worker_storage l index (with_a_output ws a out)).

End Chains.

(** ** What a forward pass computes along a chain *)

Section ForwardReference.
Context {float_t : Type} {FT : Float_t float_t}.

Local Abbreviation vec := (list float_t).

(** The layer after a forward pass of worker id [index] on [x]: the worker's
    [a_] and [output_] hold the pre-activations and the outputs. *)
Definition forwarded_layer (l : fully_connected_layer float_t) (index : nat)
  (x : vec) : fully_connected_layer float_t :=
  match worker_storage_ l !! index with
  | Some ws =>
      with_worker_storage l index
        (with_a_output ws (pre_activations l x) (outputs l x))
  | None => l
  end.

Definition forwarded_node (index : nat) (n : node float_t) (x : vec)
  : node float_t :=
  match n with
  | input l =>
      input {| input_h_ := input_h_ l;
               input_output_ := <[index := x]> (input_output_ l) |}
  | fully_connected l => fully_connected (forwarded_layer l index x)
  end.

(** What a node hands downstream when it is given [x]. *)
Definition node_outputs (n : node float_t) (x : vec) : vec :=
  match n with
  | input _ => x
  | fully_connected l => outputs l x
  end.

(** The output maps of the nodes, composed along the chain. *)
Fixpoint chain_outputs (chain : list (node float_t)) (x : vec) : vec :=
  match chain with
  | [] => x
  | n :: rest => chain_outputs rest (node_outputs n x)
  end.

(** The chain after a forward pass of worker id [index] entered with [x]. *)
Fixpoint forwarded (index : nat) (chain : list (node float_t)) (x : vec)
  : list (node float_t) :=
  match chain with
  | [] => []
  | n :: rest => forwarded_node index n x :: forwarded index rest (node_outputs n x)
  end.

End ForwardReference.

(** ** A second example layer *)

(** [in_size=1, out_size=2], no bias, [W=[2,-1]], identity activation: a layer
    to put downstream of the worked example's. *)
Definition example_head (prec emax : Z) : fully_connected_layer spec_float :=
  with_weights
    (new_fully_connected_layer (FT := ieee754 prec emax) (TG := lp64)
       (activation.identity (FT := ieee754 prec emax) (decimal prec emax false 1 1))
       1 2 false)
    [decimal prec emax false 2 1; decimal prec emax true 1 1]
    [].

(** The input node, the worked example's layer and the second layer, in a row:
    a chain that takes two values and returns two. *)
Definition example_chain (prec emax : Z) : list (node spec_float) :=
  [input (example_source prec emax (example_input prec emax));
   fully_connected (example_layer prec emax);
   fully_connected (example_head prec emax)].

(** Tactics that check, by evaluation, that the buffers of a concrete layer
    and the links of a concrete chain have the sizes of the data model. *)
Ltac layer_is_ready :=
  split; [split; by vm_compute
         | eexists; split; [reflexivity | split; reflexivity]].

Ltac chain_is_ready :=
  repeat first
    [ by vm_compute
    | vm_compute; lia
    | layer_is_ready
    | eexists; split; [reflexivity | reflexivity]
    | split ].

(** * What the loops compute *)

Section LoopLemmas.
Context {float_t : Type} {FT : Float_t float_t}.

Local Abbreviation vec := (list float_t).

Lemma bind_Ok_inv {A B} (m : result A) (k : A → result B) (b : B) :
  (m ≫= k) = Ok b → ∃ a, m = Ok a ∧ k a = Ok b.
Proof. destruct m as [a|e]; [eauto | discriminate]. Qed.

Lemma vget_at (v : vec) (i : nat) : i < length v → vget v i = Ok (at_ v i).
Proof.
  intros Hi. unfold vget, at_.
  destruct (lookup_lt_is_Some_2 v i Hi) as [x ->]. reflexivity.
Qed.

Lemma vget_ge (v : vec) (i : nat) : length v ≤ i → vget v i = Fault OutOfRange.
Proof. intros Hi. unfold vget. by rewrite lookup_ge_None_2. Qed.

Lemma vset_lt (v : vec) (i : nat) (x : float_t) :
  i < length v → vset v i x = Ok (<[i := x]> v).
Proof. intros Hi. unfold vset. by rewrite decide_True. Qed.

Lemma vset_ge (v : vec) (i : nat) (x : float_t) :
  length v ≤ i → vset v i x = Fault OutOfRange.
Proof. intros Hi. unfold vset. rewrite decide_False; [done | lia]. Qed.

Lemma vadd_at_lt (v : vec) (i : nat) (x : float_t) :
  i < length v → vadd_at v i x = Ok (<[i := at_ v i ⊞ x]> v).
Proof. intros Hi. unfold vadd_at. rewrite vget_at by done. simpl. by apply vset_lt. Qed.

Lemma vmul_at_lt (v : vec) (i : nat) (x : float_t) :
  i < length v → vmul_at v i x = Ok (<[i := at_ v i ⊠ x]> v).
Proof. intros Hi. unfold vmul_at. rewrite vget_at by done. simpl. by apply vset_lt. Qed.

Lemma at_insert_eq (v : vec) (i : nat) (x : float_t) :
  i < length v → at_ (<[i := x]> v) i = x.
Proof. intros Hi. unfold at_. by rewrite list_lookup_insert_eq. Qed.

Lemma lookup_at (v : vec) (i : nat) : i < length v → v !! i = Some (at_ v i).
Proof. intros Hi. unfold at_. by destruct (lookup_lt_is_Some_2 v i Hi) as [x ->]. Qed.

(** *** [for_loop] *)

Lemma for_loop_app {St} (body : nat → St → result St) (lo n m : nat) (s : St) :
  for_loop body lo (n + m) s = for_loop body lo n s ≫= for_loop body (lo + n) m.
Proof.
  revert lo s. induction n as [|n IH]; intros lo s; simpl.
  - by rewrite Nat.add_0_r.
  - destruct (body lo s) as [s'|e]; simpl; [|done].
    rewrite IH. by replace (S lo + n) with (lo + S n) by lia.
Qed.

(** The invariant rule: total correctness of a counted loop. *)
Lemma for_loop_inv {St} (P : nat → St → Prop) (body : nat → St → result St)
  (lo n : nat) (s : St) :
  P lo s →
  (∀ i t, lo ≤ i < lo + n → P i t → ∃ t', body i t = Ok t' ∧ P (S i) t') →
  ∃ s', for_loop body lo n s = Ok s' ∧ P (lo + n) s'.
Proof.
  revert lo s. induction n as [|n IH]; intros lo s H0 Hstep; simpl.
  - exists s. by rewrite Nat.add_0_r.
  - destruct (Hstep lo s) as (t' & -> & Ht'); [lia | done |]. simpl.
    destruct (IH (S lo) t') as (s' & -> & Hs'); [done | |].
    + intros i t Hi. apply Hstep. lia.
    + exists s'. split; [done|]. by replace (lo + S n) with (S lo + n) by lia.
Qed.

(** Accumulating into one entry: [for c: v[i] += g c]. *)
Lemma for_loop_accumulate (body : nat → vec → result vec) (g : nat → float_t)
  (i lo n : nat) (v : vec) :
  i < length v →
  (∀ c w, lo ≤ c < lo + n → i < length w → body c w = vadd_at w i (g c)) →
  for_loop body lo n v = Ok (<[i := accumulate g lo n (at_ v i)]> v).
Proof.
  revert lo v. induction n as [|n IH]; intros lo v Hi Hbody; simpl.
  - f_equal. symmetry. apply list_insert_id. by apply lookup_at.
  - rewrite Hbody by (done || lia). rewrite vadd_at_lt by done. simpl.
    rewrite IH.
    + by rewrite at_insert_eq, list_insert_insert_eq.
    + by rewrite length_insert.
    + intros c w Hc Hw. apply Hbody; [lia | done].
Qed.

(** Accumulating into a local: [for r: acc += g r]. *)
Lemma for_loop_accumulate_local (body : nat → float_t → result float_t)
  (g : nat → float_t) (lo n : nat) (acc : float_t) :
  (∀ c x, lo ≤ c < lo + n → body c x = Ok (x ⊞ g c)) →
  for_loop body lo n acc = Ok (accumulate g lo n acc).
Proof.
  revert lo acc. induction n as [|n IH]; intros lo acc Hbody; simpl; [done|].
  rewrite Hbody by lia. simpl. apply IH. intros c x Hc. apply Hbody. lia.
Qed.

Lemma accumulate_ext (g g' : nat → float_t) (lo n : nat) (acc : float_t) :
  (∀ c, lo ≤ c < lo + n → g c = g' c) →
  accumulate g lo n acc = accumulate g' lo n acc.
Proof.
  revert lo acc. induction n as [|n IH]; intros lo acc Hext; simpl; [done|].
  rewrite Hext by lia. apply IH. intros c Hc. apply Hext. lia.
Qed.

(** *** Disjoint pointwise updates *)

Lemma updated_on_refl (S : nat → Prop) (G : nat → float_t → float_t) (v : vec) :
  (∀ j, ¬ S j) → updated_on S G v v.
Proof. intros HS. split; [done | intros j Hj; by destruct (HS j) | done]. Qed.

Lemma updated_on_weaken (S S' : nat → Prop) (G : nat → float_t → float_t)
  (v v' : vec) :
  (∀ j, j < length v → (S j ↔ S' j)) → updated_on S G v v' → updated_on S' G v v'.
Proof.
  intros HS [Hlen Hin Hout]. split; [done | |].
  - intros j Hj. destruct (decide (j < length v)) as [Hlt|Hge].
    + apply Hin. by apply HS.
    + rewrite !lookup_ge_None_2; [done | lia | lia].
  - intros j Hj. destruct (decide (j < length v)) as [Hlt|Hge].
    + apply Hout. by rewrite HS.
    + rewrite !lookup_ge_None_2; [done | lia | lia].
Qed.

Lemma updated_on_trans (S1 S2 : nat → Prop) (G : nat → float_t → float_t)
  (v v1 v2 : vec) :
  (∀ j, S1 j → S2 j → False) →
  updated_on S1 G v v1 → updated_on S2 G v1 v2 →
  updated_on (λ j, S1 j ∨ S2 j) G v v2.
Proof.
  intros Hdisj [Hl1 Hin1 Hout1] [Hl2 Hin2 Hout2]. split.
  - congruence.
  - intros j [Hj|Hj].
    + rewrite Hout2 by eauto. by apply Hin1.
    + rewrite Hin2 by done. rewrite Hout1; [done | eauto].
  - intros j Hj. rewrite Hout2, Hout1; [done | tauto | tauto].
Qed.

(** One entry rewritten. *)
Lemma updated_on_insert (G : nat → float_t → float_t) (v : vec) (i : nat) :
  i < length v → updated_on (λ j, j = i) G v (<[i := G i (at_ v i)]> v).
Proof.
  intros Hi. split.
  - apply length_insert.
  - intros j ->. rewrite list_lookup_insert_eq by done. by rewrite lookup_at.
  - intros j Hj. by rewrite list_lookup_insert_ne.
Qed.

(** Every entry rewritten: the result is [imap G v]. *)
Lemma updated_on_all (S : nat → Prop) (G : nat → float_t → float_t) (v v' : vec) :
  (∀ j, j < length v → S j) → updated_on S G v v' → v' = imap G v.
Proof.
  intros HS [Hlen Hin Hout]. apply list_eq. intros j.
  rewrite list_lookup_imap. destruct (decide (j < length v)) as [Hlt|Hge].
  - by apply Hin, HS.
  - rewrite !lookup_ge_None_2; [done | lia | lia].
Qed.

(** A loop whose iterations rewrite disjoint sets of entries. *)
Lemma for_loop_updated_on (S : nat → nat → Prop) (G : nat → float_t → float_t)
  (body : nat → vec → result vec) (lo n : nat) (v : vec) :
  (∀ i i' j, S i j → S i' j → i = i') →
  (∀ i w, lo ≤ i < lo + n → length w = length v →
     ∃ w', body i w = Ok w' ∧ updated_on (S i) G w w') →
  ∃ v', for_loop body lo n v = Ok v' ∧
    updated_on (λ j, ∃ i, lo ≤ i < lo + n ∧ S i j) G v v'.
Proof.
  intros Hdisj Hbody.
  destruct (for_loop_inv
    (λ k w, updated_on (λ j, ∃ i, lo ≤ i < k ∧ S i j) G v w) body lo n v)
    as (v' & Hv' & Hupd).
  - apply updated_on_refl. intros j (i & Hi & _). lia.
  - intros i w Hi Hw. destruct (Hbody i w) as (w' & Hw' & Hstep);
      [done | by destruct Hw |].
    exists w'. split; [done|].
    eapply updated_on_weaken; [|eapply updated_on_trans; [|exact Hw|exact Hstep]].
    + intros j _. split.
      * intros [(i' & Hi' & HS)|HS]; [exists i'|exists i]; split; (done || lia).
      * intros (i' & Hi' & HS). destruct (decide (i' = i)) as [->|Hne];
          [by right | left; exists i'; split; (done || lia)].
    + intros j (i' & Hi' & HS) HS'. specialize (Hdisj _ _ _ HS HS'). lia.
  - by exists v'.
Qed.

End LoopLemmas.

(** ** Blocks *)

Section BlockLemmas.
Context {DP : Dispatch}.

Lemma run_blocks_for_loop {St} (f : nat → St → result St) (lo hi : nat)
  (bs : list blocked_range) (s : St) :
  tiles lo hi bs →
  run_blocks (λ r t, for_loop f (r_begin r) (r_end r - r_begin r) t) bs s
  = for_loop f lo (hi - lo) s.
Proof.
  revert lo s. induction bs as [|[b e] bs IH]; intros lo s; simpl.
  - intros ->. by rewrite Nat.sub_diag.
  - intros (-> & Hle & Hhi & Htl).
    replace (hi - lo) with ((e - lo) + (hi - e)) by lia.
    rewrite for_loop_app. destruct (for_loop f lo (e - lo) s) as [t|err]; simpl; [|done].
    rewrite (IH e t Htl). f_equal. lia.
Qed.

(** [for_i] calls the body once per index, in whatever blocks the range is cut. *)
Lemma for_i_for_loop {St} (p : bool) (n : nat) (f : nat → St → result St) (s : St) :
  for_i p n f s = for_loop f 0 n s.
Proof.
  unfold for_i, for_. rewrite (run_blocks_for_loop f 0 n).
  - by rewrite Nat.sub_0_r.
  - apply blocks_tile. lia.
Qed.

(** The invariant rule for a tiling: [P k] holds when the blocks up to [k] ran. *)
Lemma run_blocks_inv {St} (P : nat → St → Prop) (f : blocked_range → St → result St)
  (lo hi : nat) (bs : list blocked_range) (s : St) :
  tiles lo hi bs →
  P lo s →
  (∀ b e t, lo ≤ b → b ≤ e → e ≤ hi → P b t →
     ∃ t', f {| r_begin := b; r_end := e |} t = Ok t' ∧ P e t') →
  ∃ s', run_blocks f bs s = Ok s' ∧ P hi s'.
Proof.
  revert lo s. induction bs as [|[b e] bs IH]; intros lo s; simpl.
  - intros -> Hs _. by exists s.
  - intros (-> & Hle & Hhi & Htl) Hs Hstep.
    destruct (Hstep lo e s) as (t' & -> & Ht'); [lia | done | done | done |]. simpl.
    apply (IH e t' Htl Ht'). intros b' e' t Hb' He' Hhi'. apply Hstep; lia.
Qed.

End BlockLemmas.

(** ** Row-major indices *)

Section Indices.
Context {TG : Target}.

Lemma cnn_mul_fits (in_size out_size c : nat) :
  fits_cnn_size in_size out_size → c < in_size →
  cnn_mul c out_size = c * out_size.
Proof.
  unfold fits_cnn_size, cnn_mul, cnn_wrap. intros Hfit Hc.
  rewrite N.mod_small; [lia|].
  assert (0 < 2 ^ cnn_size_bits)%N by (apply N.neq_0_lt_0, N.pow_nonzero; lia).
  destruct out_size as [|o]; [lia|]. nia.
Qed.

Lemma cnn_add_mul_fits (in_size out_size c i : nat) :
  fits_cnn_size in_size out_size → c < in_size → i < out_size →
  cnn_add (cnn_mul c out_size) i = c * out_size + i.
Proof.
  intros Hfit Hc Hi. rewrite (cnn_mul_fits in_size) by done.
  unfold fits_cnn_size, cnn_add, cnn_wrap in *.
  rewrite N.mod_small; [lia|]. nia.
Qed.

Lemma row_major_lt (in_size out_size c i : nat) :
  c < in_size → i < out_size → c * out_size + i < in_size * out_size.
Proof. nia. Qed.

Lemma row_major_inj (out_size c i c' i' : nat) :
  i < out_size → i' < out_size →
  c * out_size + i = c' * out_size + i' → c = c' ∧ i = i'.
Proof. intros Hi Hi' Heq. assert (c = c') by nia. subst. lia. Qed.

Lemma row_major_div (out_size c i : nat) :
  i < out_size → (c * out_size + i) / out_size = c.
Proof. intros Hi. rewrite Nat.div_add_l by lia. rewrite Nat.div_small by done. lia. Qed.

Lemma row_major_mod (out_size c i : nat) :
  i < out_size → (c * out_size + i) mod out_size = i.
Proof.
  intros Hi. rewrite Nat.add_comm, Nat.Div0.mod_add. by apply Nat.mod_small.
Qed.

End Indices.

(** * The layer's passes, one at a time *)

Section LocalLemmas.
Context {float_t : Type} {FT : Float_t float_t} {TG : Target} {DP : Dispatch}.

Local Abbreviation vec := (list float_t).

Lemma imap_tabulate (g : nat → float_t) (v : vec) :
  imap (λ j _, g j) v = tabulate g (length v).
Proof.
  apply list_eq. intros j. unfold tabulate.
  rewrite list_lookup_imap, list_lookup_fmap.
  destruct (decide (j < length v)) as [Hlt|Hge].
  - rewrite lookup_seq_lt by done. by rewrite lookup_at.
  - rewrite lookup_ge_None_2 by lia. rewrite lookup_seq_ge by lia. done.
Qed.

Lemma length_tabulate (g : nat → float_t) (n : nat) : length (tabulate g n) = n.
Proof. unfold tabulate. by rewrite length_fmap, length_seq. Qed.

Lemma lookup_tabulate (g : nat → float_t) (n i : nat) :
  i < n → tabulate g n !! i = Some (g i).
Proof. intros Hi. unfold tabulate. rewrite list_lookup_fmap, lookup_seq_lt; done. Qed.

Lemma tabulate_ext (g g' : nat → float_t) (n : nat) :
  (∀ i, i < n → g i = g' i) → tabulate g n = tabulate g' n.
Proof.
  intros Hext. apply list_eq. intros i.
  destruct (decide (i < n)) as [Hlt|Hge].
  - rewrite !lookup_tabulate by done. by rewrite Hext.
  - rewrite !lookup_ge_None_2; [done | rewrite length_tabulate; lia ..].
Qed.

(** A loop that overwrites entry [i] with [g i], for each [i < n]. *)
Lemma for_loop_tabulate (body : nat → vec → result vec) (g : nat → float_t)
  (n : nat) (v : vec) :
  length v = n →
  (∀ i w, i < n → length w = n → body i w = Ok (<[i := g i]> w)) →
  for_loop body 0 n v = Ok (tabulate g n).
Proof.
  intros <- Hbody.
  destruct (for_loop_updated_on (λ i j, j = i) (λ j _, g j) body 0 (length v) v)
    as (v' & -> & Hupd).
  - by intros i i' j -> ->.
  - intros i w Hi Hw. exists (<[i := g i]> w). split; [apply Hbody; (done || lia)|].
    apply (updated_on_insert (λ j _, g j)). lia.
  - f_equal. rewrite <- imap_tabulate. eapply updated_on_all; [|exact Hupd].
    intros j Hj. exists j. simpl. split; [lia | done].
Qed.

(** *** Forward *)

Lemma forward_a_ok (l : fully_connected_layer float_t) (in_ : vec) (i : nat) (a : vec) :
  fits_cnn_size (in_size_ l) (out_size_ l) →
  in_size_ l * out_size_ l ≤ length (W_ l) →
  (has_bias_ l = true → out_size_ l ≤ length (b_ l)) →
  in_size_ l ≤ length in_ →
  i < out_size_ l → i < length a →
  forward_a l in_ i a = Ok (<[i := pre_activation l in_ i]> a).
Proof.
  intros Hfit HW Hb Hin Hi Ha. unfold forward_a, pre_activation, sum_of.
  rewrite vset_lt by done. simpl.
  rewrite (for_loop_accumulate _
    (λ c, at_ (W_ l) (c * out_size_ l + i) ⊠ at_ in_ c) i).
  - simpl. rewrite at_insert_eq, list_insert_insert_eq by done.
    destruct (has_bias_ l) eqn:Hbias; [|done].
    rewrite vget_at by (specialize (Hb eq_refl); lia). simpl.
    rewrite vadd_at_lt by (by rewrite length_insert).
    by rewrite at_insert_eq, list_insert_insert_eq.
  - by rewrite length_insert.
  - intros c w Hc Hw.
    rewrite (cnn_add_mul_fits (in_size_ l)) by (done || lia).
    pose proof (row_major_lt (in_size_ l) (out_size_ l) c i).
    rewrite (vget_at (W_ l)) by lia. simpl. rewrite (vget_at in_) by lia. done.
Qed.

Lemma forward_propagation_local_ok (l : fully_connected_layer float_t) (in_ : vec)
  (index : nat) (ws : worker_storage float_t) :
  fits_cnn_size (in_size_ l) (out_size_ l) →
  in_size_ l * out_size_ l ≤ length (W_ l) →
  (has_bias_ l = true → out_size_ l ≤ length (b_ l)) →
  worker_storage_ l !! index = Some ws →
  length (a_ ws) = out_size_ l →
  length (output_ ws) = out_size_ l →
  in_size_ l ≤ length in_ →
  forward_propagation_local l in_ index
  = Ok (outputs l in_,
        with_worker_storage l index
          (with_a_output ws (pre_activations l in_) (outputs l in_))).
Proof.
  intros Hfit HW Hb Hws Ha Hout Hin. unfold forward_propagation_local, get_worker_storage.
  rewrite Hws. simpl. rewrite for_i_for_loop.
  rewrite (for_loop_tabulate _ (pre_activation l in_)); [|done|].
  - simpl. fold (pre_activations l in_). rewrite for_i_for_loop.
    rewrite (for_loop_tabulate _ (activation.f (h_ l) (pre_activations l in_)));
      [done | done |].
    intros i w Hi Hw. unfold forward_out. apply vset_lt. lia.
  - intros i w Hi Hw. apply forward_a_ok; (done || lia).
Qed.

(** *** Sweeps over a weight-shaped accumulator *)

Lemma outer_step_at (out_size : nat) (u : nat → nat → float_t) (c i : nat)
  (w : float_t) :
  i < out_size → outer_step out_size u (c * out_size + i) w = w ⊞ u c i.
Proof.
  intros Hi. unfold outer_step. by rewrite row_major_div, row_major_mod.
Qed.

(** One row: [for i in [b, b+n): w[c*out_size + i] += u c i]. *)
Lemma row_sweep (out_size c b n : nat) (u : nat → nat → float_t)
  (body : nat → vec → result vec) (w : vec) :
  b + n ≤ out_size → c * out_size + out_size ≤ length w →
  (∀ i w', i < n → length w' = length w →
     body i w' = vadd_at w' (c * out_size + b + i) (u c (b + i))) →
  ∃ w', for_loop body 0 n w = Ok w' ∧
    updated_on (λ j, ∃ i, b ≤ i < b + n ∧ j = c * out_size + i)
      (outer_step out_size u) w w'.
Proof.
  intros Hn Hw Hbody.
  destruct (for_loop_updated_on (λ i j, j = c * out_size + b + i)
              (outer_step out_size u) body 0 n w) as (w' & Hw' & Hupd).
  - intros i i' j -> ?. lia.
  - intros i w1 Hi Hw1. rewrite Hbody by (done || lia).
    rewrite vadd_at_lt by lia. eexists. split; [done|].
    replace (at_ w1 (c * out_size + b + i) ⊞ u c (b + i))
      with (outer_step out_size u (c * out_size + b + i)
              (at_ w1 (c * out_size + b + i))).
    + apply updated_on_insert. lia.
    + rewrite <- Nat.add_assoc. apply outer_step_at. lia.
  - exists w'. split; [done|]. eapply updated_on_weaken; [|exact Hupd].
    intros j _. split.
    + intros (i & Hi & ->). exists (b + i). lia.
    + intros (i & Hi & ->). exists (i - b). lia.
Qed.

(** All rows: the row sweeps of distinct [c] rewrite disjoint entries. *)
Lemma column_sweep (in_size out_size b e : nat) (G : nat → float_t → float_t)
  (body : nat → vec → result vec) (w : vec) :
  e ≤ out_size →
  (∀ c w', c < in_size → length w' = length w →
     ∃ w'', body c w' = Ok w'' ∧
       updated_on (λ j, ∃ i, b ≤ i < e ∧ j = c * out_size + i) G w' w'') →
  ∃ w', for_loop body 0 in_size w = Ok w' ∧
    updated_on (λ j, ∃ c i, c < in_size ∧ b ≤ i < e ∧ j = c * out_size + i) G w w'.
Proof.
  intros He Hbody.
  destruct (for_loop_updated_on
              (λ c j, ∃ i, b ≤ i < e ∧ j = c * out_size + i) G body 0 in_size w)
    as (w' & Hw' & Hupd).
  - intros c c' j (i & Hi & ->) (i' & Hi' & Heq).
    by destruct (row_major_inj out_size c i c' i') as [-> _]; [lia | lia | |].
  - intros c w1 Hc Hw1. apply Hbody; (done || lia).
  - exists w'. split; [done|]. eapply updated_on_weaken; [|exact Hupd].
    intros j _. split.
    + intros (c & Hc & i & Hi & ->). exists c, i. split; [lia | done].
    + intros (c & i & Hc & Hi & ->). exists c. split; [lia | eauto].
Qed.

(** Every entry of a weight-shaped vector is some [c*out_size + i]. *)
Lemma row_major_all (in_size out_size j : nat) :
  j < in_size * out_size →
  ∃ c i, c < in_size ∧ 0 ≤ i < out_size ∧ j = c * out_size + i.
Proof.
  intros Hj. assert (out_size ≠ 0) by (intros ->; lia).
  exists (j / out_size), (j mod out_size). split; [|split].
  - apply Nat.Div0.div_lt_upper_bound. lia.
  - split; [lia | by apply Nat.mod_upper_bound].
  - rewrite (Nat.div_mod_eq j out_size) at 1. lia.
Qed.

(** *** First-order back-propagation *)

Lemma dot_ok (v1 : vec) (o1 : nat) (v2 : vec) (o2 size : nat) :
  o1 + size ≤ length v1 → o2 + size ≤ length v2 →
  dot v1 o1 v2 o2 size
  = Ok (sum_of (λ r, at_ v1 (o1 + r) ⊠ at_ v2 (o2 + r)) size).
Proof.
  intros H1 H2. unfold dot, sum_of. apply for_loop_accumulate_local.
  intros r x Hr. rewrite (vget_at v1) by lia. simpl. by rewrite (vget_at v2) by lia.
Qed.

Lemma back_delta_ok (l : fully_connected_layer float_t) (prev_out : vec)
  (prev_h : activation.function float_t) (curr_delta : vec) (c : nat) (pd : vec) :
  fits_cnn_size (in_size_ l) (out_size_ l) →
  in_size_ l * out_size_ l ≤ length (W_ l) →
  out_size_ l ≤ length curr_delta →
  in_size_ l ≤ length prev_out →
  c < in_size_ l → c < length pd →
  back_delta l prev_out prev_h curr_delta c pd
  = Ok (<[c := upstream_delta l prev_out prev_h curr_delta c]> pd).
Proof.
  intros Hfit HW Hd Hpo Hc Hpd. unfold back_delta.
  rewrite (cnn_mul_fits (in_size_ l)) by done.
  rewrite dot_ok by (done || nia). simpl.
  rewrite vset_lt by done. simpl. rewrite vget_at by lia. simpl.
  rewrite vmul_at_lt by (by rewrite length_insert).
  by rewrite at_insert_eq, list_insert_insert_eq.
Qed.

Lemma muladd_ok (l : fully_connected_layer float_t) (prev_out curr_delta : vec)
  (c b e : nat) (dW : vec) :
  b ≤ e → e ≤ out_size_ l → out_size_ l ≤ length curr_delta →
  c * out_size_ l + out_size_ l ≤ length dW →
  ∃ dW', muladd curr_delta b (at_ prev_out c) (e - b) dW (c * out_size_ l + b)
         = Ok dW' ∧
    updated_on (λ j, ∃ i, b ≤ i < e ∧ j = c * out_size_ l + i)
      (outer_step (out_size_ l) (dW_term prev_out curr_delta)) dW dW'.
Proof.
  intros Hbe He Hd HdW. unfold muladd.
  destruct (row_sweep (out_size_ l) c b (e - b) (dW_term prev_out curr_delta)
    (λ i dst, x ← vget curr_delta (b + i);
              vadd_at dst (c * out_size_ l + b + i) (x ⊠ at_ prev_out c)) dW)
    as (dW' & HdW' & Hupd); [lia | done | |].
  - intros i w' Hi Hw'. by rewrite vget_at by lia.
  - exists dW'. split; [done|]. eapply updated_on_weaken; [|exact Hupd].
    intros j _. split; intros (i & Hi & ->); exists i; (split; [lia | done]).
Qed.

Lemma back_gradients_ok (l : fully_connected_layer float_t)
  (prev_out curr_delta : vec) (b e : nat) (dW db : vec) :
  fits_cnn_size (in_size_ l) (out_size_ l) →
  b ≤ e → e ≤ out_size_ l → out_size_ l ≤ length curr_delta →
  in_size_ l ≤ length prev_out →
  length dW = in_size_ l * out_size_ l →
  (has_bias_ l = true → length db = out_size_ l) →
  ∃ dW' db',
    back_gradients l prev_out curr_delta {| r_begin := b; r_end := e |} (dW, db)
    = Ok (dW', db') ∧
    updated_on (λ j, ∃ c i, c < in_size_ l ∧ b ≤ i < e ∧ j = c * out_size_ l + i)
      (outer_step (out_size_ l) (dW_term prev_out curr_delta)) dW dW' ∧
    (if has_bias_ l
     then updated_on (λ j, b ≤ j < e) (bias_step curr_delta) db db'
     else db' = db).
Proof.
  intros Hfit Hbe He Hd Hpo HdW Hdb. unfold back_gradients. simpl.
  destruct (column_sweep (in_size_ l) (out_size_ l) b e
    (outer_step (out_size_ l) (dW_term prev_out curr_delta))
    (λ c dW, po ← vget prev_out c;
             muladd curr_delta b po (e - b) dW
               (cnn_add (cnn_mul c (out_size_ l)) b)) dW)
    as (dW' & -> & HupdW); [done | |].
  { intros c w' Hc Hw'. rewrite vget_at by lia. simpl.
    destruct (decide (b = e)) as [->|Hne].
    - exists w'. rewrite Nat.sub_diag. split; [done|].
      apply updated_on_refl. intros j (i & Hi & _). lia.
    - rewrite (cnn_add_mul_fits (in_size_ l)) by (done || lia).
      apply muladd_ok; [done | done | done |].
      rewrite Hw', HdW. nia. }
  simpl. destruct (has_bias_ l) eqn:Hbias.
  - specialize (Hdb eq_refl).
    destruct (for_loop_updated_on (λ i j, j = i) (bias_step curr_delta)
      (λ i db, x ← vget curr_delta i; vadd_at db i x) b (e - b) db)
      as (db' & -> & Hupdb).
    + by intros i i' j -> ->.
    + intros i w' Hi Hw'. rewrite vget_at by lia. simpl.
      rewrite vadd_at_lt by lia. eexists. split; [done|].
      apply (updated_on_insert (bias_step curr_delta)). lia.
    + simpl. exists dW', db'. split; [done|]. split; [done|].
      eapply updated_on_weaken; [|exact Hupdb].
      intros j _. split; [intros (i & Hi & ->); lia | intros Hj; exists j; lia].
  - simpl. by exists dW', db.
Qed.

Lemma back_propagation_local_ok (l : fully_connected_layer float_t)
  (ws : worker_storage float_t) (prev_out : vec)
  (prev_h : activation.function float_t) (curr_delta : vec) :
  fits_cnn_size (in_size_ l) (out_size_ l) →
  in_size_ l * out_size_ l ≤ length (W_ l) →
  out_size_ l ≤ length curr_delta →
  in_size_ l ≤ length prev_out →
  length (prev_delta_ ws) = in_size_ l →
  length (dW_ ws) = in_size_ l * out_size_ l →
  (has_bias_ l = true → length (db_ ws) = out_size_ l) →
  back_propagation_local l ws prev_out prev_h curr_delta
  = Ok (with_gradients ws
          (tabulate (upstream_delta l prev_out prev_h curr_delta) (in_size_ l))
          (accumulated_dW l prev_out curr_delta (dW_ ws))
          (accumulated_db l curr_delta (db_ ws))).
Proof.
  intros Hfit HW Hd Hpo Hpd HdW Hdb. unfold back_propagation_local.
  rewrite (for_loop_tabulate _ (upstream_delta l prev_out prev_h curr_delta));
    [|done|].
  2:{ intros c w Hc Hw. apply back_delta_ok; (done || lia). }
  simpl. unfold for_.
  destruct (run_blocks_inv
    (λ k (g : vec * vec),
       updated_on (λ j, ∃ c i, c < in_size_ l ∧ 0 ≤ i < k ∧ j = c * out_size_ l + i)
         (outer_step (out_size_ l) (dW_term prev_out curr_delta)) (dW_ ws) g.1 ∧
       (if has_bias_ l
        then updated_on (λ j, 0 ≤ j < k) (bias_step curr_delta) (db_ ws) g.2
        else g.2 = db_ ws))
    (back_gradients l prev_out curr_delta) 0 (out_size_ l)
    (blocks (parallelize_ l) 0 (out_size_ l)) (dW_ ws, db_ ws))
    as ([dW' db'] & -> & HupdW & Hupdb).
  - apply blocks_tile. lia.
  - simpl. split.
    + apply updated_on_refl. intros j (c & i & _ & Hi & _). lia.
    + destruct (has_bias_ l); [|done]. apply updated_on_refl. intros j Hj. lia.
  - intros b e [dW1 db1] _ Hbe He [HW1 Hb1]. simpl in HW1, Hb1.
    destruct (back_gradients_ok l prev_out curr_delta b e dW1 db1)
      as (dW2 & db2 & -> & HW2 & Hb2); try done.
    { destruct HW1 as [-> _ _]. done. }
    { intros Hbias. rewrite Hbias in Hb1. destruct Hb1 as [-> _ _]. auto. }
    exists (dW2, db2). split; [done|]. simpl. split.
    + eapply updated_on_weaken; [|eapply updated_on_trans; [|exact HW1|exact HW2]].
      * intros j _. split.
        -- intros [(c & i & Hc & Hi & ->)|(c & i & Hc & Hi & ->)];
             exists c, i; (split; [done | split; [lia | done]]).
        -- intros (c & i & Hc & Hi & ->). destruct (decide (i < b)) as [Hlt|Hge];
             [left | right]; exists c, i; (split; [done | split; [lia | done]]).
      * intros j (c & i & Hc & Hi & ->) (c' & i' & Hc' & Hi' & Heq).
        destruct (row_major_inj (out_size_ l) c i c' i'); (done || lia).
    + destruct (has_bias_ l); [|congruence].
      eapply updated_on_weaken; [|eapply updated_on_trans; [|exact Hb1|exact Hb2]].
      * intros j _. simpl. lia.
      * intros j ? ?. simpl in *. lia.
  - simpl in *. unfold accumulated_dW, accumulated_db. do 2 f_equal.
    + eapply updated_on_all; [|exact HupdW]. intros j Hj. rewrite HdW in Hj.
      destruct (row_major_all _ _ _ Hj) as (c & i & ?). by exists c, i.
    + destruct (has_bias_ l); [|done].
      eapply updated_on_all; [|exact Hupdb]. intros j Hj.
      rewrite Hdb in Hj by done. simpl. lia.
Qed.

(** *** Second-order back-propagation *)

Lemma back_propagation_2nd_local_ok (l : fully_connected_layer float_t)
  (prev_out : vec) (prev_h : activation.function float_t) (current_delta2 : vec) :
  fits_cnn_size (in_size_ l) (out_size_ l) →
  in_size_ l * out_size_ l ≤ length (W_ l) →
  out_size_ l ≤ length current_delta2 →
  in_size_ l ≤ length prev_out →
  length (Whessian_ l) = in_size_ l * out_size_ l →
  (has_bias_ l = true → length (bhessian_ l) = out_size_ l) →
  length (prev_delta2_ l) = in_size_ l →
  back_propagation_2nd_local l prev_out prev_h current_delta2
  = Ok (with_hessian l
          (accumulated_Whessian l prev_out current_delta2 (Whessian_ l))
          (accumulated_bhessian l current_delta2 (bhessian_ l))
          (tabulate (upstream_delta2 l prev_out prev_h current_delta2)
             (in_size_ l))).
Proof.
  intros Hfit HW Hd Hpo HWh Hbh Hpd2. unfold back_propagation_2nd_local.
  destruct (column_sweep (in_size_ l) (out_size_ l) 0 (out_size_ l)
    (outer_step (out_size_ l) (hessian_term prev_out current_delta2))
    (λ c Wh,
       for_loop
         (λ r Wh, d ← vget current_delta2 r; po ← vget prev_out c;
                  vadd_at Wh (cnn_add (cnn_mul c (out_size_ l)) r) (d ⊠ sqr po))
         0 (out_size_ l) Wh) (Whessian_ l))
    as (Wh' & -> & HupdW); [done | |].
  { intros c w' Hc Hw'.
    destruct (row_sweep (out_size_ l) c 0 (out_size_ l)
      (hessian_term prev_out current_delta2)
      (λ r Wh, d ← vget current_delta2 r; po ← vget prev_out c;
               vadd_at Wh (cnn_add (cnn_mul c (out_size_ l)) r) (d ⊠ sqr po)) w')
      as (w'' & -> & Hupd); [lia | rewrite Hw', HWh; nia | |].
    - intros r w1 Hr Hw1. rewrite (vget_at current_delta2) by lia. simpl.
      rewrite (vget_at prev_out) by lia. simpl.
      rewrite (cnn_add_mul_fits (in_size_ l)) by done.
      by rewrite Nat.add_0_r.
    - by exists w''. }
  simpl.
  assert (Hbias : (if has_bias_ l
            then for_loop (λ r bh, d ← vget current_delta2 r; vadd_at bh r d)
                   0 (out_size_ l) (bhessian_ l)
            else Ok (bhessian_ l))
          = Ok (accumulated_bhessian l current_delta2 (bhessian_ l))).
  { unfold accumulated_bhessian. destruct (has_bias_ l); [|done].
    specialize (Hbh eq_refl).
    destruct (for_loop_updated_on (λ i j, j = i) (bias_step current_delta2)
      (λ r bh, d ← vget current_delta2 r; vadd_at bh r d)
      0 (out_size_ l) (bhessian_ l)) as (bh' & -> & Hupdb).
    - by intros i i' j -> ->.
    - intros i w' Hi Hw'. rewrite vget_at by lia. simpl.
      rewrite vadd_at_lt by lia. eexists. split; [done|].
      apply (updated_on_insert (bias_step current_delta2)). lia.
    - f_equal. eapply updated_on_all; [|exact Hupdb].
      intros j Hj. exists j. simpl. lia. }
  rewrite Hbias. simpl.
  rewrite (for_loop_tabulate _
    (upstream_delta2 l prev_out prev_h current_delta2)); [|done|].
  - simpl. unfold accumulated_Whessian. do 2 f_equal.
    eapply updated_on_all; [|exact HupdW]. intros j Hj. rewrite HWh in Hj.
    destruct (row_major_all _ _ _ Hj) as (c & i & ?). by exists c, i.
  - intros c w Hc Hw. rewrite vset_lt by lia. simpl.
    rewrite (for_loop_accumulate _
      (λ r, at_ current_delta2 r ⊠ sqr (at_ (W_ l) (c * out_size_ l + r))) c).
    + simpl. rewrite vget_at by lia. simpl.
      rewrite vmul_at_lt by (rewrite !length_insert; lia).
      rewrite !at_insert_eq by (rewrite ?length_insert; lia).
      by rewrite !list_insert_insert_eq.
    + rewrite length_insert. lia.
    + intros r w1 Hr Hw1. rewrite (vget_at current_delta2) by lia. simpl.
      rewrite (cnn_add_mul_fits (in_size_ l)) by (done || lia).
      pose proof (row_major_lt (in_size_ l) (out_size_ l) c r).
      by rewrite (vget_at (W_ l)) by lia.
Qed.

End LocalLemmas.

(** * The passes along the chain *)

Section ChainLemmas.
Context {float_t : Type} {FT : Float_t float_t} {TG : Target} {DP : Dispatch}.

Local Abbreviation vec := (list float_t).

Lemma invariant_bias_length (l : fully_connected_layer float_t) :
  layer_invariant l → has_bias_ l = true → out_size_ l ≤ length (b_ l).
Proof. intros [_ _ Hb _ _ _] Hbias. rewrite Hb, Hbias. done. Qed.

(** [forward_propagation] of a layer: its own pass, then the downstream node's
    result if there is one. *)
Lemma forward_propagation_fully_connected (l : fully_connected_layer float_t)
  (next_ : list (node float_t)) (in_ : vec) (index : nat)
  (ws : worker_storage float_t) :
  layer_invariant l →
  worker_storage_ l !! index = Some ws →
  worker_invariant l ws →
  in_size_ l ≤ length in_ →
  forward_propagation (fully_connected l) next_ in_ index
  = match next_ with
    | [] =>
        Ok (outputs l in_,
            [fully_connected
               (with_worker_storage l index
                  (with_a_output ws (pre_activations l in_) (outputs l in_)))])
    | nx :: rest =>
        '(res, chain) ← forward_propagation nx rest (outputs l in_) index;
        Ok (res,
            fully_connected
              (with_worker_storage l index
                 (with_a_output ws (pre_activations l in_) (outputs l in_)))
            :: chain)
    end.
Proof.
  intros Hl Hws Hw Hin.
  pose proof (invariant_bias_length l Hl) as Hb.
  destruct Hl as [Hfit HW _ _ _ _], Hw as [Ha Hout _ _ _].
  destruct next_ as [|nx rest]; simpl;
    rewrite (forward_propagation_local_ok l in_ index ws) by (done || lia); done.
Qed.

Lemma lookup_outer_step (out_size : nat) (u : nat → nat → float_t) (v : vec)
  (c i : nat) :
  i < out_size → c * out_size + i < length v →
  imap (outer_step out_size u) v !! (c * out_size + i)
  = Some (at_ v (c * out_size + i) ⊞ u c i).
Proof.
  intros Hi Hlt. rewrite list_lookup_imap, lookup_at by done. simpl.
  by rewrite outer_step_at.
Qed.

Lemma lookup_bias_step (delta v : vec) (i : nat) :
  i < length v → imap (bias_step delta) v !! i = Some (at_ v i ⊞ at_ delta i).
Proof. intros Hi. by rewrite list_lookup_imap, lookup_at. Qed.

(** [back_propagation] of a layer with an upstream node: its own pass, then
    the upstream node's result on the delta it computed. *)
Lemma back_propagation_fully_connected (l : fully_connected_layer float_t)
  (p : node float_t) (up : list (node float_t)) (curr_delta : vec) (index : nat)
  (ws : worker_storage float_t) (prev_out : vec) :
  layer_invariant l →
  worker_storage_ l !! index = Some ws →
  worker_invariant l ws →
  output p index = Ok prev_out →
  in_size_ l ≤ length prev_out →
  out_size_ l ≤ length curr_delta →
  back_propagation (fully_connected l) (p :: up) curr_delta index
  = '(res, chain) ←
      back_propagation p up
        (tabulate (upstream_delta l prev_out (activation_function p) curr_delta)
           (in_size_ l)) index;
    Ok (res,
        fully_connected
          (with_worker_storage l index
             (back_propagated l ws prev_out (activation_function p) curr_delta))
        :: chain).
Proof.
  intros Hl Hws Hw Hpo Hlen Hd.
  destruct Hl as [Hfit HW _ _ _ _], Hw as [_ _ Hpd HdW Hdb].
  simpl. unfold get_worker_storage. rewrite Hws. simpl. rewrite Hpo. simpl.
  rewrite back_propagation_local_ok; [done | done | lia | done | done | done | done |].
  intros Hbias. by rewrite Hdb, Hbias.
Qed.

(** [back_propagation_2nd] of a layer with an upstream node. *)
Lemma back_propagation_2nd_fully_connected (l : fully_connected_layer float_t)
  (p : node float_t) (up : list (node float_t)) (current_delta2 prev_out : vec) :
  layer_invariant l →
  output p 0 = Ok prev_out →
  in_size_ l ≤ length prev_out →
  out_size_ l ≤ length current_delta2 →
  back_propagation_2nd (fully_connected l) (p :: up) current_delta2
  = '(res, chain) ←
      back_propagation_2nd p up
        (tabulate
           (upstream_delta2 l prev_out (activation_function p) current_delta2)
           (in_size_ l));
    Ok (res,
        fully_connected
          (back_propagated_2nd l prev_out (activation_function p) current_delta2)
        :: chain).
Proof.
  intros [Hfit HW _ HWh Hbh Hpd2] Hpo Hlen Hd.
  simpl. rewrite Hpo. simpl.
  rewrite back_propagation_2nd_local_ok; [done | done | lia | done | done | done | | done].
  intros Hbias. by rewrite Hbh, Hbias.
Qed.

End ChainLemmas.

(** ** Vectors of the wrong length *)

Section WrongLength.
Context {float_t : Type} {FT : Float_t float_t} {TG : Target} {DP : Dispatch}.

Local Abbreviation vec := (list float_t).

(** A loop stops with the fault of its first failing iteration. *)
Lemma for_loop_fault_at {St} (P : nat → St → Prop) (body : nat → St → result St)
  (lo n k : nat) (s : St) (e : fault) :
  k < n →
  P lo s →
  (∀ i t, lo ≤ i < lo + k → P i t → ∃ t', body i t = Ok t' ∧ P (S i) t') →
  (∀ t, P (lo + k) t → body (lo + k) t = Fault e) →
  for_loop body lo n s = Fault e.
Proof.
  intros Hk H0 Hstep Hfault.
  replace n with (k + S (n - S k)) by lia. rewrite for_loop_app.
  destruct (for_loop_inv P body lo k s H0 Hstep) as (s' & -> & Hs').
  simpl. by rewrite Hfault.
Qed.

Lemma for_loop_fault_first {St} (body : nat → St → result St) (lo n : nat)
  (s : St) (e : fault) :
  0 < n → body lo s = Fault e → for_loop body lo n s = Fault e.
Proof. intros Hn Hbody. destruct n as [|n]; [lia|]. simpl. by rewrite Hbody. Qed.

Lemma at_take (v : vec) (n i : nat) : i < n → at_ (take n v) i = at_ v i.
Proof. intros Hi. unfold at_. by rewrite lookup_take_lt. Qed.

Lemma sum_of_ext (g g' : nat → float_t) (n : nat) :
  (∀ c, c < n → g c = g' c) → sum_of g n = sum_of g' n.
Proof. intros Hext. apply accumulate_ext. intros c Hc. apply Hext. lia. Qed.

Lemma outputs_take (l : fully_connected_layer float_t) (in_ : vec) :
  pre_activations l (take (in_size_ l) in_) = pre_activations l in_ ∧
  outputs l (take (in_size_ l) in_) = outputs l in_.
Proof.
  assert (Ha : pre_activations l (take (in_size_ l) in_) = pre_activations l in_).
  { apply tabulate_ext. intros i Hi. unfold pre_activation.
    rewrite (sum_of_ext _
      (λ c, at_ (W_ l) (c * out_size_ l + i) ⊠ at_ in_ c)); [done|].
    intros c Hc. by rewrite at_take. }
  split; [done|]. unfold outputs. by rewrite Ha.
Qed.

Lemma back_propagated_take (l : fully_connected_layer float_t)
  (ws : worker_storage float_t) (prev_out : vec)
  (prev_h : activation.function float_t) (curr_delta : vec) :
  length (dW_ ws) = in_size_ l * out_size_ l →
  (has_bias_ l = true → length (db_ ws) = out_size_ l) →
  back_propagated l ws prev_out prev_h (take (out_size_ l) curr_delta)
  = back_propagated l ws prev_out prev_h curr_delta.
Proof.
  intros HdW Hdb. unfold back_propagated. f_equal.
  - apply tabulate_ext. intros c Hc. unfold upstream_delta. f_equal.
    apply sum_of_ext. intros r Hr. by rewrite at_take.
  - unfold accumulated_dW. apply imap_ext. intros k w Hk.
    apply lookup_lt_Some in Hk. rewrite HdW in Hk.
    assert (out_size_ l ≠ 0) by (intros Heq; rewrite Heq in Hk; lia).
    unfold outer_step, dW_term. rewrite at_take; [done|].
    by apply Nat.mod_upper_bound.
  - unfold accumulated_db. destruct (has_bias_ l); [|done].
    apply imap_ext. intros i w Hi. apply lookup_lt_Some in Hi.
    unfold bias_step. rewrite at_take; [done|]. rewrite Hdb in Hi; done.
Qed.

Lemma back_propagated_2nd_take (l : fully_connected_layer float_t)
  (prev_out : vec) (prev_h : activation.function float_t) (current_delta2 : vec) :
  length (Whessian_ l) = in_size_ l * out_size_ l →
  (has_bias_ l = true → length (bhessian_ l) = out_size_ l) →
  back_propagated_2nd l prev_out prev_h (take (out_size_ l) current_delta2)
  = back_propagated_2nd l prev_out prev_h current_delta2.
Proof.
  intros HWh Hbh. unfold back_propagated_2nd. f_equal.
  - unfold accumulated_Whessian. apply imap_ext. intros k w Hk.
    apply lookup_lt_Some in Hk. rewrite HWh in Hk.
    assert (out_size_ l ≠ 0) by (intros Heq; rewrite Heq in Hk; lia).
    unfold outer_step, hessian_term. rewrite at_take; [done|].
    by apply Nat.mod_upper_bound.
  - unfold accumulated_bhessian. destruct (has_bias_ l); [|done].
    apply imap_ext. intros i w Hi. apply lookup_lt_Some in Hi.
    unfold bias_step. rewrite at_take; [done|]. rewrite Hbh in Hi; done.
  - apply tabulate_ext. intros c Hc. unfold upstream_delta2. f_equal.
    apply sum_of_ext. intros r Hr. by rewrite at_take.
Qed.

(** A short input: the first output's sum reads [in[length in]]. *)
Lemma forward_propagation_local_short (l : fully_connected_layer float_t)
  (in_ : vec) (index : nat) (ws : worker_storage float_t) :
  layer_invariant l →
  worker_storage_ l !! index = Some ws →
  worker_invariant l ws →
  length in_ < in_size_ l → 0 < out_size_ l →
  forward_propagation_local l in_ index = Fault OutOfRange.
Proof.
  intros [Hfit HW _ _ _ _] Hws [Ha _ _ _ _] Hin Hout.
  unfold forward_propagation_local, get_worker_storage. rewrite Hws. simpl.
  rewrite for_i_for_loop.
  rewrite (for_loop_fault_first _ 0 (out_size_ l) _ OutOfRange); [done | done |].
  unfold forward_a. rewrite vset_lt by lia. simpl.
  rewrite (for_loop_fault_at (λ _ w, 0 < length w) _ 0 (in_size_ l) (length in_)
             _ OutOfRange); [done | done | | |].
  - rewrite length_insert. lia.
  - intros c w Hc Hw. rewrite (cnn_add_mul_fits (in_size_ l)) by (done || lia).
    rewrite (vget_at (W_ l)) by (rewrite HW; nia). simpl.
    rewrite (vget_at in_) by lia. simpl. rewrite vadd_at_lt by done.
    eexists. split; [done|]. by rewrite length_insert.
  - intros w Hw. simpl.
    rewrite (cnn_add_mul_fits (in_size_ l)) by (done || lia).
    rewrite (vget_at (W_ l)) by (rewrite HW; nia). simpl.
    by rewrite (vget_ge in_) by lia.
Qed.

(** A short delta: the first dot product reads [curr_delta[length curr_delta]]. *)
Lemma back_propagation_local_short (l : fully_connected_layer float_t)
  (ws : worker_storage float_t) (prev_out : vec)
  (prev_h : activation.function float_t) (curr_delta : vec) :
  layer_invariant l →
  length curr_delta < out_size_ l → 0 < in_size_ l →
  back_propagation_local l ws prev_out prev_h curr_delta = Fault OutOfRange.
Proof.
  intros [Hfit HW _ _ _ _] Hd Hin. unfold back_propagation_local.
  rewrite (for_loop_fault_first _ 0 (in_size_ l) _ OutOfRange); [done | done |].
  unfold back_delta, dot. rewrite (cnn_mul_fits (in_size_ l)) by done.
  rewrite (for_loop_fault_at (λ _ _, True) _ 0 (out_size_ l) (length curr_delta)
             _ OutOfRange); [done | done | done | |].
  - intros r x Hr _. rewrite (vget_at curr_delta) by lia. simpl.
    rewrite (vget_at (W_ l)) by (rewrite HW; nia). simpl. eauto.
  - intros x _. simpl. by rewrite (vget_ge curr_delta) by lia.
Qed.

(** A short second-order delta: the first row of the Hessian sweep reads
    [current_delta2[length current_delta2]]. *)
Lemma back_propagation_2nd_local_short (l : fully_connected_layer float_t)
  (prev_out : vec) (prev_h : activation.function float_t) (current_delta2 : vec) :
  layer_invariant l →
  in_size_ l ≤ length prev_out →
  length current_delta2 < out_size_ l → 0 < in_size_ l →
  back_propagation_2nd_local l prev_out prev_h current_delta2 = Fault OutOfRange.
Proof.
  intros [Hfit HW _ HWh _ _] Hpo Hd Hin. unfold back_propagation_2nd_local.
  match goal with
  | |- (?m ≫= _) = _ => assert (m = Fault OutOfRange) as ->; [|done]
  end.
  apply for_loop_fault_first; [done|].
  apply (for_loop_fault_at (λ _ w, length w = length (Whessian_ l)) _
           0 (out_size_ l) (length current_delta2)); [done | done | |].
  - intros r w Hr Hw. rewrite (vget_at current_delta2) by lia. simpl.
    rewrite (vget_at prev_out) by lia. simpl.
    rewrite (cnn_add_mul_fits (in_size_ l)) by (done || lia).
    rewrite vadd_at_lt by (rewrite Hw, HWh; nia).
    eexists. split; [done|]. by rewrite length_insert.
  - intros w _. simpl. by rewrite (vget_ge current_delta2) by lia.
Qed.

End WrongLength.

(** ** What a pass leaves alone *)

Section Frames.
Context {float_t : Type} {FT : Float_t float_t} {TG : Target} {DP : Dispatch}.

Local Abbreviation vec := (list float_t).

Lemma forward_propagation_local_inv (l l' : fully_connected_layer float_t)
  (in_ out : vec) (index : nat) :
  forward_propagation_local l in_ index = Ok (out, l') →
  ∃ ws a, worker_storage_ l !! index = Some ws ∧
    l' = with_worker_storage l index (with_a_output ws a out).
Proof.
  unfold forward_propagation_local, get_worker_storage. intros Hrun.
  destruct (worker_storage_ l !! index) as [ws|]; [|done]. simpl in Hrun.
  apply bind_Ok_inv in Hrun as (a & _ & Hrun).
  apply bind_Ok_inv in Hrun as (out' & _ & Hrun).
  injection Hrun as <- <-. by exists ws, a.
Qed.

Lemma forward_propagation_inv (l : fully_connected_layer float_t)
  (next_ : list (node float_t)) (in_ res : vec) (index : nat)
  (chain : list (node float_t)) :
  forward_propagation (fully_connected l) next_ in_ index = Ok (res, chain) →
  ∃ ws a out rest,
    worker_storage_ l !! index = Some ws ∧
    chain = fully_connected
              (with_worker_storage l index (with_a_output ws a out)) :: rest ∧
    match next_ with
    | [] => res = out ∧ rest = []
    | nx :: tl => forward_propagation nx tl out index = Ok (res, rest)
    end.
Proof.
  intros Hrun. destruct next_ as [|nx tl]; simpl in Hrun;
    apply bind_Ok_inv in Hrun as ([out l'] & Hlocal & Hrun);
    apply forward_propagation_local_inv in Hlocal as (ws & a & Hws & ->).
  - injection Hrun as <- <-. by exists ws, a, out, [].
  - apply bind_Ok_inv in Hrun as ([res' rest] & Hnext & Hrun).
    injection Hrun as <- <-. by exists ws, a, out, rest.
Qed.

Lemma back_gradients_no_bias (l : fully_connected_layer float_t)
  (prev_out curr_delta : vec) (bs : list blocked_range) (g g' : vec * vec) :
  has_bias_ l = false →
  run_blocks (back_gradients l prev_out curr_delta) bs g = Ok g' → g'.2 = g.2.
Proof.
  intros Hbias. revert g. induction bs as [|r bs IH]; intros g Hrun; simpl in Hrun.
  - by injection Hrun as <-.
  - apply bind_Ok_inv in Hrun as (g1 & Hstep & Hrun).
    rewrite (IH _ Hrun). unfold back_gradients in Hstep. rewrite Hbias in Hstep.
    apply bind_Ok_inv in Hstep as (dW & _ & Hstep). simpl in Hstep.
    by injection Hstep as <-.
Qed.

Lemma back_propagation_local_inv (l : fully_connected_layer float_t)
  (ws ws' : worker_storage float_t) (prev_out : vec)
  (prev_h : activation.function float_t) (curr_delta : vec) :
  back_propagation_local l ws prev_out prev_h curr_delta = Ok ws' →
  a_ ws' = a_ ws ∧ output_ ws' = output_ ws ∧
  (has_bias_ l = false → db_ ws' = db_ ws).
Proof.
  unfold back_propagation_local. intros Hrun.
  apply bind_Ok_inv in Hrun as (pd & _ & Hrun).
  apply bind_Ok_inv in Hrun as (g & Hg & Hrun).
  injection Hrun as <-. split; [done|]. split; [done|].
  intros Hbias. simpl. by apply (back_gradients_no_bias _ _ _ _ _ _ Hbias Hg).
Qed.

Lemma back_propagation_inv (l : fully_connected_layer float_t)
  (prev_ : list (node float_t)) (curr_delta res : vec) (index : nat)
  (chain : list (node float_t)) :
  back_propagation (fully_connected l) prev_ curr_delta index = Ok (res, chain) →
  ∃ ws ws' p up prev_out rest,
    worker_storage_ l !! index = Some ws ∧ prev_ = p :: up ∧
    output p index = Ok prev_out ∧
    back_propagation_local l ws prev_out (activation_function p) curr_delta
    = Ok ws' ∧
    back_propagation p up (prev_delta_ ws') index = Ok (res, rest) ∧
    chain = fully_connected (with_worker_storage l index ws') :: rest.
Proof.
  intros Hrun. destruct prev_ as [|p up]; simpl in Hrun;
    unfold get_worker_storage in Hrun;
    (destruct (worker_storage_ l !! index) as [ws|]; [|done]); [done|].
  simpl in Hrun.
  apply bind_Ok_inv in Hrun as (prev_out & Hpo & Hrun).
  apply bind_Ok_inv in Hrun as (ws' & Hlocal & Hrun).
  apply bind_Ok_inv in Hrun as ([res' rest] & Hup & Hrun).
  injection Hrun as <- <-. by exists ws, ws', p, up, prev_out, rest.
Qed.

Lemma back_propagation_2nd_local_inv (l l' : fully_connected_layer float_t)
  (prev_out : vec) (prev_h : activation.function float_t) (current_delta2 : vec) :
  back_propagation_2nd_local l prev_out prev_h current_delta2 = Ok l' →
  ∃ Wh bh pd2, l' = with_hessian l Wh bh pd2 ∧
    (has_bias_ l = false → bh = bhessian_ l).
Proof.
  unfold back_propagation_2nd_local. intros Hrun.
  apply bind_Ok_inv in Hrun as (Wh & _ & Hrun).
  apply bind_Ok_inv in Hrun as (bh & Hbh & Hrun).
  apply bind_Ok_inv in Hrun as (pd2 & _ & Hrun).
  injection Hrun as <-. exists Wh, bh, pd2. split; [done|].
  intros Hbias. rewrite Hbias in Hbh. by injection Hbh as <-.
Qed.

Lemma back_propagation_2nd_inv (l : fully_connected_layer float_t)
  (prev_ : list (node float_t)) (current_delta2 res : vec)
  (chain : list (node float_t)) :
  back_propagation_2nd (fully_connected l) prev_ current_delta2 = Ok (res, chain) →
  ∃ l' p up prev_out rest,
    prev_ = p :: up ∧ output p 0 = Ok prev_out ∧
    back_propagation_2nd_local l prev_out (activation_function p) current_delta2
    = Ok l' ∧
    back_propagation_2nd p up (prev_delta2_ l') = Ok (res, rest) ∧
    chain = fully_connected l' :: rest.
Proof.
  intros Hrun. destruct prev_ as [|p up]; [done|]. simpl in Hrun.
  apply bind_Ok_inv in Hrun as (prev_out & Hpo & Hrun).
  apply bind_Ok_inv in Hrun as (l' & Hlocal & Hrun).
  apply bind_Ok_inv in Hrun as ([res' rest] & Hup & Hrun).
  injection Hrun as <- <-. by exists l', p, up, prev_out, rest.
Qed.

(** Writing one worker's storage back with its [db_] unchanged keeps every
    worker's [db_]. *)
Lemma bias_buffers_with_worker_storage (l : fully_connected_layer float_t)
  (index : nat) (ws ws' : worker_storage float_t) :
  worker_storage_ l !! index = Some ws → db_ ws' = db_ ws →
  bias_buffers (with_worker_storage l index ws') = bias_buffers l.
Proof.
  intros Hws Hdb. unfold bias_buffers. simpl. f_equal.
  rewrite list_fmap_insert, Hdb. apply list_insert_id.
  by rewrite list_lookup_fmap, Hws.
Qed.

(** *** The storage of one worker *)

Lemma output_forget_worker (j i : nat) (n : node float_t) :
  i ≠ j → output (forget_worker j n) i = output n i.
Proof.
  intros Hij. destruct n as [l|l]; simpl.
  - by rewrite list_lookup_insert_ne.
  - unfold get_worker_storage. simpl. by rewrite list_lookup_insert_ne.
Qed.

Lemma activation_function_forget_worker (j : nat) (n : node float_t) :
  activation_function (forget_worker j n) = activation_function n.
Proof. by destruct n. Qed.

Lemma forget_worker_with_worker_storage (j : nat)
  (l : fully_connected_layer float_t) (ws : worker_storage float_t) :
  forget_worker j (fully_connected (with_worker_storage l j ws))
  = forget_worker j (fully_connected l).
Proof. simpl. unfold with_worker_storage. simpl. by rewrite list_insert_insert_eq. Qed.

(** The second-order pass of a layer neither reads nor writes worker storage. *)
Lemma back_propagation_2nd_local_with_worker_storage
  (l : fully_connected_layer float_t) (j : nat) (ws : worker_storage float_t)
  (prev_out : vec) (prev_h : activation.function float_t) (current_delta2 : vec) :
  back_propagation_2nd_local (with_worker_storage l j ws) prev_out prev_h
    current_delta2
  = (λ l1, with_worker_storage l1 j ws)
    <$> back_propagation_2nd_local l prev_out prev_h current_delta2.
Proof.
  unfold back_propagation_2nd_local. simpl.
  destruct (for_loop _ 0 (in_size_ l) (Whessian_ l)) as [Wh|e]; [|done]. simpl.
  destruct (if has_bias_ l then _ else _) as [bh|e]; [|done]. simpl.
  by destruct (for_loop _ 0 (in_size_ l) (prev_delta2_ l)) as [pd2|e].
Qed.

(** A forward pass under worker id [j] changes the chain in the storage of
    worker [j] only. *)
Lemma forward_propagation_forget_worker (j : nat) (next_ : list (node float_t)) :
  ∀ (this : node float_t) (in_ res : vec) (chain : list (node float_t)),
    forward_propagation this next_ in_ j = Ok (res, chain) →
    forget_worker j <$> chain = forget_worker j <$> (this :: next_).
Proof.
  induction next_ as [|nx tl IH]; intros this in_ res chain Hrun.
  - destruct this as [l|l].
    + simpl in Hrun. case_decide; [|done]. injection Hrun as <- <-.
      simpl. by rewrite list_insert_insert_eq.
    + apply forward_propagation_inv in Hrun
        as (ws & a & out & rest & _ & -> & _ & ->).
      rewrite !fmap_cons. by rewrite forget_worker_with_worker_storage.
  - destruct this as [l|l].
    + simpl in Hrun. case_decide; [|done].
      apply bind_Ok_inv in Hrun as ([res' rest] & Hnext & Hrun).
      injection Hrun as <- <-.
      rewrite (fmap_cons _ _ rest), (fmap_cons _ _ (nx :: tl)).
      rewrite (IH _ _ _ _ Hnext). f_equal. simpl.
      by rewrite list_insert_insert_eq.
    + apply forward_propagation_inv in Hrun
        as (ws & a & out & rest & _ & -> & Hnext).
      rewrite (fmap_cons _ _ rest), (fmap_cons _ _ (nx :: tl)).
      rewrite (IH _ _ _ _ Hnext). f_equal.
      apply forget_worker_with_worker_storage.
Qed.

Lemma observe_Ok (j : nat) (v : vec) (c : list (node float_t)) :
  observe j <$> Ok (v, c) = Ok (v, forget_worker j <$> c).
Proof. reflexivity. Qed.

(** The second-order pass does not see the storage of a worker other than 0. *)
Lemma back_propagation_2nd_forget_worker (j : nat) (prev_ : list (node float_t)) :
  j ≠ 0 →
  ∀ (prev_' : list (node float_t)) (this this' : node float_t)
    (current_delta2 : vec),
    forget_worker j this = forget_worker j this' →
    forget_worker j <$> prev_ = forget_worker j <$> prev_' →
    observe j <$> back_propagation_2nd this prev_ current_delta2
    = observe j <$> back_propagation_2nd this' prev_' current_delta2.
Proof.
  intros Hj. induction prev_ as [|p up IH];
    intros prev_' this this' d2 Hthis Hprev.
  - destruct prev_' as [|p' up']; [|done].
    destruct this as [l|l], this' as [l'|l']; try done.
    cbn [back_propagation_2nd]. by rewrite !observe_Ok, !fmap_cons, Hthis.
  - destruct prev_' as [|p' up']; [done|].
    rewrite !fmap_cons in Hprev. injection Hprev as Hp Hup.
    destruct this as [l|l], this' as [l'|l']; try done.
    + cbn [back_propagation_2nd].
      by rewrite !observe_Ok, !fmap_cons, Hthis, Hp, Hup.
    + simpl.
      rewrite <- (output_forget_worker j 0 p), <- (output_forget_worker j 0 p')
        by done.
      rewrite <- (activation_function_forget_worker j p),
        <- (activation_function_forget_worker j p'), Hp.
      destruct (output (forget_worker j p') 0) as [prev_out|e]; [|done]. simpl.
      assert (Hl : with_worker_storage l j
                {| a_ := []; output_ := []; prev_delta_ := []; dW_ := [];
                   db_ := [] |}
              = with_worker_storage l' j
                  {| a_ := []; output_ := []; prev_delta_ := []; dW_ := [];
                     db_ := [] |})
        by (cbn [forget_worker] in Hthis; congruence).
      pose proof (back_propagation_2nd_local_with_worker_storage l j
        {| a_ := []; output_ := []; prev_delta_ := []; dW_ := []; db_ := [] |}
        prev_out (activation_function (forget_worker j p')) d2) as Hloc.
      pose proof (back_propagation_2nd_local_with_worker_storage l' j
        {| a_ := []; output_ := []; prev_delta_ := []; dW_ := []; db_ := [] |}
        prev_out (activation_function (forget_worker j p')) d2) as Hloc'.
      rewrite Hl, Hloc' in Hloc.
      destruct (back_propagation_2nd_local l _ _ _) as [l1|e1],
        (back_propagation_2nd_local l' _ _ _) as [l1'|e1']; simpl in Hloc;
        try done; [|by injection Hloc as ->].
      assert (Hl1 : with_worker_storage l1 j
                {| a_ := []; output_ := []; prev_delta_ := []; dW_ := [];
                   db_ := [] |}
              = with_worker_storage l1' j
                  {| a_ := []; output_ := []; prev_delta_ := []; dW_ := [];
                     db_ := [] |}) by congruence.
      cbn [mbind result_bind].
      assert (Hpd2 : prev_delta2_ l1 = prev_delta2_ l1')
        by exact (f_equal prev_delta2_ Hl1).
      rewrite Hpd2. specialize (IH up' p p' (prev_delta2_ l1') Hp Hup).
      destruct (back_propagation_2nd p up _) as [[v c]|e],
        (back_propagation_2nd p' up' _) as [[v' c']|e'];
        cbn [mbind result_bind]; rewrite ?observe_Ok in IH |- *;
        try done.
      injection IH as -> Hc. rewrite !fmap_cons, Hc. do 3 f_equal.
      cbn [forget_worker]. by rewrite Hl1.
Qed.

End Frames.

(** * More on the passes *)

(** ** Buffers keep their lengths *)

Section Lengths.
Context {float_t : Type} {FT : Float_t float_t} {TG : Target} {DP : Dispatch}.

Local Abbreviation vec := (list float_t).

(** What every iteration keeps, the loop keeps. *)
Lemma for_loop_keeps {St} (I : St → Prop) (body : nat → St → result St)
  (lo n : nat) (s s' : St) :
  (∀ i t t', I t → body i t = Ok t' → I t') →
  I s → for_loop body lo n s = Ok s' → I s'.
Proof.
  intros Hbody. revert lo s.
  induction n as [|n IH]; intros lo s Hs Hrun; simpl in Hrun.
  - by injection Hrun as <-.
  - apply bind_Ok_inv in Hrun as (s1 & Hstep & Hrun). eauto.
Qed.

Lemma run_blocks_keeps {St} (I : St → Prop) (f : blocked_range → St → result St)
  (bs : list blocked_range) (s s' : St) :
  (∀ b t t', I t → f b t = Ok t' → I t') →
  I s → run_blocks f bs s = Ok s' → I s'.
Proof.
  intros Hbody. revert s.
  induction bs as [|b bs IH]; intros s Hs Hrun; simpl in Hrun.
  - by injection Hrun as <-.
  - apply bind_Ok_inv in Hrun as (s1 & Hstep & Hrun). eauto.
Qed.

Lemma vset_length (v v' : vec) (i : nat) (x : float_t) :
  vset v i x = Ok v' → length v' = length v.
Proof. unfold vset. case_decide; [|done]. intros [= <-]. apply length_insert. Qed.

Lemma vadd_at_length (v v' : vec) (i : nat) (x : float_t) :
  vadd_at v i x = Ok v' → length v' = length v.
Proof.
  unfold vadd_at. intros Hrun. apply bind_Ok_inv in Hrun as (y & _ & Hrun).
  by apply vset_length in Hrun.
Qed.

Lemma vmul_at_length (v v' : vec) (i : nat) (x : float_t) :
  vmul_at v i x = Ok v' → length v' = length v.
Proof.
  unfold vmul_at. intros Hrun. apply bind_Ok_inv in Hrun as (y & _ & Hrun).
  by apply vset_length in Hrun.
Qed.

Lemma forward_a_length (l : fully_connected_layer float_t) (in_ : vec) (i : nat)
  (a a' : vec) :
  forward_a l in_ i a = Ok a' → length a' = length a.
Proof.
  unfold forward_a. intros Hrun.
  apply bind_Ok_inv in Hrun as (a1 & H1 & Hrun).
  apply bind_Ok_inv in Hrun as (a2 & H2 & Hrun).
  apply vset_length in H1.
  apply (for_loop_keeps (λ v, length v = length a)) in H2; [| |done].
  - destruct (has_bias_ l).
    + apply bind_Ok_inv in Hrun as (bi & _ & Hrun).
      apply vadd_at_length in Hrun. congruence.
    + by injection Hrun as <-.
  - intros c t t' Ht Hb. apply bind_Ok_inv in Hb as (w & _ & Hb).
    apply bind_Ok_inv in Hb as (x & _ & Hb). apply vadd_at_length in Hb.
    congruence.
Qed.

Lemma layer_shape_with_worker_storage (l : fully_connected_layer float_t)
  (index : nat) (ws ws' : worker_storage float_t) :
  worker_storage_ l !! index = Some ws →
  worker_shape ws' = worker_shape ws →
  layer_shape (with_worker_storage l index ws') = layer_shape l.
Proof.
  intros Hws Hshape. unfold layer_shape. simpl. f_equal.
  rewrite list_fmap_insert, Hshape. apply list_insert_id.
  by rewrite list_lookup_fmap, Hws.
Qed.

Lemma forward_propagation_local_shape (l l' : fully_connected_layer float_t)
  (in_ out : vec) (index : nat) :
  forward_propagation_local l in_ index = Ok (out, l') →
  layer_shape l' = layer_shape l.
Proof.
  unfold forward_propagation_local, get_worker_storage. intros Hrun.
  destruct (worker_storage_ l !! index) as [ws|] eqn:Hws; [|done].
  simpl in Hrun.
  apply bind_Ok_inv in Hrun as (a & Ha & Hrun).
  apply bind_Ok_inv in Hrun as (out' & Hout & Hrun).
  injection Hrun as <- <-. rewrite for_i_for_loop in Ha, Hout.
  apply (for_loop_keeps (λ v, length v = length (a_ ws))) in Ha; [| |done].
  2:{ intros i t t' Ht Hb. apply forward_a_length in Hb. congruence. }
  apply (for_loop_keeps (λ v, length v = length (output_ ws))) in Hout; [| |done].
  2:{ intros i t t' Ht Hb. apply vset_length in Hb. congruence. }
  apply (layer_shape_with_worker_storage l index ws); [done|].
  unfold worker_shape. simpl. by rewrite Ha, Hout.
Qed.

Lemma forward_propagation_shape (next_ : list (node float_t)) :
  ∀ (this : node float_t) (in_ res : vec) (index : nat)
    (chain : list (node float_t)),
    forward_propagation this next_ in_ index = Ok (res, chain) →
    node_shape <$> chain = node_shape <$> (this :: next_).
Proof.
  induction next_ as [|nx tl IH]; intros this in_ res index chain Hrun;
    destruct this as [l|l]; simpl in Hrun.
  - case_decide; [|done]. injection Hrun as <- <-.
    rewrite !fmap_cons. cbn [node_shape input_output_]. by rewrite length_insert.
  - apply bind_Ok_inv in Hrun as ([out l'] & Hlocal & Hrun).
    injection Hrun as <- <-. apply forward_propagation_local_shape in Hlocal.
    rewrite !fmap_cons. cbn [node_shape]. by rewrite Hlocal.
  - case_decide; [|done].
    apply bind_Ok_inv in Hrun as ([res' rest] & Hnext & Hrun).
    injection Hrun as <- <-.
    rewrite (fmap_cons _ _ rest), (fmap_cons _ _ (nx :: tl)).
    rewrite (IH _ _ _ _ _ Hnext). cbn [node_shape input_output_].
    by rewrite length_insert.
  - apply bind_Ok_inv in Hrun as ([out l'] & Hlocal & Hrun).
    apply bind_Ok_inv in Hrun as ([res' rest] & Hnext & Hrun).
    injection Hrun as <- <-. apply forward_propagation_local_shape in Hlocal.
    rewrite (fmap_cons _ _ rest), (fmap_cons _ _ (nx :: tl)).
    rewrite (IH _ _ _ _ _ Hnext). cbn [node_shape]. by rewrite Hlocal.
Qed.

(** *** The backward passes *)

Lemma muladd_length (src : vec) (os : nat) (c : float_t) (size : nat)
  (dst dst' : vec) (od : nat) :
  muladd src os c size dst od = Ok dst' → length dst' = length dst.
Proof.
  unfold muladd. intros Hrun.
  apply (for_loop_keeps (λ v, length v = length dst)) in Hrun; [done| |done].
  intros i t t' Ht Hb. apply bind_Ok_inv in Hb as (x & _ & Hb).
  apply vadd_at_length in Hb. congruence.
Qed.

Lemma back_delta_length (l : fully_connected_layer float_t) (prev_out : vec)
  (prev_h : activation.function float_t) (curr_delta : vec) (c : nat)
  (prev_delta prev_delta' : vec) :
  back_delta l prev_out prev_h curr_delta c prev_delta = Ok prev_delta' →
  length prev_delta' = length prev_delta.
Proof.
  unfold back_delta. intros Hrun.
  apply bind_Ok_inv in Hrun as (d & _ & Hrun).
  apply bind_Ok_inv in Hrun as (pd & Hset & Hrun).
  apply bind_Ok_inv in Hrun as (po & _ & Hrun).
  apply vset_length in Hset. apply vmul_at_length in Hrun. congruence.
Qed.

Lemma back_gradients_length (l : fully_connected_layer float_t)
  (prev_out curr_delta : vec) (r : blocked_range) (g g' : vec * vec) :
  back_gradients l prev_out curr_delta r g = Ok g' →
  length g'.1 = length g.1 ∧ length g'.2 = length g.2.
Proof.
  unfold back_gradients. intros Hrun.
  apply bind_Ok_inv in Hrun as (dW & HdW & Hrun).
  apply bind_Ok_inv in Hrun as (db & Hdb & Hrun).
  injection Hrun as <-. simpl. split.
  - apply (for_loop_keeps (λ v, length v = length g.1)) in HdW; [done| |done].
    intros c t t' Ht Hb. apply bind_Ok_inv in Hb as (po & _ & Hb).
    apply muladd_length in Hb. congruence.
  - destruct (has_bias_ l); [|by injection Hdb as <-].
    apply (for_loop_keeps (λ v, length v = length g.2)) in Hdb; [done| |done].
    intros i t t' Ht Hb. apply bind_Ok_inv in Hb as (x & _ & Hb).
    apply vadd_at_length in Hb. congruence.
Qed.

Lemma back_propagation_local_shape (l : fully_connected_layer float_t)
  (ws ws' : worker_storage float_t) (prev_out : vec)
  (prev_h : activation.function float_t) (curr_delta : vec) :
  back_propagation_local l ws prev_out prev_h curr_delta = Ok ws' →
  worker_shape ws' = worker_shape ws.
Proof.
  unfold back_propagation_local. intros Hrun.
  apply bind_Ok_inv in Hrun as (pd & Hpd & Hrun).
  apply bind_Ok_inv in Hrun as (g & Hg & Hrun).
  injection Hrun as <-.
  apply (for_loop_keeps (λ v, length v = length (prev_delta_ ws))) in Hpd;
    [| |done].
  2:{ intros c t t' Ht Hb. apply back_delta_length in Hb. congruence. }
  unfold for_ in Hg.
  apply (run_blocks_keeps
           (λ g : vec * vec,
              length g.1 = length (dW_ ws) ∧ length g.2 = length (db_ ws)))
    in Hg; [| |done].
  2:{ intros b t t' [Ht1 Ht2] Hb. apply back_gradients_length in Hb as [? ?].
      split; congruence. }
  destruct Hg as [Hg1 Hg2]. unfold worker_shape. simpl.
  by rewrite Hpd, Hg1, Hg2.
Qed.

Lemma back_propagation_shape (prev_ : list (node float_t)) :
  ∀ (this : node float_t) (curr_delta res : vec) (index : nat)
    (chain : list (node float_t)),
    back_propagation this prev_ curr_delta index = Ok (res, chain) →
    node_shape <$> chain = node_shape <$> (this :: prev_).
Proof.
  induction prev_ as [|p0 up0 IH]; intros this d res index chain Hrun;
    (destruct this as [l|l]; [simpl in Hrun; by injection Hrun as <- <-|]);
    apply back_propagation_inv in Hrun
      as (ws & ws' & p & up & prev_out & rest & Hws & Hprev & _ & Hlocal
          & Hup & ->); [done|].
  injection Hprev as <- <-.
  apply back_propagation_local_shape in Hlocal.
  rewrite (fmap_cons _ _ rest), (fmap_cons _ _ (p0 :: up0)).
  rewrite (IH _ _ _ _ _ Hup). cbn [node_shape].
  by rewrite (layer_shape_with_worker_storage l index ws).
Qed.

Lemma back_propagation_2nd_local_shape (l l' : fully_connected_layer float_t)
  (prev_out : vec) (prev_h : activation.function float_t) (current_delta2 : vec) :
  back_propagation_2nd_local l prev_out prev_h current_delta2 = Ok l' →
  layer_shape l' = layer_shape l.
Proof.
  unfold back_propagation_2nd_local. intros Hrun.
  apply bind_Ok_inv in Hrun as (Wh & HWh & Hrun).
  apply bind_Ok_inv in Hrun as (bh & Hbh & Hrun).
  apply bind_Ok_inv in Hrun as (pd2 & Hpd2 & Hrun).
  injection Hrun as <-.
  apply (for_loop_keeps (λ v, length v = length (Whessian_ l))) in HWh;
    [| |done].
  2:{ intros c t t' Ht Hb.
      apply (for_loop_keeps (λ v, length v = length (Whessian_ l))) in Hb;
        [done| |done].
      intros r u u' Hu Hr. apply bind_Ok_inv in Hr as (d & _ & Hr).
      apply bind_Ok_inv in Hr as (po & _ & Hr). apply vadd_at_length in Hr.
      congruence. }
  assert (Hbh' : length bh = length (bhessian_ l)).
  { destruct (has_bias_ l); [|by injection Hbh as <-].
    apply (for_loop_keeps (λ v, length v = length (bhessian_ l))) in Hbh;
      [done| |done].
    intros r t t' Ht Hb. apply bind_Ok_inv in Hb as (d & _ & Hb).
    apply vadd_at_length in Hb. congruence. }
  apply (for_loop_keeps (λ v, length v = length (prev_delta2_ l))) in Hpd2;
    [| |done].
  2:{ intros c t t' Ht Hb.
      apply bind_Ok_inv in Hb as (t1 & Hset & Hb).
      apply bind_Ok_inv in Hb as (t2 & Hsum & Hb).
      apply bind_Ok_inv in Hb as (po & _ & Hb).
      apply vset_length in Hset. apply vmul_at_length in Hb.
      apply (for_loop_keeps (λ v, length v = length t1)) in Hsum; [| |done].
      - congruence.
      - intros r u u' Hu Hr. apply bind_Ok_inv in Hr as (d & _ & Hr).
        apply bind_Ok_inv in Hr as (w & _ & Hr). apply vadd_at_length in Hr.
        congruence. }
  unfold layer_shape. simpl. by rewrite HWh, Hbh', Hpd2.
Qed.

Lemma back_propagation_2nd_shape (prev_ : list (node float_t)) :
  ∀ (this : node float_t) (current_delta2 res : vec)
    (chain : list (node float_t)),
    back_propagation_2nd this prev_ current_delta2 = Ok (res, chain) →
    node_shape <$> chain = node_shape <$> (this :: prev_).
Proof.
  induction prev_ as [|p0 up0 IH]; intros this d res chain Hrun;
    (destruct this as [l|l]; [simpl in Hrun; by injection Hrun as <- <-|]);
    apply back_propagation_2nd_inv in Hrun
      as (l' & p & up & prev_out & rest & Hprev & _ & Hlocal & Hup & ->);
    [done|].
  injection Hprev as <- <-.
  apply back_propagation_2nd_local_shape in Hlocal.
  rewrite (fmap_cons _ _ rest), (fmap_cons _ _ (p0 :: up0)).
  rewrite (IH _ _ _ _ Hup). cbn [node_shape]. by rewrite Hlocal.
Qed.

(** *** Readiness depends on the shape alone *)

Lemma layer_invariant_shape (l l' : fully_connected_layer float_t) :
  layer_shape l' = layer_shape l → layer_invariant l → layer_invariant l'.
Proof.
  unfold layer_shape. intros [= Hin Hout Hbias HW Hb HWh Hbh Hpd2 _].
  intros [? ? ? ? ? ?]. split; rewrite ?Hin, ?Hout, ?Hbias; congruence.
Qed.

Lemma worker_invariant_shape (l l' : fully_connected_layer float_t)
  (ws ws' : worker_storage float_t) :
  layer_shape l' = layer_shape l → worker_shape ws' = worker_shape ws →
  worker_invariant l ws → worker_invariant l' ws'.
Proof.
  unfold layer_shape, worker_shape.
  intros [= Hin Hout Hbias _ _ _ _ _ _] [= Ha Ho Hpd HdW Hdb].
  intros [? ? ? ? ?]. split; rewrite ?Hin, ?Hout, ?Hbias; congruence.
Qed.

Lemma node_ready_shape (index : nat) (n n' : node float_t) :
  node_shape n' = node_shape n → node_ready index n → node_ready index n'.
Proof.
  destruct n as [l|l], n' as [l'|l']; try done; cbn [node_shape node_ready].
  - intros [= ->]. done.
  - intros Hnode [Hl (ws & Hws & Hw)].
    assert (Hshape : layer_shape l' = layer_shape l) by congruence.
    split; [by apply (layer_invariant_shape l)|].
    assert (Hws' : (worker_shape <$> worker_storage_ l') !! index
                   = Some (worker_shape ws)).
    { assert (Heq : worker_shape <$> worker_storage_ l'
                    = worker_shape <$> worker_storage_ l)
        by (unfold layer_shape in Hshape; congruence).
      by rewrite Heq, list_lookup_fmap, Hws. }
    rewrite list_lookup_fmap in Hws'.
    destruct (worker_storage_ l' !! index) as [ws'|]; [|done].
    simpl in Hws'. exists ws'. split; [done|].
    apply (worker_invariant_shape l l' ws ws'); [done | congruence | done].
Qed.

Lemma nodes_ready_shape (c : list (node float_t)) :
  ∀ c' : list (node float_t),
    node_shape <$> c' = node_shape <$> c →
    Forall2 (λ n n', ∀ index, node_ready index n → node_ready index n') c c'.
Proof.
  induction c as [|n c IH]; intros [|n' c'] Heq; try done.
  rewrite !fmap_cons in Heq. injection Heq as Hn Hc.
  constructor; [|by apply IH]. intros index. by apply node_ready_shape.
Qed.

Lemma forward_ready_shape (index : nat) (c : list (node float_t)) :
  ∀ (c' : list (node float_t)) (len : nat),
    node_shape <$> c' = node_shape <$> c →
    forward_ready index len c → forward_ready index len c'.
Proof.
  induction c as [|n c IH]; intros [|n' c'] len Heq; try done.
  rewrite !fmap_cons in Heq. injection Heq as Hn Hc.
  intros (Hready & Hacc & Hrest). split; [by apply (node_ready_shape index n)|].
  assert (Hsize : node_accepts n' len ∧ node_out_size n' len = node_out_size n len).
  { destruct n as [l|l], n' as [l'|l']; try done.
    cbn [node_shape] in Hn.
    assert (Hshape : layer_shape l' = layer_shape l) by congruence.
    unfold layer_shape in Hshape. injection Hshape as Hin Hout _ _ _ _ _ _ _.
    simpl in *. split; congruence. }
  destruct Hsize as [Hacc' ->]. split; [done|]. by apply IH.
Qed.

End Lengths.

(** ** Forward propagation along a chain *)

Section ForwardChain.
Context {float_t : Type} {FT : Float_t float_t} {TG : Target} {DP : Dispatch}.

Local Abbreviation vec := (list float_t).

Lemma forward_propagation_nonempty (this : node float_t)
  (next_ : list (node float_t)) (in_ res : vec) (index : nat)
  (chain : list (node float_t)) :
  forward_propagation this next_ in_ index = Ok (res, chain) →
  ∃ this' next', chain = this' :: next'.
Proof.
  intros Hrun. apply forward_propagation_shape in Hrun.
  destruct chain as [|this' next']; [done | eauto].
Qed.

Lemma length_outputs (l : fully_connected_layer float_t) (x : vec) :
  length (outputs l x) = out_size_ l.
Proof. apply length_tabulate. Qed.

Lemma forward_chain_ok (index : nat) (next_ : list (node float_t)) :
  ∀ (this : node float_t) (x : vec),
    forward_ready index (length x) (this :: next_) →
    forward_propagation this next_ x index
    = Ok (chain_outputs (this :: next_) x, forwarded index (this :: next_) x).
Proof.
  induction next_ as [|nx tl IH]; intros this x (Hthis & Hacc & Hrest);
    destruct this as [l|l].
  - simpl in Hthis. simpl. by case_decide.
  - destruct Hthis as (Hl & ws & Hws & Hw). simpl in Hacc.
    rewrite (forward_propagation_fully_connected l [] x index ws)
      by (done || lia).
    cbn [chain_outputs forwarded node_outputs forwarded_node].
    unfold forwarded_layer. by rewrite Hws.
  - simpl in Hthis. cbn [forward_propagation]. case_decide; [|done].
    cbn [node_out_size] in Hrest. by rewrite (IH nx x Hrest).
  - destruct Hthis as (Hl & ws & Hws & Hw). simpl in Hacc.
    rewrite (forward_propagation_fully_connected l (nx :: tl) x index ws)
      by (done || lia).
    cbn [node_out_size] in Hrest. rewrite <- (length_outputs l x) in Hrest.
    rewrite (IH nx (outputs l x) Hrest).
    cbn [chain_outputs forwarded node_outputs forwarded_node mbind result_bind].
    unfold forwarded_layer. by rewrite Hws.
Qed.

Lemma length_chain_outputs (index : nat) (chain : list (node float_t)) :
  ∀ x : vec,
    forward_ready index (length x) chain →
    length (chain_outputs chain x) = chain_out_size chain (length x).
Proof.
  induction chain as [|n rest IH]; intros x Hready; [done|].
  destruct Hready as (_ & _ & Hrest). cbn [chain_outputs chain_out_size].
  destruct n as [l|l]; cbn [node_outputs node_out_size] in *.
  - by apply IH.
  - rewrite <- (length_outputs l x) in Hrest. rewrite (IH _ Hrest).
    by rewrite length_outputs.
Qed.

Lemma forwarded_ready (index : nat) (chain : list (node float_t)) (x : vec) :
  forward_ready index (length x) chain →
  forward_ready index (length x) (forwarded index chain x).
Proof.
  intros Hready. destruct chain as [|this next_]; [done|].
  apply (forward_ready_shape index (this :: next_)); [|done].
  apply (forward_propagation_shape next_ this x (chain_outputs (this :: next_) x)
           index).
  by apply forward_chain_ok.
Qed.

(** What a node has cached after the pass is what it handed downstream. *)
Lemma output_forwarded_node (index : nat) (n : node float_t) (x : vec) :
  node_ready index n →
  output (forwarded_node index n x) index = Ok (node_outputs n x).
Proof.
  destruct n as [l|l]; simpl.
  - intros Hlt. by rewrite list_lookup_insert_eq.
  - intros (_ & ws & Hws & _). unfold forwarded_layer, get_worker_storage.
    rewrite Hws. simpl. rewrite list_lookup_insert_eq; [done|].
    by eapply lookup_lt_Some.
Qed.

(** *** A pass overwrites what the pass before it left *)

Lemma node_outputs_forwarded_node (index : nat) (n : node float_t) (x y : vec) :
  node_outputs (forwarded_node index n x) y = node_outputs n y.
Proof.
  destruct n as [l|l]; [done|]. simpl. unfold forwarded_layer.
  by destruct (worker_storage_ l !! index).
Qed.

Lemma forwarded_node_twice (index : nat) (n : node float_t) (x y : vec) :
  forwarded_node index (forwarded_node index n x) y = forwarded_node index n y.
Proof.
  destruct n as [l|l]; simpl.
  - by rewrite list_insert_insert_eq.
  - f_equal. unfold forwarded_layer at 2.
    destruct (worker_storage_ l !! index) as [ws|] eqn:Hws.
    + unfold forwarded_layer. simpl.
      rewrite list_lookup_insert_eq by (by eapply lookup_lt_Some).
      rewrite Hws. unfold with_worker_storage. simpl.
      by rewrite list_insert_insert_eq.
    + unfold forwarded_layer. by rewrite Hws.
Qed.

Lemma chain_outputs_forwarded (index : nat) (chain : list (node float_t)) :
  ∀ x y : vec, chain_outputs (forwarded index chain x) y = chain_outputs chain y.
Proof.
  induction chain as [|n rest IH]; intros x y; [done|].
  cbn [forwarded chain_outputs]. by rewrite node_outputs_forwarded_node, IH.
Qed.

Lemma forwarded_twice (index : nat) (chain : list (node float_t)) :
  ∀ x y : vec,
    forwarded index (forwarded index chain x) y = forwarded index chain y.
Proof.
  induction chain as [|n rest IH]; intros x y; [done|].
  cbn [forwarded].
  by rewrite node_outputs_forwarded_node, forwarded_node_twice, IH.
Qed.

(** *** Workers do not see each other *)

Lemma forward_propagation_local_with_worker_storage
  (l : fully_connected_layer float_t) (i j : nat) (w : worker_storage float_t)
  (y : vec) :
  i ≠ j →
  forward_propagation_local (with_worker_storage l i w) y j
  = (λ r, (r.1, with_worker_storage r.2 i w))
    <$> forward_propagation_local l y j.
Proof.
  intros Hij. unfold forward_propagation_local, get_worker_storage. simpl.
  rewrite list_lookup_insert_ne by done.
  destruct (worker_storage_ l !! j) as [ws|]; [|done]. simpl.
  assert (Hfa : forward_a (with_worker_storage l i w) y = forward_a l y)
    by reflexivity.
  rewrite Hfa.
  destruct (for_i _ _ (forward_a l y) (a_ ws)) as [a|e]; [|done]. simpl.
  assert (Hfo : forward_out (with_worker_storage l i w) a = forward_out l a)
    by reflexivity.
  rewrite Hfo.
  destruct (for_i _ _ (forward_out l a) (output_ ws)) as [out|e]; [|done].
  simpl. do 2 f_equal. unfold with_worker_storage. simpl. f_equal.
  by apply list_insert_insert_ne.
Qed.

Lemma forward_propagation_local_commute (l l1 l12 : fully_connected_layer float_t)
  (x y o1 o2 : vec) (i j : nat) :
  i ≠ j →
  forward_propagation_local l x i = Ok (o1, l1) →
  forward_propagation_local l1 y j = Ok (o2, l12) →
  ∃ l2, forward_propagation_local l y j = Ok (o2, l2) ∧
        forward_propagation_local l2 x i = Ok (o1, l12).
Proof.
  intros Hij H1 H2.
  pose proof H1 as H1'.
  apply forward_propagation_local_inv in H1' as (ws1 & a1 & Hws1 & ->).
  rewrite forward_propagation_local_with_worker_storage in H2 by done.
  destruct (forward_propagation_local l y j) as [[o2' l2]|e] eqn:Hy; [|done].
  simpl in H2. injection H2 as <- <-. exists l2. split; [done|].
  pose proof Hy as Hy'.
  apply forward_propagation_local_inv in Hy' as (ws2 & a2 & Hws2 & ->).
  rewrite forward_propagation_local_with_worker_storage by done.
  rewrite H1. simpl. do 2 f_equal. unfold with_worker_storage. simpl. f_equal.
  by apply list_insert_insert_ne.
Qed.

End ForwardChain.

(** *** The order of the iterations is not observed *)

Section Schedules.
Context {float_t : Type} {FT : Float_t float_t} {TG : Target} {DP : Dispatch}.

Local Abbreviation vec := (list float_t).

(** A body whose iteration [i] writes entry [i] alone, with a value that does
    not depend on the entries it finds: run over [order], it leaves [g j] at
    every index [j] of [order] and the other entries as they were. *)
Lemma for_each_writes (f : nat → vec → result vec) (g : nat → float_t) (n : nat)
  (order : list nat) :
  (∀ i w, i < n → length w = n → f i w = Ok (<[i := g i]> w)) →
  Forall (λ i, i < n) order →
  ∀ v : vec,
    length v = n →
    ∃ v', for_each f order v = Ok v' ∧ length v' = n ∧
      ∀ j, v' !! j = if decide (j ∈ order) then Some (g j) else v !! j.
Proof.
  intros Hf. induction order as [|i rest IH]; intros Hlt v Hv.
  - exists v. split; [done|]. split; [done|]. intros j.
    by rewrite decide_False by apply not_elem_of_nil.
  - apply Forall_cons_1 in Hlt as [Hi Hrest]. simpl.
    rewrite Hf by done. simpl.
    destruct (IH Hrest (<[i := g i]> v)) as (v' & -> & Hv' & Hlook).
    { by rewrite length_insert. }
    exists v'. split; [done|]. split; [done|]. intros j. rewrite Hlook.
    destruct (decide (j ∈ rest)) as [Hin|Hnin].
    + by rewrite decide_True by (rewrite elem_of_cons; tauto).
    + destruct (decide (j = i)) as [->|Hne].
      * rewrite decide_True by (rewrite elem_of_cons; tauto).
        apply list_lookup_insert_eq. lia.
      * rewrite decide_False by (rewrite elem_of_cons; tauto).
        by apply list_lookup_insert_ne.
Qed.

(** Over a permutation of the index range it leaves the same vector as the
    loop in increasing order. *)
Lemma for_each_tabulate (f : nat → vec → result vec) (g : nat → float_t) (n : nat)
  (order : list nat) (v : vec) :
  (∀ i w, i < n → length w = n → f i w = Ok (<[i := g i]> w)) →
  order ≡ₚ seq 0 n →
  length v = n →
  for_each f order v = Ok (tabulate g n).
Proof.
  intros Hf Hperm Hv.
  assert (Hin : ∀ j, j ∈ order ↔ j < n).
  { intros j. rewrite Hperm, elem_of_seq. lia. }
  destruct (for_each_writes f g n order Hf) with (v := v)
    as (v' & -> & Hv' & Hlook); [|done|].
  { apply Forall_forall. intros j. apply Hin. }
  f_equal. apply list_eq. intros j. rewrite Hlook.
  destruct (decide (j ∈ order)) as [Hj|Hj].
  - by rewrite lookup_tabulate by (by apply Hin).
  - assert (n ≤ j) by (rewrite Hin in Hj; lia).
    rewrite !lookup_ge_None_2; [done | rewrite length_tabulate; lia | lia].
Qed.

End Schedules.

(** ** The backward passes along a chain *)

Section BackwardChain.
Context {float_t : Type} {FT : Float_t float_t} {TG : Target} {DP : Dispatch}.

Local Abbreviation vec := (list float_t).

(** *** What they leave alone *)

Lemma forget_gradients_with_worker_storage (j : nat)
  (l : fully_connected_layer float_t) (ws ws' : worker_storage float_t) :
  worker_storage_ l !! j = Some ws →
  a_ ws' = a_ ws → output_ ws' = output_ ws →
  forget_gradients j (fully_connected (with_worker_storage l j ws'))
  = forget_gradients j (fully_connected l).
Proof.
  intros Hws Ha Ho. simpl. do 2 f_equal. apply list_eq. intros i.
  destruct (decide (i = j)) as [->|Hne].
  - rewrite !list_lookup_alter_eq.
    rewrite list_lookup_insert_eq by (by eapply lookup_lt_Some).
    rewrite Hws. simpl. unfold with_gradients. by rewrite Ha, Ho.
  - rewrite !list_lookup_alter_ne by done. by rewrite list_lookup_insert_ne.
Qed.

Lemma back_propagation_forget_gradients (prev_ : list (node float_t)) :
  ∀ (this : node float_t) (curr_delta res : vec) (index : nat)
    (chain : list (node float_t)),
    back_propagation this prev_ curr_delta index = Ok (res, chain) →
    forget_gradients index <$> chain = forget_gradients index <$> (this :: prev_).
Proof.
  induction prev_ as [|p0 up0 IH]; intros this d res index chain Hrun;
    (destruct this as [l|l]; [simpl in Hrun; by injection Hrun as <- <-|]);
    apply back_propagation_inv in Hrun
      as (ws & ws' & p & up & prev_out & rest & Hws & Hprev & _ & Hlocal
          & Hup & ->); [done|].
  injection Hprev as <- <-.
  apply back_propagation_local_inv in Hlocal as (Ha & Ho & _).
  rewrite (fmap_cons _ _ rest), (fmap_cons _ _ (p0 :: up0)).
  rewrite (IH _ _ _ _ _ Hup).
  by rewrite (forget_gradients_with_worker_storage index l ws).
Qed.

Lemma back_propagation_2nd_forget_hessian (prev_ : list (node float_t)) :
  ∀ (this : node float_t) (current_delta2 res : vec)
    (chain : list (node float_t)),
    back_propagation_2nd this prev_ current_delta2 = Ok (res, chain) →
    forget_hessian <$> chain = forget_hessian <$> (this :: prev_).
Proof.
  induction prev_ as [|p0 up0 IH]; intros this d res chain Hrun;
    (destruct this as [l|l]; [simpl in Hrun; by injection Hrun as <- <-|]);
    apply back_propagation_2nd_inv in Hrun
      as (l' & p & up & prev_out & rest & Hprev & _ & Hlocal & Hup & ->);
    [done|].
  injection Hprev as <- <-.
  apply back_propagation_2nd_local_inv in Hlocal as (Wh & bh & pd2 & -> & _).
  rewrite (fmap_cons _ _ rest), (fmap_cons _ _ (p0 :: up0)).
  by rewrite (IH _ _ _ _ Hup).
Qed.

Lemma output_forget_gradients (j i : nat) (n : node float_t) :
  output (forget_gradients j n) i = output n i.
Proof.
  destruct n as [l|l]; [done|]. simpl. unfold get_worker_storage. simpl.
  rewrite list_lookup_alter.
  case_decide; [|done]. subst. by destruct (worker_storage_ l !! i).
Qed.

Lemma activation_function_forget_gradients (j : nat) (n : node float_t) :
  activation_function (forget_gradients j n) = activation_function n.
Proof. by destruct n. Qed.

Lemma output_forget_hessian (i : nat) (n : node float_t) :
  output (forget_hessian n) i = output n i.
Proof. by destruct n. Qed.

Lemma activation_function_forget_hessian (n : node float_t) :
  activation_function (forget_hessian n) = activation_function n.
Proof. by destruct n. Qed.

(** *** They return *)

Lemma back_propagation_returns (prev_ : list (node float_t)) :
  ∀ (this : node float_t) (curr_delta : vec) (index n : nat),
    backward_ready index n (length curr_delta) this prev_ →
    ∃ res chain,
      back_propagation this prev_ curr_delta index = Ok (res, chain) ∧
      length res = n.
Proof.
  induction prev_ as [|p up IH]; intros this d index n Hready;
    destruct this as [l|l]; simpl in Hready.
  - by exists d, [input l].
  - by destruct Hready as (_ & _ & []).
  - by exists d, (input l :: p :: up).
  - destruct Hready as (Hd & (Hl & ws & Hws & Hw) & (po & Hpo & Hlen) & Hup).
    rewrite (back_propagation_fully_connected l p up d index ws po)
      by (done || lia).
    destruct (IH p
      (tabulate (upstream_delta l po (activation_function p) d) (in_size_ l))
      index n) as (res & chain & -> & Hres).
    { by rewrite length_tabulate. }
    simpl. eauto.
Qed.

Lemma back_propagation_2nd_returns (prev_ : list (node float_t)) :
  ∀ (this : node float_t) (current_delta2 : vec) (n : nat),
    backward_2nd_ready n (length current_delta2) this prev_ →
    ∃ res chain,
      back_propagation_2nd this prev_ current_delta2 = Ok (res, chain) ∧
      length res = n.
Proof.
  induction prev_ as [|p up IH]; intros this d n Hready;
    destruct this as [l|l]; simpl in Hready.
  - by exists d, [input l].
  - by destruct Hready as (_ & _ & []).
  - by exists d, (input l :: p :: up).
  - destruct Hready as (Hd & Hl & (po & Hpo & Hlen) & Hup).
    rewrite (back_propagation_2nd_fully_connected l p up d po)
      by (done || lia).
    destruct (IH p
      (tabulate (upstream_delta2 l po (activation_function p) d) (in_size_ l))
      n) as (res & chain & -> & Hres).
    { by rewrite length_tabulate. }
    simpl. eauto.
Qed.

Lemma backward_ready_2nd (prev_ : list (node float_t)) :
  ∀ (this : node float_t) (n dlen : nat),
    backward_ready 0 n dlen this prev_ → backward_2nd_ready n dlen this prev_.
Proof.
  induction prev_ as [|p up IH]; intros this n dlen Hready;
    destruct this as [l|l]; simpl in *; try done.
  - by destruct Hready as (_ & _ & []).
  - destruct Hready as (Hd & (Hl & _) & Hpo & Hup). auto.
Qed.

(** *** Chains with no input node *)

Lemma back_propagation_unterminated (prev_ : list (node float_t)) :
  ∀ (l : fully_connected_layer float_t) (curr_delta : vec) (index : nat),
    unterminated index (length curr_delta) (fully_connected l) prev_ →
    back_propagation (fully_connected l) prev_ curr_delta index
    = Fault NullDereference.
Proof.
  induction prev_ as [|p up IH]; intros l d index Hchain; simpl in Hchain.
  - destruct Hchain as (_ & (_ & ws & Hws & _) & _).
    simpl. unfold get_worker_storage. by rewrite Hws.
  - destruct Hchain as (Hd & (Hl & ws & Hws & Hw) & (po & Hpo & Hlen) & Hup).
    rewrite (back_propagation_fully_connected l p up d index ws po)
      by (done || lia).
    destruct p as [li|l0]; [by destruct up|].
    rewrite (IH l0 _ index); [done|]. by rewrite length_tabulate.
Qed.

Lemma back_propagation_2nd_unterminated (prev_ : list (node float_t)) :
  ∀ (l : fully_connected_layer float_t) (current_delta2 : vec),
    unterminated 0 (length current_delta2) (fully_connected l) prev_ →
    back_propagation_2nd (fully_connected l) prev_ current_delta2
    = Fault NullDereference.
Proof.
  induction prev_ as [|p up IH]; intros l d Hchain; simpl in Hchain; [done|].
  destruct Hchain as (Hd & (Hl & _) & (po & Hpo & Hlen) & Hup).
  rewrite (back_propagation_2nd_fully_connected l p up d po) by (done || lia).
  destruct p as [li|l0]; [by destruct up|].
  rewrite (IH l0 _); [done|]. by rewrite length_tabulate.
Qed.

(** *** Readiness is kept *)

(** A node as a backward pass leaves it: the same shape and the same cached
    outputs. *)
Lemma backward_ready_kept (index n : nat) (prev_ : list (node float_t)) :
  ∀ (this this' : node float_t) (prev_' : list (node float_t)) (dlen : nat),
    Forall2 (λ a b, node_shape b = node_shape a ∧ ∀ i, output b i = output a i)
      (this :: prev_) (this' :: prev_') →
    backward_ready index n dlen this prev_ →
    backward_ready index n dlen this' prev_'.
Proof.
  induction prev_ as [|p up IH]; intros this this' prev_' dlen Hkept Hready;
    apply Forall2_cons_1 in Hkept as [[Hshape Hout] Hrest];
    (destruct prev_' as [|p' up'];
     [try (by apply Forall2_cons_nil_inv in Hrest)
     |try (by apply Forall2_nil_cons_inv in Hrest)]);
    destruct this as [l|l], this' as [l'|l']; try done;
    cbn [backward_ready] in *.
  - by destruct Hready as (_ & _ & []).
  - destruct Hready as (Hd & Hnode & (po & Hpo & Hlen) & Hup).
    pose proof Hrest as [[_ Hpout] _]%Forall2_cons_1.
    assert (Hsizes : in_size_ l' = in_size_ l ∧ out_size_ l' = out_size_ l).
    { cbn [node_shape] in Hshape.
      assert (Hl : layer_shape l' = layer_shape l) by congruence.
      unfold layer_shape in Hl. injection Hl as Hin Hout' _ _ _ _ _ _ _.
      done. }
    destruct Hsizes as [Hin Hout']. rewrite Hin, Hout'.
    split; [done|]. split; [by apply (node_ready_shape index (fully_connected l))|].
    split; [exists po; by rewrite Hpout|]. by apply (IH p p' up').
Qed.

Lemma backward_2nd_ready_kept (n : nat) (prev_ : list (node float_t)) :
  ∀ (this this' : node float_t) (prev_' : list (node float_t)) (dlen : nat),
    Forall2 (λ a b, node_shape b = node_shape a ∧ ∀ i, output b i = output a i)
      (this :: prev_) (this' :: prev_') →
    backward_2nd_ready n dlen this prev_ →
    backward_2nd_ready n dlen this' prev_'.
Proof.
  induction prev_ as [|p up IH]; intros this this' prev_' dlen Hkept Hready;
    apply Forall2_cons_1 in Hkept as [[Hshape Hout] Hrest];
    (destruct prev_' as [|p' up'];
     [try (by apply Forall2_cons_nil_inv in Hrest)
     |try (by apply Forall2_nil_cons_inv in Hrest)]);
    destruct this as [l|l], this' as [l'|l']; try done;
    cbn [backward_2nd_ready] in *.
  - by destruct Hready as (_ & _ & []).
  - destruct Hready as (Hd & Hl & (po & Hpo & Hlen) & Hup).
    pose proof Hrest as [[_ Hpout] _]%Forall2_cons_1.
    cbn [node_shape] in Hshape.
    assert (Hshape' : layer_shape l' = layer_shape l) by congruence.
    assert (Hsizes : in_size_ l' = in_size_ l ∧ out_size_ l' = out_size_ l).
    { unfold layer_shape in Hshape'.
      injection Hshape' as Hin Hout' _ _ _ _ _ _ _. done. }
    destruct Hsizes as [Hin Hout']. rewrite Hin, Hout'.
    split; [done|]. split; [by apply (layer_invariant_shape l)|].
    split; [exists po; by rewrite Hpout|]. by apply (IH p p' up').
Qed.

Lemma kept_forget_gradients (index : nat) (c : list (node float_t)) :
  ∀ c' : list (node float_t),
    forget_gradients index <$> c' = forget_gradients index <$> c →
    node_shape <$> c' = node_shape <$> c →
    Forall2 (λ a b, node_shape b = node_shape a ∧ ∀ i, output b i = output a i)
      c c'.
Proof.
  induction c as [|a c IH]; intros [|b c'] Hf Hs; try done.
  rewrite !fmap_cons in Hf. rewrite !fmap_cons in Hs.
  injection Hf as Hb Hc. injection Hs as Hsb Hsc.
  constructor; [|by apply IH]. split; [done|]. intros i.
  by rewrite <- (output_forget_gradients index i b), Hb, output_forget_gradients.
Qed.

Lemma kept_forget_hessian (c : list (node float_t)) :
  ∀ c' : list (node float_t),
    forget_hessian <$> c' = forget_hessian <$> c →
    node_shape <$> c' = node_shape <$> c →
    Forall2 (λ a b, node_shape b = node_shape a ∧ ∀ i, output b i = output a i)
      c c'.
Proof.
  induction c as [|a c IH]; intros [|b c'] Hf Hs; try done.
  rewrite !fmap_cons in Hf. rewrite !fmap_cons in Hs.
  injection Hf as Hb Hc. injection Hs as Hsb Hsc.
  constructor; [|by apply IH]. split; [done|]. intros i.
  by rewrite <- (output_forget_hessian i b), Hb, output_forget_hessian.
Qed.

(** *** After a forward pass *)

Lemma in_size_forwarded_layer (l : fully_connected_layer float_t) (index : nat)
  (x : vec) :
  in_size_ (forwarded_layer l index x) = in_size_ l ∧
  out_size_ (forwarded_layer l index x) = out_size_ l.
Proof. unfold forwarded_layer. by destruct (worker_storage_ l !! index). Qed.

Lemma length_node_outputs (n : node float_t) (x : vec) :
  length (node_outputs n x) = node_out_size n (length x).
Proof. destruct n as [l|l]; [done|]. apply length_outputs. Qed.

(** The chain that a forward pass leaves is ready for the backward pass from
    its last node, given that the node it was entered at is. *)
Lemma forwarded_backward_ready (index n : nat)
  (ls : list (fully_connected_layer float_t)) :
  ∀ (this : node float_t) (x : vec) (ups : list (node float_t)),
    forward_ready index (length x) (this :: (fully_connected <$> ls)) →
    backward_ready index n (node_out_size this (length x))
      (forwarded_node index this x) ups →
    ∃ last prevs,
      reverse (forwarded index (this :: (fully_connected <$> ls)) x) ++ ups
      = last :: prevs ∧
      backward_ready index n
        (chain_out_size (this :: (fully_connected <$> ls)) (length x))
        last prevs.
Proof.
  induction ls as [|l' tl IH]; intros this x ups Hready Hthis.
  - exists (forwarded_node index this x), ups. split; [done|]. done.
  - rewrite fmap_cons in *. destruct Hready as (Hn & Hacc & Hrest).
    rewrite <- (length_node_outputs this x) in Hrest.
    pose proof Hrest as (Hl' & Hacc' & _). simpl in Hacc'.
    destruct (IH (fully_connected l') (node_outputs this x)
                (forwarded_node index this x :: ups) Hrest)
      as (last & prevs & Hrev & Hback).
    + pose proof (forwarded_ready index (fully_connected l' :: (fully_connected <$> tl))
                    (node_outputs this x) Hrest) as (Hl'' & _).
      cbn [forwarded] in Hl''.
      destruct (in_size_forwarded_layer l' index (node_outputs this x))
        as [Hin Hout].
      cbn [node_out_size forwarded_node backward_ready].
      split; [done|]. split; [exact Hl''|]. split.
      * exists (node_outputs this x). split; [by apply output_forwarded_node|].
        by rewrite Hin.
      * rewrite Hin, <- Hacc', length_node_outputs. done.
    + exists last, prevs. split; [|by rewrite length_node_outputs in Hback].
      rewrite <- Hrev. cbn [forwarded]. rewrite (reverse_cons _ (forwarded_node _ _ _)).
      by rewrite <- app_assoc.
Qed.

End BackwardChain.

(** ** Passes repeated, and passes after a forward pass *)

Section Repeated.
Context {float_t : Type} {FT : Float_t float_t} {TG : Target} {DP : Dispatch}.

Local Abbreviation vec := (list float_t).

(** What a dense layer reads of its upstream node is as the upstream node's
    backward pass found it. *)
Lemma back_propagation_upstream_kept (p : node float_t)
  (up : list (node float_t)) (d res : vec) (index : nat)
  (rest : list (node float_t)) :
  back_propagation p up d index = Ok (res, rest) →
  ∃ p1 up1, rest = p1 :: up1 ∧
    (∀ i, output p1 i = output p i) ∧
    activation_function p1 = activation_function p.
Proof.
  intros Hrun. apply back_propagation_forget_gradients in Hrun.
  destruct rest as [|p1 up1]; [done|]. rewrite !fmap_cons in Hrun.
  injection Hrun as Hp _. exists p1, up1. split; [done|]. split.
  - intros i. by rewrite <- (output_forget_gradients index i p1), Hp,
      output_forget_gradients.
  - by rewrite <- (activation_function_forget_gradients index p1), Hp,
      activation_function_forget_gradients.
Qed.

Lemma back_propagation_2nd_upstream_kept (p : node float_t)
  (up : list (node float_t)) (d res : vec) (rest : list (node float_t)) :
  back_propagation_2nd p up d = Ok (res, rest) →
  ∃ p1 up1, rest = p1 :: up1 ∧
    (∀ i, output p1 i = output p i) ∧
    activation_function p1 = activation_function p.
Proof.
  intros Hrun. apply back_propagation_2nd_forget_hessian in Hrun.
  destruct rest as [|p1 up1]; [done|]. rewrite !fmap_cons in Hrun.
  injection Hrun as Hp _. exists p1, up1. split; [done|]. split.
  - intros i. by rewrite <- (output_forget_hessian i p1), Hp,
      output_forget_hessian.
  - by rewrite <- (activation_function_forget_hessian p1), Hp,
      activation_function_forget_hessian.
Qed.

Lemma with_worker_storage_twice (l : fully_connected_layer float_t)
  (index : nat) (w w' : worker_storage float_t) :
  with_worker_storage (with_worker_storage l index w) index w'
  = with_worker_storage l index w'.
Proof. unfold with_worker_storage. simpl. by rewrite list_insert_insert_eq. Qed.

Lemma layer_invariant_with_worker_storage (l : fully_connected_layer float_t)
  (index : nat) (ws : worker_storage float_t) :
  layer_invariant l → layer_invariant (with_worker_storage l index ws).
Proof. by intros [? ? ? ? ? ?]. Qed.

Lemma worker_invariant_with_worker_storage (l : fully_connected_layer float_t)
  (index : nat) (w ws : worker_storage float_t) :
  worker_invariant l ws → worker_invariant (with_worker_storage l index w) ws.
Proof. by intros [? ? ? ? ?]. Qed.

Lemma length_accumulated_dW (l : fully_connected_layer float_t)
  (prev_out d dW : vec) :
  length (accumulated_dW l prev_out d dW) = length dW.
Proof. apply length_imap. Qed.

Lemma length_accumulated_db (l : fully_connected_layer float_t) (d db : vec) :
  length (accumulated_db l d db) = length db.
Proof. unfold accumulated_db. destruct (has_bias_ l); [apply length_imap | done]. Qed.

Lemma back_propagated_invariant (l : fully_connected_layer float_t)
  (ws : worker_storage float_t) (prev_out : vec)
  (prev_h : activation.function float_t) (d : vec) :
  worker_invariant l ws →
  worker_invariant l (back_propagated l ws prev_out prev_h d).
Proof.
  intros [? ? ? ? ?]. split; simpl;
    rewrite ?length_tabulate, ?length_accumulated_dW, ?length_accumulated_db;
    done.
Qed.

Lemma back_propagated_2nd_invariant (l : fully_connected_layer float_t)
  (prev_out : vec) (prev_h : activation.function float_t) (d2 : vec) :
  layer_invariant l →
  layer_invariant (back_propagated_2nd l prev_out prev_h d2).
Proof.
  intros [? ? ? ? ? ?]. split; simpl; try done.
  - unfold accumulated_Whessian. by rewrite length_imap.
  - unfold accumulated_bhessian.
    destruct (has_bias_ l); [by rewrite length_imap | done].
  - apply length_tabulate.
Qed.

Lemma at_outer_step (out_size : nat) (u : nat → nat → float_t) (v : vec)
  (c i : nat) :
  i < out_size → c * out_size + i < length v →
  at_ (imap (outer_step out_size u) v) (c * out_size + i)
  = at_ v (c * out_size + i) ⊞ u c i.
Proof. intros Hi Hlt. unfold at_ at 1. by rewrite lookup_outer_step. Qed.

Lemma at_bias_step (delta v : vec) (i : nat) :
  i < length v → at_ (imap (bias_step delta) v) i = at_ v i ⊞ at_ delta i.
Proof. intros Hi. unfold at_ at 1. by rewrite lookup_bias_step. Qed.

End Repeated.

(** ** Construction *)

Section Construction.
Context {float_t : Type} {FT : Float_t float_t} {TG : Target}.

Lemma weight_dim_fits (in_dim out_dim : nat) :
  (N.of_nat in_dim < 2 ^ size_t_bits)%N →
  (N.of_nat in_dim * N.of_nat out_dim < 2 ^ size_t_bits)%N →
  N.to_nat (size_wrap (size_wrap (N.of_nat in_dim) * N.of_nat out_dim))
  = in_dim * out_dim.
Proof.
  intros Hin Hprod. unfold size_wrap.
  rewrite (N.mod_small (N.of_nat in_dim)) by done.
  rewrite N.mod_small by done. lia.
Qed.

End Construction.

(** ** The backward pass and the storage of other workers *)

Section OtherWorkers.
Context {float_t : Type} {FT : Float_t float_t} {TG : Target} {DP : Dispatch}.

Local Abbreviation vec := (list float_t).

(** The backward pass of a layer reads the dimensions, the flags and the
    weights of the layer, and nothing else of it. *)
Lemma back_propagation_local_reads (l l' : fully_connected_layer float_t)
  (ws : worker_storage float_t) (prev_out : vec)
  (prev_h : activation.function float_t) (curr_delta : vec) :
  in_size_ l = in_size_ l' → out_size_ l = out_size_ l' →
  has_bias_ l = has_bias_ l' → parallelize_ l = parallelize_ l' →
  W_ l = W_ l' →
  back_propagation_local l ws prev_out prev_h curr_delta
  = back_propagation_local l' ws prev_out prev_h curr_delta.
Proof.
  intros Hin Hout Hbias Hpar HW.
  unfold back_propagation_local, back_delta, back_gradients.
  by rewrite Hin, Hout, Hbias, Hpar, HW.
Qed.

(** The first-order pass of worker [i] does not see the storage of another
    worker [j]. *)
Lemma back_propagation_forget_worker (i j : nat) (prev_ : list (node float_t)) :
  i ≠ j →
  ∀ (prev_' : list (node float_t)) (this this' : node float_t)
    (curr_delta : vec),
    forget_worker j this = forget_worker j this' →
    forget_worker j <$> prev_ = forget_worker j <$> prev_' →
    observe j <$> back_propagation this prev_ curr_delta i
    = observe j <$> back_propagation this' prev_' curr_delta i.
Proof.
  intros Hij. induction prev_ as [|p up IH];
    intros prev_' this this' d Hthis Hprev;
    (destruct prev_' as [|p' up']; [|]; try done);
    (destruct this as [l|l], this' as [l'|l']; try done).
  - cbn [back_propagation]. by rewrite !observe_Ok, !fmap_cons, Hthis.
  - assert (Hl : with_worker_storage l j
              {| a_ := []; output_ := []; prev_delta_ := []; dW_ := [];
                 db_ := [] |}
            = with_worker_storage l' j
                {| a_ := []; output_ := []; prev_delta_ := []; dW_ := [];
                   db_ := [] |})
      by (cbn [forget_worker] in Hthis; congruence).
    assert (Hws : worker_storage_ l !! i = worker_storage_ l' !! i).
    { pose proof (f_equal (λ x, worker_storage_ x !! i) Hl) as Heq.
      simpl in Heq. by rewrite !list_lookup_insert_ne in Heq by done. }
    simpl. unfold get_worker_storage. rewrite Hws.
    by destruct (worker_storage_ l' !! i).
  - rewrite !fmap_cons in Hprev. injection Hprev as Hp Hup.
    cbn [back_propagation].
    by rewrite !observe_Ok, !fmap_cons, Hthis, Hp, Hup.
  - rewrite !fmap_cons in Hprev. injection Hprev as Hp Hup.
    assert (Hl : with_worker_storage l j
              {| a_ := []; output_ := []; prev_delta_ := []; dW_ := [];
                 db_ := [] |}
            = with_worker_storage l' j
                {| a_ := []; output_ := []; prev_delta_ := []; dW_ := [];
                   db_ := [] |})
      by (cbn [forget_worker] in Hthis; congruence).
    assert (Hws : worker_storage_ l !! i = worker_storage_ l' !! i).
    { pose proof (f_equal (λ x, worker_storage_ x !! i) Hl) as Heq.
      simpl in Heq. by rewrite !list_lookup_insert_ne in Heq by done. }
    simpl. unfold get_worker_storage. rewrite Hws.
    destruct (worker_storage_ l' !! i) as [ws|]; [|done]. simpl.
    rewrite <- (output_forget_worker j i p), <- (output_forget_worker j i p')
      by done.
    rewrite <- (activation_function_forget_worker j p),
      <- (activation_function_forget_worker j p'), Hp.
    destruct (output (forget_worker j p') i) as [prev_out|e]; [|done]. simpl.
    rewrite (back_propagation_local_reads l l' ws prev_out
               (activation_function (forget_worker j p')) d
               (f_equal in_size_ Hl) (f_equal out_size_ Hl)
               (f_equal has_bias_ Hl) (f_equal parallelize_ Hl)
               (f_equal W_ Hl)).
    destruct (back_propagation_local l' ws prev_out _ d) as [ws'|e]; [|done].
    cbn [mbind result_bind].
    specialize (IH up' p p' (prev_delta_ ws') Hp Hup).
    destruct (back_propagation p up _ i) as [[v c]|e],
      (back_propagation p' up' _ i) as [[v' c']|e'];
      cbn [mbind result_bind]; rewrite ?observe_Ok in IH |- *; try done.
    injection IH as -> Hc. rewrite !fmap_cons, Hc. do 3 f_equal.
    cbn [forget_worker]. f_equal. unfold with_worker_storage. simpl.
    pose proof (f_equal worker_storage_ Hl) as Hstore. simpl in Hstore.
    rewrite !(list_insert_insert_ne _ j i) by done. rewrite Hstore.
    assert (Hin : in_size_ l = in_size_ l') by exact (f_equal in_size_ Hl).
    assert (Hout : out_size_ l = out_size_ l') by exact (f_equal out_size_ Hl).
    assert (Hbias : has_bias_ l = has_bias_ l')
      by exact (f_equal has_bias_ Hl).
    assert (Hpar : parallelize_ l = parallelize_ l')
      by exact (f_equal parallelize_ Hl).
    assert (Hh : h_ l = h_ l') by exact (f_equal h_ Hl).
    assert (HW : W_ l = W_ l') by exact (f_equal W_ Hl).
    assert (Hb : b_ l = b_ l') by exact (f_equal b_ Hl).
    assert (HWh : Whessian_ l = Whessian_ l')
      by exact (f_equal Whessian_ Hl).
    assert (Hbh : bhessian_ l = bhessian_ l')
      by exact (f_equal bhessian_ Hl).
    assert (Hpd2 : prev_delta2_ l = prev_delta2_ l')
      by exact (f_equal prev_delta2_ Hl).
    by rewrite Hin, Hout, Hbias, Hpar, Hh, HW, Hb, HWh, Hbh, Hpd2.
Qed.

End OtherWorkers.

(** * The claims *)

(** C1.  Under the invariants of the data model, for an input of length
    [in_size] and a worker id that has storage, [forward_propagation] leaves
    in the worker's [a_] the pre-activations
    [a[i] = Σ_c W[c*out_size+i]*input[c]] (plus [b[i]] when [has_bias_]), in its
    [output_] the values [out[i] = h_.f(a, i)], for every [i < out_size], and
    returns [out], or the result of the downstream node on [out] when there is
    one.  On the worked example ([in_size=2], [out_size=1], bias,
    [W=[0.5,-0.5]], [b=[0.1]], identity activation, input [[2,4]]) the output is
    [[-0.9]], in binary64 and in binary32, however the range is dispatched. *)
Theorem forward_propagation_computes :
  (∀ (float_t : Type) (FT : Float_t float_t) (TG : Target) (DP : Dispatch)
     (l : fully_connected_layer float_t) (next_ : list (node float_t))
     (in_ : list float_t) (index : nat) (ws : worker_storage float_t),
     layer_invariant l →
     worker_storage_ l !! index = Some ws →
     worker_invariant l ws →
     length in_ = in_size_ l →
     ∃ ws' : worker_storage float_t,
       length (a_ ws') = out_size_ l ∧ length (output_ ws') = out_size_ l ∧
       (∀ i, i < out_size_ l →
          a_ ws' !! i
          = Some (let s := sum_of
                             (λ c, at_ (W_ l) (c * out_size_ l + i) ⊠ at_ in_ c)
                             (in_size_ l) in
                  if has_bias_ l then s ⊞ at_ (b_ l) i else s) ∧
          output_ ws' !! i = Some (activation.f (h_ l) (a_ ws') i)) ∧
       forward_propagation (fully_connected l) next_ in_ index
       = match next_ with
         | [] =>
             Ok (output_ ws',
                 [fully_connected (with_worker_storage l index ws')])
         | nx :: rest =>
             '(res, chain) ← forward_propagation nx rest (output_ ws') index;
             Ok (res, fully_connected (with_worker_storage l index ws') :: chain)
         end)
  ∧ (∀ DP : Dispatch,
       fst <$> forward_propagation (FT := binary64) (TG := lp64)
                 (fully_connected (example_layer 53 1024)) []
                 (example_input 53 1024) 0
       = Ok [dec64 true 9 10]
       ∧ fst <$> forward_propagation (FT := binary32) (TG := lp64)
                   (fully_connected (example_layer 24 128)) []
                   (example_input 24 128) 0
         = Ok [dec32 true 9 10]).
Proof.
  split.
  - intros float_t FT TG DP l next_ in_ index ws Hl Hws Hw Hin.
    exists (with_a_output ws (pre_activations l in_) (outputs l in_)).
    split; [apply length_tabulate|]. split; [apply length_tabulate|]. split.
    + intros i Hi. simpl. unfold outputs, pre_activations.
      by rewrite !lookup_tabulate.
    + apply forward_propagation_fully_connected; (done || lia).
  - intros DP. split.
    + erewrite (forward_propagation_fully_connected (FT := binary64) (TG := lp64));
        [reflexivity | | vm_compute; reflexivity | | vm_compute; lia].
      * split; by vm_compute.
      * split; by vm_compute.
    + erewrite (forward_propagation_fully_connected (FT := binary32) (TG := lp64));
        [reflexivity | | vm_compute; reflexivity | | vm_compute; lia].
      * split; by vm_compute.
      * split; by vm_compute.
Qed.

Lemma forward_propagation_computes_witness :
  ∃ ws' : worker_storage spec_float,
    a_ ws' !! 0 = Some (dec64 true 9 10) ∧
    forward_propagation (FT := binary64) (TG := lp64) (DP := halves)
      (fully_connected (example_layer 53 1024)) [] (example_input 53 1024) 3
    = Ok (output_ ws',
          [fully_connected (with_worker_storage (example_layer 53 1024) 3 ws')]).
Proof.
  destruct (proj1 forward_propagation_computes spec_float binary64 lp64 halves
       (example_layer 53 1024) [] (example_input 53 1024) 3
       {| a_ := [S754_zero false]; output_ := [S754_zero false];
          prev_delta_ := [S754_zero false; S754_zero false];
          dW_ := [S754_zero false; S754_zero false];
          db_ := [S754_zero false] |})
    as (ws' & _ & _ & Hentries & Hcall).
  - split; by vm_compute.
  - reflexivity.
  - split; reflexivity.
  - reflexivity.
  - exists ws'. split; [|exact Hcall].
    exact (proj1 (Hentries 0 (le_n 1))).
Defined.

(** C2.  Under the invariants, for a delta of length [out_size] and an
    upstream node whose output cached for the same worker id, [prev_out], has
    length [in_size], [back_propagation] writes
    [prev_delta[c] = dot(curr_delta, W[c*out_size .. c*out_size+out_size))
                     * prev_h.df(prev_out[c])]
    for every [c < in_size], and its result is the result of the upstream
    node's [back_propagation] on [prev_delta] with the same worker id; an
    upstream input node returns [prev_delta] at once. *)
Theorem back_propagation_relays_delta
  (float_t : Type) (FT : Float_t float_t) (TG : Target) (DP : Dispatch)
  (l : fully_connected_layer float_t) (p : node float_t)
  (up : list (node float_t)) (curr_delta : list float_t) (index : nat)
  (ws : worker_storage float_t) (prev_out : list float_t) :
  layer_invariant l →
  worker_storage_ l !! index = Some ws →
  worker_invariant l ws →
  output p index = Ok prev_out →
  length prev_out = in_size_ l →
  length curr_delta = out_size_ l →
  ∃ ws' : worker_storage float_t,
    length (prev_delta_ ws') = in_size_ l ∧
    (∀ c, c < in_size_ l →
       prev_delta_ ws' !! c
       = Some (sum_of (λ r, at_ curr_delta r ⊠ at_ (W_ l) (c * out_size_ l + r))
                 (out_size_ l)
               ⊠ activation.df (activation_function p) (at_ prev_out c))) ∧
    back_propagation (fully_connected l) (p :: up) curr_delta index
    = ('(res, chain) ← back_propagation p up (prev_delta_ ws') index;
       Ok (res, fully_connected (with_worker_storage l index ws') :: chain)) ∧
    (∀ li, p = input li →
       back_propagation (fully_connected l) (p :: up) curr_delta index
       = Ok (prev_delta_ ws',
             fully_connected (with_worker_storage l index ws')
             :: input li :: up)).
Proof.
  intros Hl Hws Hw Hpo Hlen Hd.
  exists (back_propagated l ws prev_out (activation_function p) curr_delta).
  assert (Heq : back_propagation (fully_connected l) (p :: up) curr_delta index
    = ('(res, chain) ←
         back_propagation p up
           (prev_delta_
              (back_propagated l ws prev_out (activation_function p) curr_delta))
           index;
       Ok (res,
           fully_connected
             (with_worker_storage l index
                (back_propagated l ws prev_out (activation_function p)
                   curr_delta))
           :: chain))).
  { apply back_propagation_fully_connected; (done || lia). }
  split; [apply length_tabulate|]. split; [|split; [done|]].
  - intros c Hc. simpl. by rewrite lookup_tabulate.
  - intros li ->. rewrite Heq. by destruct up.
Qed.

Lemma back_propagation_relays_delta_witness :
  ∃ ws' : worker_storage spec_float,
    prev_delta_ ws' !! 1 = Some (dec64 true 3 2) ∧
    back_propagation (FT := binary64) (TG := lp64) (DP := halves)
      (fully_connected (example_layer 53 1024))
      [input (example_source 53 1024 (example_input 53 1024))]
      [dec64 false 3 1] 1
    = Ok (prev_delta_ ws',
          [fully_connected (with_worker_storage (example_layer 53 1024) 1 ws');
           input (example_source 53 1024 (example_input 53 1024))]).
Proof.
  destruct (back_propagation_relays_delta spec_float binary64 lp64 halves
       (example_layer 53 1024)
       (input (example_source 53 1024 (example_input 53 1024))) []
       [dec64 false 3 1] 1
       {| a_ := [S754_zero false]; output_ := [S754_zero false];
          prev_delta_ := [S754_zero false; S754_zero false];
          dW_ := [S754_zero false; S754_zero false];
          db_ := [S754_zero false] |}
       (example_input 53 1024))
    as (ws' & _ & Hentries & _ & Hinput).
  - split; by vm_compute.
  - reflexivity.
  - split; reflexivity.
  - reflexivity.
  - reflexivity.
  - reflexivity.
  - exists ws'. split; [exact (Hentries 1 (le_n 2)) | exact (Hinput _ eq_refl)].
Defined.

(** C3.  Under the same conditions, and in whatever blocks the dispatcher cuts
    the output range, [back_propagation] adds to the worker's gradients: each
    [dW[c*out_size+i]] becomes its prior value plus
    [curr_delta[i]*prev_out[c]], and, when [has_bias_], each [db[i]] its prior
    value plus [curr_delta[i]]; without bias [db] is left as it was.  The layer
    so updated heads the chain of every result of the call. *)
Theorem back_propagation_accumulates
  (float_t : Type) (FT : Float_t float_t) (TG : Target) (DP : Dispatch)
  (l : fully_connected_layer float_t) (p : node float_t)
  (up : list (node float_t)) (curr_delta : list float_t) (index : nat)
  (ws : worker_storage float_t) (prev_out : list float_t) :
  layer_invariant l →
  worker_storage_ l !! index = Some ws →
  worker_invariant l ws →
  output p index = Ok prev_out →
  length prev_out = in_size_ l →
  length curr_delta = out_size_ l →
  ∃ ws' : worker_storage float_t,
    back_propagation (fully_connected l) (p :: up) curr_delta index
    = ('(res, chain) ← back_propagation p up (prev_delta_ ws') index;
       Ok (res, fully_connected (with_worker_storage l index ws') :: chain)) ∧
    worker_storage_ (with_worker_storage l index ws') !! index = Some ws' ∧
    length (dW_ ws') = length (dW_ ws) ∧
    (∀ c i, c < in_size_ l → i < out_size_ l →
       dW_ ws' !! (c * out_size_ l + i)
       = Some (at_ (dW_ ws) (c * out_size_ l + i)
               ⊞ at_ curr_delta i ⊠ at_ prev_out c)) ∧
    (if has_bias_ l
     then length (db_ ws') = length (db_ ws) ∧
          ∀ i, i < out_size_ l →
            db_ ws' !! i = Some (at_ (db_ ws) i ⊞ at_ curr_delta i)
     else db_ ws' = db_ ws).
Proof.
  intros Hl Hws Hw Hpo Hlen Hd.
  exists (back_propagated l ws prev_out (activation_function p) curr_delta).
  split; [apply back_propagation_fully_connected; (done || lia)|].
  destruct Hw as [_ _ _ HdW Hdb].
  split; [|split; [|split]].
  - simpl. apply list_lookup_insert_eq. by eapply lookup_lt_Some.
  - simpl. unfold accumulated_dW. by rewrite length_imap.
  - intros c i Hc Hi. simpl. unfold accumulated_dW.
    apply (lookup_outer_step _ (dW_term prev_out curr_delta)); [done|].
    rewrite HdW. by apply row_major_lt.
  - simpl. unfold accumulated_db. destruct (has_bias_ l); [|done].
    split; [by rewrite length_imap|].
    intros i Hi. apply lookup_bias_step. lia.
Qed.

Lemma back_propagation_accumulates_witness :
  ∃ ws' : worker_storage spec_float,
    back_propagation (FT := binary64) (TG := lp64) (DP := halves)
      (fully_connected (example_layer 53 1024))
      [input (example_source 53 1024 (example_input 53 1024))]
      [dec64 false 3 1] 1
    = Ok (prev_delta_ ws',
          [fully_connected (with_worker_storage (example_layer 53 1024) 1 ws');
           input (example_source 53 1024 (example_input 53 1024))]) ∧
    dW_ ws' !! 1 = Some (dec64 false 12 1) ∧
    db_ ws' !! 0 = Some (dec64 false 3 1).
Proof.
  destruct (back_propagation_accumulates spec_float binary64 lp64 halves
       (example_layer 53 1024)
       (input (example_source 53 1024 (example_input 53 1024))) []
       [dec64 false 3 1] 1
       {| a_ := [S754_zero false]; output_ := [S754_zero false];
          prev_delta_ := [S754_zero false; S754_zero false];
          dW_ := [S754_zero false; S754_zero false];
          db_ := [S754_zero false] |}
       (example_input 53 1024))
    as (ws' & Hcall & _ & _ & HdW & _ & Hdb).
  - split; by vm_compute.
  - reflexivity.
  - split; reflexivity.
  - reflexivity.
  - reflexivity.
  - reflexivity.
  - exists ws'. split; [exact Hcall|]. split.
    + exact (HdW 1 0 (le_n 2) (le_n 1)).
    + exact (Hdb 0 (le_n 1)).
Defined.

(** C4.  Under the invariants, for a second-order delta of length [out_size]
    and an upstream node whose output cached for worker 0, [prev_out], has
    length [in_size], [back_propagation_2nd] adds
    [current_delta2[r] * prev_out[c]^2] to each [Whessian_[c*out_size+r]], adds
    [current_delta2[r]] to each [bhessian_[r]] when [has_bias_], overwrites
    [prev_delta2_[c]] with
    [(Σ_r current_delta2[r]*W_[c*out_size+r]^2) * prev_h.df(prev_out[c])^2],
    and its result is the result of the upstream node's
    [back_propagation_2nd] on [prev_delta2_]. *)
Theorem back_propagation_2nd_computes
  (float_t : Type) (FT : Float_t float_t) (TG : Target)
  (l : fully_connected_layer float_t) (p : node float_t)
  (up : list (node float_t)) (current_delta2 prev_out : list float_t) :
  layer_invariant l →
  output p 0 = Ok prev_out →
  length prev_out = in_size_ l →
  length current_delta2 = out_size_ l →
  ∃ l' : fully_connected_layer float_t,
    (∀ c r, c < in_size_ l → r < out_size_ l →
       Whessian_ l' !! (c * out_size_ l + r)
       = Some (at_ (Whessian_ l) (c * out_size_ l + r)
               ⊞ at_ current_delta2 r ⊠ sqr (at_ prev_out c))) ∧
    length (Whessian_ l') = length (Whessian_ l) ∧
    (if has_bias_ l
     then length (bhessian_ l') = length (bhessian_ l) ∧
          ∀ r, r < out_size_ l →
            bhessian_ l' !! r
            = Some (at_ (bhessian_ l) r ⊞ at_ current_delta2 r)
     else bhessian_ l' = bhessian_ l) ∧
    length (prev_delta2_ l') = in_size_ l ∧
    (∀ c, c < in_size_ l →
       prev_delta2_ l' !! c
       = Some (sum_of
                 (λ r, at_ current_delta2 r
                       ⊠ sqr (at_ (W_ l) (c * out_size_ l + r)))
                 (out_size_ l)
               ⊠ sqr (activation.df (activation_function p) (at_ prev_out c)))) ∧
    W_ l' = W_ l ∧ b_ l' = b_ l ∧ worker_storage_ l' = worker_storage_ l ∧
    back_propagation_2nd (fully_connected l) (p :: up) current_delta2
    = ('(res, chain) ← back_propagation_2nd p up (prev_delta2_ l');
       Ok (res, fully_connected l' :: chain)).
Proof.
  intros Hl Hpo Hlen Hd.
  exists (back_propagated_2nd l prev_out (activation_function p) current_delta2).
  assert (Heq : back_propagation_2nd (fully_connected l) (p :: up) current_delta2
    = ('(res, chain) ←
         back_propagation_2nd p up
           (prev_delta2_
              (back_propagated_2nd l prev_out (activation_function p)
                 current_delta2));
       Ok (res,
           fully_connected
             (back_propagated_2nd l prev_out (activation_function p)
                current_delta2)
           :: chain))).
  { apply back_propagation_2nd_fully_connected; (done || lia). }
  destruct Hl as [_ _ _ HWh Hbh _].
  split; [|split; [|split; [|split; [|split; [|done]]]]].
  - intros c r Hc Hr. simpl. unfold accumulated_Whessian.
    apply (lookup_outer_step _ (hessian_term prev_out current_delta2)); [done|].
    rewrite HWh. by apply row_major_lt.
  - simpl. unfold accumulated_Whessian. by rewrite length_imap.
  - simpl. unfold accumulated_bhessian. destruct (has_bias_ l); [|done].
    split; [by rewrite length_imap|].
    intros r Hr. apply lookup_bias_step. lia.
  - simpl. apply length_tabulate.
  - intros c Hc. simpl. by rewrite lookup_tabulate.
Qed.

Lemma back_propagation_2nd_computes_witness :
  ∃ l' : fully_connected_layer spec_float,
    Whessian_ l' !! 1 = Some (dec64 false 48 1) ∧
    bhessian_ l' !! 0 = Some (dec64 false 3 1) ∧
    prev_delta2_ l' !! 0 = Some (dec64 false 3 4) ∧
    back_propagation_2nd (FT := binary64) (TG := lp64)
      (fully_connected (example_layer 53 1024))
      [input (example_source 53 1024 (example_input 53 1024))]
      [dec64 false 3 1]
    = Ok (prev_delta2_ l',
          [fully_connected l';
           input (example_source 53 1024 (example_input 53 1024))]).
Proof.
  destruct (back_propagation_2nd_computes spec_float binary64 lp64
       (example_layer 53 1024)
       (input (example_source 53 1024 (example_input 53 1024))) []
       [dec64 false 3 1] (example_input 53 1024))
    as (l' & HWh & _ & Hbh & _ & Hpd2 & _ & _ & _ & Hcall).
  - split; by vm_compute.
  - reflexivity.
  - reflexivity.
  - reflexivity.
  - exists l'. split; [exact (HWh 1 0 (le_n 2) (le_n 1))|].
    split; [exact (proj2 Hbh 0 (le_n 1))|].
    split; [exact (Hpd2 0 (le_S 1 1 (le_n 1)))|]. exact Hcall.
Defined.

(** C5, as the code has it.  The passes check no dimension.  Under the
    invariants, a vector at least as long as the layer expects is accepted:
    the pass reads its first [in_size] (for a delta, [out_size]) entries only,
    so that it runs as on the truncated vector, and every access is in range.
    A shorter vector makes the pass read past its end. *)
Theorem propagation_checks_no_dimension
  (float_t : Type) (FT : Float_t float_t) (TG : Target) (DP : Dispatch)
  (l : fully_connected_layer float_t) (index : nat)
  (ws : worker_storage float_t) :
  layer_invariant l →
  worker_storage_ l !! index = Some ws →
  worker_invariant l ws →
  (∀ (next_ : list (node float_t)) (in_ : list float_t),
     (in_size_ l ≤ length in_ →
        is_Ok (forward_propagation_local l in_ index) ∧
        forward_propagation (fully_connected l) next_ in_ index
        = forward_propagation (fully_connected l) next_
            (take (in_size_ l) in_) index) ∧
     (length in_ < in_size_ l → 0 < out_size_ l →
        forward_propagation (fully_connected l) next_ in_ index
        = Fault OutOfRange)) ∧
  (∀ (p : node float_t) (up : list (node float_t))
     (prev_out curr_delta : list float_t),
     output p index = Ok prev_out → length prev_out = in_size_ l →
     (out_size_ l ≤ length curr_delta →
        is_Ok (back_propagation_local l ws prev_out (activation_function p)
                 curr_delta) ∧
        back_propagation (fully_connected l) (p :: up) curr_delta index
        = back_propagation (fully_connected l) (p :: up)
            (take (out_size_ l) curr_delta) index) ∧
     (length curr_delta < out_size_ l → 0 < in_size_ l →
        back_propagation (fully_connected l) (p :: up) curr_delta index
        = Fault OutOfRange)) ∧
  (∀ (p : node float_t) (up : list (node float_t))
     (prev_out current_delta2 : list float_t),
     output p 0 = Ok prev_out → length prev_out = in_size_ l →
     (out_size_ l ≤ length current_delta2 →
        is_Ok (back_propagation_2nd_local l prev_out (activation_function p)
                 current_delta2) ∧
        back_propagation_2nd (fully_connected l) (p :: up) current_delta2
        = back_propagation_2nd (fully_connected l) (p :: up)
            (take (out_size_ l) current_delta2)) ∧
     (length current_delta2 < out_size_ l → 0 < in_size_ l →
        back_propagation_2nd (fully_connected l) (p :: up) current_delta2
        = Fault OutOfRange)).
Proof.
  intros Hl Hws Hw. split; [|split].
  - intros next_ in_. split.
    + intros Hin. split.
      * pose proof (invariant_bias_length l Hl) as Hb.
        destruct Hl as [Hfit HW _ _ _ _], Hw as [Ha Hout _ _ _].
        eexists. apply (forward_propagation_local_ok l in_ index ws);
          (done || lia).
      * rewrite (forward_propagation_fully_connected l next_ in_ index ws)
          by done.
        rewrite (forward_propagation_fully_connected l next_
                   (take (in_size_ l) in_) index ws);
          [|done|done|done|by rewrite length_take_le].
        by destruct (outputs_take l in_) as [-> ->].
    + intros Hin Hout.
      assert (Hlocal : forward_propagation_local l in_ index = Fault OutOfRange)
        by by apply (forward_propagation_local_short l in_ index ws).
      destruct next_; simpl; by rewrite Hlocal.
  - intros p up prev_out curr_delta Hpo Hlen. split.
    + intros Hd. split.
      * destruct Hl as [Hfit HW _ _ _ _], Hw as [_ _ Hpd HdW Hdb].
        eexists. apply back_propagation_local_ok; try (done || lia).
        intros Hbias. by rewrite Hdb, Hbias.
      * rewrite (back_propagation_fully_connected l p up curr_delta index ws
                   prev_out) by (done || lia).
        rewrite (back_propagation_fully_connected l p up
                   (take (out_size_ l) curr_delta) index ws prev_out);
          [|done|done|done|done|lia|by rewrite length_take_le].
        destruct Hw as [_ _ _ HdW Hdb].
        assert (Heq : back_propagated l ws prev_out (activation_function p)
                        (take (out_size_ l) curr_delta)
                      = back_propagated l ws prev_out (activation_function p)
                          curr_delta).
        { apply back_propagated_take; [done|].
          intros Hbias. by rewrite Hdb, Hbias. }
        assert (Hpd : tabulate
                        (upstream_delta l prev_out (activation_function p)
                           (take (out_size_ l) curr_delta)) (in_size_ l)
                      = tabulate
                          (upstream_delta l prev_out (activation_function p)
                             curr_delta) (in_size_ l))
          by exact (f_equal prev_delta_ Heq).
        by rewrite Heq, Hpd.
    + intros Hd Hin. simpl. unfold get_worker_storage. rewrite Hws. simpl.
      rewrite Hpo. simpl. by rewrite back_propagation_local_short.
  - intros p up prev_out current_delta2 Hpo Hlen. split.
    + intros Hd. split.
      * destruct Hl as [Hfit HW _ HWh Hbh Hpd2].
        eexists. apply back_propagation_2nd_local_ok; try (done || lia).
        intros Hbias. by rewrite Hbh, Hbias.
      * rewrite (back_propagation_2nd_fully_connected l p up current_delta2
                   prev_out) by (done || lia).
        rewrite (back_propagation_2nd_fully_connected l p up
                   (take (out_size_ l) current_delta2) prev_out);
          [|done|done|lia|by rewrite length_take_le].
        destruct Hl as [_ _ _ HWh Hbh _].
        assert (Heq : back_propagated_2nd l prev_out (activation_function p)
                        (take (out_size_ l) current_delta2)
                      = back_propagated_2nd l prev_out (activation_function p)
                          current_delta2).
        { apply back_propagated_2nd_take; [done|].
          intros Hbias. by rewrite Hbh, Hbias. }
        assert (Hpd : tabulate
                        (upstream_delta2 l prev_out (activation_function p)
                           (take (out_size_ l) current_delta2)) (in_size_ l)
                      = tabulate
                          (upstream_delta2 l prev_out (activation_function p)
                             current_delta2) (in_size_ l))
          by exact (f_equal prev_delta2_ Heq).
        by rewrite Heq, Hpd.
    + intros Hd Hin. simpl. rewrite Hpo. simpl.
      rewrite back_propagation_2nd_local_short; (done || lia).
Qed.

Lemma propagation_checks_no_dimension_witness :
  forward_propagation (FT := binary64) (TG := lp64) (DP := halves)
    (fully_connected (example_layer 53 1024)) []
    (example_input 53 1024 ++ [dec64 false 7 1]) 0
  = forward_propagation (FT := binary64) (TG := lp64) (DP := halves)
      (fully_connected (example_layer 53 1024)) [] (example_input 53 1024) 0
  ∧ forward_propagation (FT := binary64) (TG := lp64) (DP := halves)
      (fully_connected (example_layer 53 1024)) [] [dec64 false 2 1] 0
    = Fault OutOfRange.
Proof.
  destruct (propagation_checks_no_dimension spec_float binary64 lp64 halves
              (example_layer 53 1024) 0
              {| a_ := [S754_zero false]; output_ := [S754_zero false];
                 prev_delta_ := [S754_zero false; S754_zero false];
                 dW_ := [S754_zero false; S754_zero false];
                 db_ := [S754_zero false] |})
    as (Hforward & _ & _).
  - split; by vm_compute.
  - reflexivity.
  - split; reflexivity.
  - split.
    + exact (proj2 (proj1
        (Hforward [] (example_input 53 1024 ++ [dec64 false 7 1]))
        (le_S 2 2 (le_n 2)))).
    + exact (proj2 (Hforward [] [dec64 false 2 1]) (le_n 2) (le_n 1)).
Defined.

(** C5, as the specification words it, fails: the layer of the worked example
    expects two inputs, is given three, and returns the output of the first
    two with no failure; given a delta of two entries for its single output,
    its back-propagation returns as for the first entry alone. *)
Lemma long_vectors_are_accepted :
  length (example_input 53 1024 ++ [dec64 false 7 1])
  ≠ in_size_ (example_layer 53 1024) ∧
  fst <$> forward_propagation (FT := binary64) (TG := lp64) (DP := sequential)
            (fully_connected (example_layer 53 1024)) []
            (example_input 53 1024 ++ [dec64 false 7 1]) 0
  = Ok [dec64 true 9 10] ∧
  length [dec64 false 3 1; dec64 false 5 1]
  ≠ out_size_ (example_layer 53 1024) ∧
  fst <$> back_propagation (FT := binary64) (TG := lp64) (DP := sequential)
            (fully_connected (example_layer 53 1024))
            [input (example_source 53 1024 (example_input 53 1024))]
            [dec64 false 3 1; dec64 false 5 1] 0
  = Ok [dec64 false 3 2; dec64 true 3 2].
Proof.
  split; [by vm_compute|]. split; [by vm_compute|].
  split; [by vm_compute|]. by vm_compute.
Qed.

(** C6.  A layer constructed without bias has empty bias-related buffers
    ([b_], [bhessian_], every worker's [db_]).  For every layer with
    [has_bias_] off: under the invariants the pre-activations that
    [forward_propagation] computes are the weighted sums alone, and whatever
    [forward_propagation], [back_propagation] and [back_propagation_2nd]
    return, they leave the layer's bias-related buffers as they were. *)
Theorem no_bias_isolation
  (float_t : Type) (FT : Float_t float_t) (TG : Target) (DP : Dispatch) :
  (∀ (h : activation.function float_t) (in_dim out_dim : nat),
     bias_buffers (new_fully_connected_layer h in_dim out_dim false)
     = ([], [], replicate CNN_TASK_SIZE [])) ∧
  (∀ l : fully_connected_layer float_t,
     has_bias_ l = false →
     (∀ (in_ : list float_t) (index : nat) (ws : worker_storage float_t),
        layer_invariant l →
        worker_storage_ l !! index = Some ws →
        worker_invariant l ws →
        length in_ = in_size_ l →
        let a := tabulate
                   (λ i, sum_of
                           (λ c, at_ (W_ l) (c * out_size_ l + i) ⊠ at_ in_ c)
                           (in_size_ l))
                   (out_size_ l) in
        let out := tabulate (activation.f (h_ l) a) (out_size_ l) in
        forward_propagation_local l in_ index
        = Ok (out, with_worker_storage l index (with_a_output ws a out))) ∧
     (∀ next_ in_ index res chain,
        forward_propagation (fully_connected l) next_ in_ index = Ok (res, chain) →
        ∃ l' rest, chain = fully_connected l' :: rest ∧
          bias_buffers l' = bias_buffers l) ∧
     (∀ prev_ curr_delta index res chain,
        back_propagation (fully_connected l) prev_ curr_delta index
        = Ok (res, chain) →
        ∃ l' rest, chain = fully_connected l' :: rest ∧
          bias_buffers l' = bias_buffers l) ∧
     (∀ prev_ current_delta2 res chain,
        back_propagation_2nd (fully_connected l) prev_ current_delta2
        = Ok (res, chain) →
        ∃ l' rest, chain = fully_connected l' :: rest ∧
          bias_buffers l' = bias_buffers l)).
Proof.
  split.
  - intros h in_dim out_dim. unfold bias_buffers. simpl.
    by rewrite fmap_replicate.
  - intros l Hbias. split; [|split; [|split]].
    + intros in_ index ws Hl Hws Hw Hin a out.
      pose proof (invariant_bias_length l Hl) as Hb.
      destruct Hl as [Hfit HW _ _ _ _], Hw as [Ha Hout _ _ _].
      rewrite (forward_propagation_local_ok l in_ index ws) by (done || lia).
      assert (Hpre : pre_activations l in_ = a).
      { apply tabulate_ext. intros i Hi. unfold pre_activation. by rewrite Hbias. }
      unfold outputs. by rewrite Hpre.
    + intros next_ in_ index res chain Hrun.
      apply forward_propagation_inv in Hrun
        as (ws & a & out & rest & Hws & -> & _).
      eexists _, rest. split; [done|].
      by apply (bias_buffers_with_worker_storage l index ws).
    + intros prev_ curr_delta index res chain Hrun.
      apply back_propagation_inv in Hrun
        as (ws & ws' & p & up & prev_out & rest & Hws & _ & _ & Hlocal & _ & ->).
      eexists _, rest. split; [done|].
      apply (bias_buffers_with_worker_storage l index ws); [done|].
      by apply back_propagation_local_inv in Hlocal as (_ & _ & ->).
    + intros prev_ current_delta2 res chain Hrun.
      apply back_propagation_2nd_inv in Hrun
        as (l' & p & up & prev_out & rest & _ & _ & Hlocal & _ & ->).
      exists l', rest. split; [done|].
      apply back_propagation_2nd_local_inv in Hlocal
        as (Wh & bh & pd2 & -> & Hbh).
      unfold bias_buffers. simpl. by rewrite Hbh.
Qed.

Lemma no_bias_isolation_witness :
  ∃ l' rest,
    [fully_connected
       (with_worker_storage
          (new_fully_connected_layer (FT := binary64) (TG := lp64)
             (activation.identity (FT := binary64) (dec64 false 1 1)) 2 1 false)
          1
          {| a_ := [S754_zero false]; output_ := [S754_zero false];
             prev_delta_ := [S754_zero false; S754_zero false];
             dW_ := [dec64 false 6 1; dec64 false 12 1]; db_ := [] |});
     input (example_source 53 1024 (example_input 53 1024))]
    = fully_connected l' :: rest ∧
    bias_buffers l'
    = bias_buffers
        (new_fully_connected_layer (FT := binary64) (TG := lp64)
           (activation.identity (FT := binary64) (dec64 false 1 1)) 2 1 false).
Proof.
  refine (proj1 (proj2 (proj2
    (proj2 (no_bias_isolation spec_float binary64 lp64 halves)
       (new_fully_connected_layer (FT := binary64) (TG := lp64)
          (activation.identity (FT := binary64) (dec64 false 1 1)) 2 1 false)
       eq_refl)))
    [input (example_source 53 1024 (example_input 53 1024))]
    [dec64 false 3 1] 1 [S754_zero false; S754_zero false] _ _).
  reflexivity.
Defined.

(** C7.  Whatever [forward_propagation] returns for worker id [index], the
    layer it leaves differs from the layer it found in the [a_] and [output_]
    of that worker alone: the weights, the bias, the Hessian accumulators, the
    worker's [prev_delta_], [dW_] and [db_], and the storage of every other
    worker are as before; and every node of the chain is as before up to the
    storage of worker [index].  For a valid input it does return. *)
Theorem forward_propagation_frame
  (float_t : Type) (FT : Float_t float_t) (TG : Target) (DP : Dispatch)
  (l : fully_connected_layer float_t) (next_ : list (node float_t))
  (in_ : list float_t) (index : nat) :
  (∀ (res : list float_t) (chain : list (node float_t)),
     forward_propagation (fully_connected l) next_ in_ index = Ok (res, chain) →
     ∃ (l' : fully_connected_layer float_t) (rest : list (node float_t))
       (ws ws' : worker_storage float_t),
       chain = fully_connected l' :: rest ∧
       worker_storage_ l !! index = Some ws ∧
       worker_storage_ l' !! index = Some ws' ∧
       prev_delta_ ws' = prev_delta_ ws ∧ dW_ ws' = dW_ ws ∧ db_ ws' = db_ ws ∧
       (∀ j, j ≠ index → worker_storage_ l' !! j = worker_storage_ l !! j) ∧
       length (worker_storage_ l') = length (worker_storage_ l) ∧
       in_size_ l' = in_size_ l ∧ out_size_ l' = out_size_ l ∧
       has_bias_ l' = has_bias_ l ∧ h_ l' = h_ l ∧
       W_ l' = W_ l ∧ b_ l' = b_ l ∧
       Whessian_ l' = Whessian_ l ∧ bhessian_ l' = bhessian_ l ∧
       prev_delta2_ l' = prev_delta2_ l ∧
       forget_worker index <$> chain
       = forget_worker index <$> (fully_connected l :: next_)) ∧
  (∀ ws : worker_storage float_t,
     layer_invariant l →
     worker_storage_ l !! index = Some ws →
     worker_invariant l ws →
     length in_ = in_size_ l →
     next_ = [] →
     is_Ok (forward_propagation (fully_connected l) next_ in_ index)).
Proof.
  split.
  - intros res chain Hrun.
    pose proof (forward_propagation_forget_worker _ _ _ _ _ _ Hrun) as Hforget.
    apply forward_propagation_inv in Hrun
      as (ws & a & out & rest & Hws & -> & _).
    eexists _, rest, ws, (with_a_output ws a out).
    split; [done|]. split; [done|]. split.
    { simpl. apply list_lookup_insert_eq. by eapply lookup_lt_Some. }
    do 3 (split; [done|]). split.
    { intros j Hj. simpl. by rewrite list_lookup_insert_ne. }
    split; [simpl; by rewrite length_insert|].
    by do 9 (split; [done|]).
  - intros ws Hl Hws Hw Hin ->.
    rewrite (forward_propagation_fully_connected l [] in_ index ws)
      by (done || lia).
    by eexists.
Qed.

Lemma forward_propagation_frame_witness :
  is_Ok (forward_propagation (FT := binary64) (TG := lp64) (DP := halves)
           (fully_connected (example_layer 53 1024)) []
           (example_input 53 1024) 5).
Proof.
  refine (proj2
    (forward_propagation_frame spec_float binary64 lp64 halves
       (example_layer 53 1024) [] (example_input 53 1024) 5)
    {| a_ := [S754_zero false]; output_ := [S754_zero false];
       prev_delta_ := [S754_zero false; S754_zero false];
       dW_ := [S754_zero false; S754_zero false];
       db_ := [S754_zero false] |} _ _ _ _ _).
  - split; by vm_compute.
  - reflexivity.
  - split; reflexivity.
  - reflexivity.
  - reflexivity.
Defined.

(** C8.  The layer checks for no absent neighbour and reports no malformed
    chain.  An absent [next_] is no error to it: [forward_propagation]
    returns this layer's output.  With [prev_] absent, [back_propagation]
    (once it has looked up the worker's storage, which faults on its own for a
    worker id out of range) and [back_propagation_2nd] follow the null
    pointer, on every delta: undefined behaviour in C++, the fault
    [NullDereference] here.  The same happens at any depth: from the last
    of a row of dense layers with no input node upstream, the passes run
    through every layer and end in that fault.  The layer recovers nothing
    and swallows nothing: what it returns is what the upstream node's pass
    returned, and a fault of the upstream node's pass on the delta relayed is
    the outcome of the call, unchanged. *)
Theorem absent_neighbours_are_unchecked
  (float_t : Type) (FT : Float_t float_t) (TG : Target) (DP : Dispatch)
  (l : fully_connected_layer float_t) (index : nat) :
  (∀ (in_ : list float_t) (ws : worker_storage float_t),
     layer_invariant l →
     worker_storage_ l !! index = Some ws →
     worker_invariant l ws →
     in_size_ l ≤ length in_ →
     ∃ l' : fully_connected_layer float_t,
       forward_propagation (fully_connected l) [] in_ index
       = Ok (outputs l in_, [fully_connected l'])) ∧
  (∀ curr_delta : list float_t,
     back_propagation (fully_connected l) [] curr_delta index
     = Fault (if decide (index < length (worker_storage_ l))
              then NullDereference else OutOfRange)) ∧
  (∀ current_delta2 : list float_t,
     back_propagation_2nd (fully_connected l) [] current_delta2
     = Fault NullDereference) ∧
  (∀ (prev_ : list (node float_t)) (curr_delta : list float_t),
     unterminated index (length curr_delta) (fully_connected l) prev_ →
     back_propagation (fully_connected l) prev_ curr_delta index
     = Fault NullDereference) ∧
  (∀ (prev_ : list (node float_t)) (current_delta2 : list float_t),
     unterminated 0 (length current_delta2) (fully_connected l) prev_ →
     back_propagation_2nd (fully_connected l) prev_ current_delta2
     = Fault NullDereference) ∧
  (∀ (prev_ : list (node float_t)) (curr_delta res : list float_t)
     (chain : list (node float_t)),
     back_propagation (fully_connected l) prev_ curr_delta index
     = Ok (res, chain) →
     ∃ (p : node float_t) (up rest : list (node float_t))
       (ws' : worker_storage float_t),
       prev_ = p :: up ∧
       back_propagation p up (prev_delta_ ws') index = Ok (res, rest) ∧
       chain = fully_connected (with_worker_storage l index ws') :: rest) ∧
  (∀ (prev_ : list (node float_t)) (current_delta2 res : list float_t)
     (chain : list (node float_t)),
     back_propagation_2nd (fully_connected l) prev_ current_delta2
     = Ok (res, chain) →
     ∃ (p : node float_t) (up rest : list (node float_t))
       (l' : fully_connected_layer float_t),
       prev_ = p :: up ∧
       back_propagation_2nd p up (prev_delta2_ l') = Ok (res, rest) ∧
       chain = fully_connected l' :: rest) ∧
  (∀ (p : node float_t) (up : list (node float_t)) (curr_delta : list float_t)
     (ws ws' : worker_storage float_t) (prev_out : list float_t) (e : fault),
     worker_storage_ l !! index = Some ws →
     output p index = Ok prev_out →
     back_propagation_local l ws prev_out (activation_function p) curr_delta
     = Ok ws' →
     back_propagation p up (prev_delta_ ws') index = Fault e →
     back_propagation (fully_connected l) (p :: up) curr_delta index
     = Fault e) ∧
  (∀ (p : node float_t) (up : list (node float_t))
     (current_delta2 prev_out : list float_t)
     (l' : fully_connected_layer float_t) (e : fault),
     output p 0 = Ok prev_out →
     back_propagation_2nd_local l prev_out (activation_function p)
       current_delta2
     = Ok l' →
     back_propagation_2nd p up (prev_delta2_ l') = Fault e →
     back_propagation_2nd (fully_connected l) (p :: up) current_delta2
     = Fault e).
Proof.
  split; [|split; [|split; [|split; [|split; [|split; [|split; [|split]]]]]]].
  - intros in_ ws Hl Hws Hw Hin.
    rewrite (forward_propagation_fully_connected l [] in_ index ws) by done.
    by eexists.
  - intros d. simpl. unfold get_worker_storage. case_decide as Hi.
    + by destruct (lookup_lt_is_Some_2 _ _ Hi) as [ws ->].
    + rewrite lookup_ge_None_2; [done | lia].
  - done.
  - intros prev_ d. apply back_propagation_unterminated.
  - intros prev_ d2. apply back_propagation_2nd_unterminated.
  - intros prev_ d res chain Hrun.
    apply back_propagation_inv in Hrun
      as (ws & ws' & p & up & prev_out & rest & _ & -> & _ & _ & Hup & ->).
    by exists p, up, rest, ws'.
  - intros prev_ d2 res chain Hrun.
    apply back_propagation_2nd_inv in Hrun
      as (l' & p & up & prev_out & rest & -> & _ & _ & Hup & ->).
    by exists p, up, rest, l'.
  - intros p up d ws ws' prev_out e Hws Hpo Hlocal Hup.
    simpl. unfold get_worker_storage. rewrite Hws. simpl. rewrite Hpo. simpl.
    rewrite Hlocal. simpl. by rewrite Hup.
  - intros p up d2 prev_out l' e Hpo Hlocal Hup.
    simpl. rewrite Hpo. simpl. rewrite Hlocal. simpl. by rewrite Hup.
Qed.

Lemma absent_neighbours_are_unchecked_witness :
  back_propagation (FT := binary64) (TG := lp64) (DP := halves)
    (fully_connected (example_head 53 1024))
    [fully_connected (example_layer 53 1024)]
    [dec64 false 1 1; dec64 false 3 1] 1
  = Fault NullDereference.
Proof.
  refine (proj1 (proj2 (proj2 (proj2
    (absent_neighbours_are_unchecked spec_float binary64 lp64 halves
       (example_head 53 1024) 1))))
    [fully_connected (example_layer 53 1024)]
    [dec64 false 1 1; dec64 false 3 1] _).
  chain_is_ready.
Defined.

(** C8, as the specification words it, fails: nothing is reported.  The layer
    of the worked example sits in the middle of the example chain; with its
    [next_] absent, [forward_propagation] returns the layer's own output,
    [[-0.9]], where the chain returns [[-1.8, 0.9]], and no failure; with its
    [prev_] absent, the backward passes end in the null dereference, which is
    no condition a caller is handed. *)
Lemma absent_neighbours_are_not_reported :
  fst <$> forward_propagation (FT := binary64) (TG := lp64) (DP := sequential)
            (fully_connected (example_layer 53 1024))
            [fully_connected (example_head 53 1024)]
            (example_input 53 1024) 0
  = Ok [dec64 true 9 5; dec64 false 9 10] ∧
  fst <$> forward_propagation (FT := binary64) (TG := lp64) (DP := sequential)
            (fully_connected (example_layer 53 1024)) []
            (example_input 53 1024) 0
  = Ok [dec64 true 9 10] ∧
  back_propagation (FT := binary64) (TG := lp64) (DP := sequential)
    (fully_connected (example_layer 53 1024)) [] [dec64 false 3 1] 0
  = Fault NullDereference ∧
  back_propagation_2nd (FT := binary64) (TG := lp64)
    (fully_connected (example_layer 53 1024)) [] [dec64 false 3 1]
  = Fault NullDereference.
Proof.
  split; [by vm_compute|]. split; [by vm_compute|].
  split; [by vm_compute|]. by vm_compute.
Qed.

(** The dimensions of a layer are [cnn_size_t] values: where [size_t] is at
    least twice as wide, they and the connection count fit [size_t]. *)
Lemma cnn_sizes_fit_size_t {TG : Target} (in_size out_size : nat)
  (has_bias : bool) :
  (N.of_nat in_size < 2 ^ cnn_size_bits)%N →
  (N.of_nat out_size < 2 ^ cnn_size_bits)%N →
  (2 * cnn_size_bits ≤ size_t_bits)%N →
  fits_size_t in_size out_size has_bias.
Proof.
  intros Hin Hout Hbits.
  assert (Hpow : (2 ^ cnn_size_bits * 2 ^ cnn_size_bits ≤ 2 ^ size_t_bits)%N).
  { rewrite <- N.pow_add_r. apply N.pow_le_mono_r; lia. }
  assert (Hone : (1 ≤ 2 ^ cnn_size_bits)%N) by lia.
  unfold fits_size_t. destruct has_bias; nia.
Qed.

(** C9.  The queries are functions of the layer alone (they are [const] and
    return a number; there is no state for them to change).  Where the
    dimensions and the connection count are representable in [size_t],
    [connection_size() = in_size*out_size + (has_bias ? out_size : 0)],
    [fan_in_size() = in_size] and [fan_out_size() = out_size]. *)
Theorem queries_return_the_sizes
  (float_t : Type) (TG : Target) (l : fully_connected_layer float_t) :
  fits_size_t (in_size_ l) (out_size_ l) (has_bias_ l) →
  connection_size l
  = (N.of_nat (in_size_ l) * N.of_nat (out_size_ l)
     + (if has_bias_ l then N.of_nat (out_size_ l) else 0))%N ∧
  fan_in_size l = N.of_nat (in_size_ l) ∧
  fan_out_size l = N.of_nat (out_size_ l).
Proof.
  intros (Hin & Hout & Hfit). unfold connection_size, fan_in_size, fan_out_size.
  unfold size_wrap. rewrite (N.mod_small (N.of_nat (in_size_ l))) by done.
  rewrite (N.mod_small (N.of_nat (out_size_ l))) by done.
  split; [|done]. destruct (has_bias_ l).
  - rewrite N.mul_1_l. rewrite (N.mod_small (_ * _)) by lia.
    rewrite (N.mod_small (N.of_nat (out_size_ l))) by lia.
    by apply N.mod_small.
  - rewrite N.mul_0_l, N.Div0.mod_0_l. rewrite !N.add_0_r in *.
    rewrite (N.mod_small (_ * _)) by done. by apply N.mod_small.
Qed.

Lemma queries_return_the_sizes_witness :
  connection_size (TG := ilp32) (example_layer 53 1024) = 3%N ∧
  fan_in_size (TG := ilp32) (example_layer 53 1024) = 2%N ∧
  fan_out_size (TG := ilp32) (example_layer 53 1024) = 1%N.
Proof.
  refine (queries_return_the_sizes spec_float ilp32 (example_layer 53 1024) _).
  by vm_compute.
Defined.

(** C10.  [back_propagation_2nd] takes the upstream output from worker 0:
    [prev_->output(0)].  So a forward pass run under another worker id [j],
    over any part of the chain, changes nothing that the second-order pass
    from the chain's last node observes: its result, and every node it leaves,
    up to the storage of worker [j], are the same with and without that
    forward pass. *)
Theorem back_propagation_2nd_reads_worker_0
  (float_t : Type) (FT : Float_t float_t) (TG : Target) (DP : Dispatch) :
  (∀ (l : fully_connected_layer float_t) (p : node float_t)
     (up : list (node float_t)) (current_delta2 : list float_t),
     back_propagation_2nd (fully_connected l) (p :: up) current_delta2
     = (prev_out ← output p 0;
        l' ← back_propagation_2nd_local l prev_out (activation_function p)
               current_delta2;
        '(res, chain) ← back_propagation_2nd p up (prev_delta2_ l');
        Ok (res, fully_connected l' :: chain))) ∧
  (∀ (j : nat) (ups rest chain : list (node float_t)) (first : node float_t)
     (in_ res current_delta2 : list float_t)
     (this this' : node float_t) (prev_ prev_' : list (node float_t)),
     j ≠ 0 →
     forward_propagation first rest in_ j = Ok (res, chain) →
     reverse (ups ++ first :: rest) = this :: prev_ →
     reverse (ups ++ chain) = this' :: prev_' →
     observe j <$> back_propagation_2nd this' prev_' current_delta2
     = observe j <$> back_propagation_2nd this prev_ current_delta2).
Proof.
  split; [done|].
  intros j ups rest chain first in_ res d2 this this' prev_ prev_' Hj Hrun Hrev Hrev'.
  apply forward_propagation_forget_worker in Hrun.
  assert (Heq : forget_worker j <$> (this' :: prev_')
                = forget_worker j <$> (this :: prev_)).
  { rewrite <- Hrev, <- Hrev', !fmap_reverse, !fmap_app. by rewrite Hrun. }
  rewrite !fmap_cons in Heq. injection Heq as Hthis Hprev.
  by apply back_propagation_2nd_forget_worker.
Qed.

Lemma back_propagation_2nd_reads_worker_0_witness :
  observe 3
  <$> back_propagation_2nd (FT := binary64) (TG := lp64)
        (fully_connected
           (with_worker_storage (example_layer 53 1024) 3
              {| a_ := [dec64 true 9 10]; output_ := [dec64 true 9 10];
                 prev_delta_ := [S754_zero false; S754_zero false];
                 dW_ := [S754_zero false; S754_zero false];
                 db_ := [S754_zero false] |}))
        [input
           {| input_h_ :=
                activation.identity (FT := binary64) (dec64 false 1 1);
              input_output_ :=
                <[3 := example_input 53 1024]>
                  (replicate 8 [dec64 false 1 1; dec64 false 1 1]) |}]
        [dec64 false 3 1]
  = observe 3
    <$> back_propagation_2nd (FT := binary64) (TG := lp64)
          (fully_connected (example_layer 53 1024))
          [input
             (example_source 53 1024 [dec64 false 1 1; dec64 false 1 1])]
          [dec64 false 3 1].
Proof.
  refine (proj2
    (back_propagation_2nd_reads_worker_0 spec_float binary64 lp64 halves)
    3 [] [fully_connected (example_layer 53 1024)] _
    (input (example_source 53 1024 [dec64 false 1 1; dec64 false 1 1]))
    (example_input 53 1024) [dec64 true 9 10] [dec64 false 3 1]
    _ _ _ _ _ _ _ _).
  - discriminate.
  - reflexivity.
  - reflexivity.
  - reflexivity.
Defined.

(** * Further properties *)

(** X1.  Along a chain whose sizes agree, [forward_propagation] returns, and
    what it returns is the composition of the nodes' output maps; its length
    is the output size of the last node, and the chain it leaves, in which
    every node has cached what it handed downstream, is again one whose sizes
    agree. *)
Theorem forward_propagation_composes
  (float_t : Type) (FT : Float_t float_t) (TG : Target) (DP : Dispatch)
  (this : node float_t) (next_ : list (node float_t)) (in_ : list float_t)
  (index : nat) :
  forward_ready index (length in_) (this :: next_) →
  forward_propagation this next_ in_ index
  = Ok (chain_outputs (this :: next_) in_, forwarded index (this :: next_) in_) ∧
  length (chain_outputs (this :: next_) in_)
  = chain_out_size (this :: next_) (length in_) ∧
  forward_ready index (length in_) (forwarded index (this :: next_) in_).
Proof.
  intros Hready. split; [by apply forward_chain_ok|].
  split; [by apply (length_chain_outputs index) | by apply forwarded_ready].
Qed.

Lemma forward_propagation_composes_witness :
  ∃ chain : list (node spec_float),
    forward_propagation (FT := binary64) (TG := lp64) (DP := halves)
      (input (example_source 53 1024 (example_input 53 1024)))
      [fully_connected (example_layer 53 1024);
       fully_connected (example_head 53 1024)]
      (example_input 53 1024) 1
    = Ok ([dec64 true 9 5; dec64 false 9 10], chain).
Proof.
  eexists.
  refine (proj1
    (forward_propagation_composes spec_float binary64 lp64 halves
       (input (example_source 53 1024 (example_input 53 1024)))
       [fully_connected (example_layer 53 1024);
        fully_connected (example_head 53 1024)]
       (example_input 53 1024) 1 _)).
  chain_is_ready.
Defined.

(** X2.  A forward pass overwrites what an earlier pass of the same worker
    left: on the chain that a pass on [x] leaves, a pass on [y] returns the
    same vector and leaves the same chain as on the chain before it.  In
    particular a pass repeated with the same input changes nothing. *)
Theorem forward_propagation_overwrites
  (float_t : Type) (FT : Float_t float_t) (TG : Target) (DP : Dispatch)
  (this : node float_t) (next_ : list (node float_t)) (x y : list float_t)
  (index : nat) :
  forward_ready index (length x) (this :: next_) →
  length y = length x →
  ∃ (res : list float_t) (chain : list (node float_t)),
    forward_propagation this next_ x index = Ok (res, chain) ∧
    is_Ok (forward_propagation this next_ y index) ∧
    forward_chain chain y index = forward_propagation this next_ y index.
Proof.
  intros Hx Hy. pose proof Hx as Hy'. rewrite <- Hy in Hy'.
  eexists _, _. split; [by apply forward_chain_ok|].
  rewrite (forward_chain_ok index next_ this y Hy'). split; [by eexists|].
  pose proof (forwarded_ready index _ x Hx) as Hready. rewrite <- Hy in Hready.
  cbn [forwarded forward_chain]. cbn [forwarded] in Hready.
  rewrite (forward_chain_ok index _ _ y Hready).
  change (forwarded_node index this x
          :: forwarded index next_ (node_outputs this x))
    with (forwarded index (this :: next_) x).
  by rewrite chain_outputs_forwarded, forwarded_twice.
Qed.

Lemma forward_propagation_overwrites_witness :
  ∃ (res : list spec_float) (chain : list (node spec_float)),
    forward_propagation (FT := binary64) (TG := lp64) (DP := halves)
      (input (example_source 53 1024 (example_input 53 1024)))
      [fully_connected (example_layer 53 1024);
       fully_connected (example_head 53 1024)]
      (example_input 53 1024) 1
    = Ok (res, chain) ∧
    is_Ok (forward_propagation (FT := binary64) (TG := lp64) (DP := halves)
             (input (example_source 53 1024 (example_input 53 1024)))
             [fully_connected (example_layer 53 1024);
              fully_connected (example_head 53 1024)]
             [dec64 false 1 1; dec64 false 1 1] 1) ∧
    forward_chain (FT := binary64) (TG := lp64) (DP := halves) chain
      [dec64 false 1 1; dec64 false 1 1] 1
    = forward_propagation (FT := binary64) (TG := lp64) (DP := halves)
        (input (example_source 53 1024 (example_input 53 1024)))
        [fully_connected (example_layer 53 1024);
         fully_connected (example_head 53 1024)]
        [dec64 false 1 1; dec64 false 1 1] 1.
Proof.
  refine (forward_propagation_overwrites spec_float binary64 lp64 halves
    (input (example_source 53 1024 (example_input 53 1024)))
    [fully_connected (example_layer 53 1024);
     fully_connected (example_head 53 1024)]
    (example_input 53 1024) [dec64 false 1 1; dec64 false 1 1] 1 _ _).
  - chain_is_ready.
  - reflexivity.
Defined.

(** X3.  Forward passes under two different worker ids commute: run one after
    the other in either order, they return the same two vectors and leave the
    same chain.  No condition on the sizes is needed. *)
Theorem forward_passes_commute
  (float_t : Type) (FT : Float_t float_t) (TG : Target) (DP : Dispatch)
  (this : node float_t) (next_ : list (node float_t)) (x y r1 r2 : list float_t)
  (i j : nat) (c1 c12 : list (node float_t)) :
  i ≠ j →
  forward_propagation this next_ x i = Ok (r1, c1) →
  forward_chain c1 y j = Ok (r2, c12) →
  ∃ c2 : list (node float_t),
    forward_propagation this next_ y j = Ok (r2, c2) ∧
    forward_chain c2 x i = Ok (r1, c12).
Proof.
  revert this x y r1 r2 i j c1 c12.
  induction next_ as [|nx tl IH]; intros this x y r1 r2 i j c1 c12 Hij H1 H2;
    destruct this as [l|l]; simpl in H1.
  - case_decide; [|done]. injection H1 as <- <-. simpl in H2.
    rewrite length_insert in H2. case_decide; [|done]. injection H2 as <- <-.
    eexists. simpl. rewrite decide_True by done. split; [done|].
    simpl. rewrite length_insert, decide_True by done.
    by rewrite list_insert_insert_ne.
  - apply bind_Ok_inv in H1 as ([o1 l1] & Hx & H1). injection H1 as <- <-.
    simpl in H2. apply bind_Ok_inv in H2 as ([o2 l12] & Hy & H2).
    injection H2 as <- <-.
    destruct (forward_propagation_local_commute l l1 l12 x y o1 o2 i j)
      as (l2 & Hy' & Hx'); try done.
    eexists. simpl. rewrite Hy'. simpl. split; [done|]. simpl.
    by rewrite Hx'.
  - case_decide; [|done].
    apply bind_Ok_inv in H1 as ([r1' rest1] & Hnext & H1).
    injection H1 as <- <-.
    destruct (forward_propagation_nonempty _ _ _ _ _ _ Hnext)
      as (n1 & t1 & ->).
    simpl in H2. rewrite length_insert in H2. case_decide; [|done].
    apply bind_Ok_inv in H2 as ([r2' rest12] & Hnext2 & H2).
    injection H2 as <- <-.
    destruct (IH nx x y _ _ i j (n1 :: t1) rest12 Hij Hnext Hnext2)
      as (rest2 & Hy' & Hx').
    destruct (forward_propagation_nonempty _ _ _ _ _ _ Hy') as (n2 & t2 & ->).
    eexists. simpl. rewrite decide_True by done. rewrite Hy'. simpl.
    split; [done|]. simpl. rewrite length_insert, decide_True by done.
    simpl in Hx'. rewrite Hx'. simpl.
    by rewrite list_insert_insert_ne.
  - apply bind_Ok_inv in H1 as ([o1 l1] & Hx & H1).
    apply bind_Ok_inv in H1 as ([r1' rest1] & Hnext & H1).
    injection H1 as <- <-.
    destruct (forward_propagation_nonempty _ _ _ _ _ _ Hnext)
      as (n1 & t1 & ->).
    simpl in H2. apply bind_Ok_inv in H2 as ([o2 l12] & Hy & H2).
    apply bind_Ok_inv in H2 as ([r2' rest12] & Hnext2 & H2).
    injection H2 as <- <-.
    destruct (forward_propagation_local_commute l l1 l12 x y o1 o2 i j)
      as (l2 & Hy' & Hx'); try done.
    destruct (IH nx o1 o2 _ _ i j (n1 :: t1) rest12 Hij Hnext Hnext2)
      as (rest2 & Hy'' & Hx'').
    destruct (forward_propagation_nonempty _ _ _ _ _ _ Hy'') as (n2 & t2 & ->).
    eexists. simpl. rewrite Hy'. simpl. rewrite Hy''. simpl.
    split; [done|]. simpl. rewrite Hx'. simpl.
    simpl in Hx''. by rewrite Hx''.
Qed.

Lemma forward_passes_commute_witness :
  ∃ (r1 r2 : list spec_float) (c12 c2 : list (node spec_float)),
    forward_propagation (FT := binary64) (TG := lp64) (DP := halves)
      (input (example_source 53 1024 (example_input 53 1024)))
      [fully_connected (example_layer 53 1024);
       fully_connected (example_head 53 1024)]
      [dec64 false 1 1; dec64 false 1 1] 2
    = Ok (r2, c2) ∧
    forward_chain (FT := binary64) (TG := lp64) (DP := halves) c2
      (example_input 53 1024) 1
    = Ok (r1, c12).
Proof.
  eexists _, _, _.
  refine (forward_passes_commute spec_float binary64 lp64 halves
    (input (example_source 53 1024 (example_input 53 1024)))
    [fully_connected (example_layer 53 1024);
     fully_connected (example_head 53 1024)]
    (example_input 53 1024) [dec64 false 1 1; dec64 false 1 1] _ _ 1 2 _ _
    _ _ _).
  - discriminate.
  - reflexivity.
  - reflexivity.
Defined.

(** X4.  The iterations of the two loops of [forward_propagation] can be run
    in any order.  Each iteration [i] of the first loop writes [a[i]] alone,
    from the weights, the bias and the input; each iteration of the second
    writes [out[i]] alone, from the finished [a].  So, with buffers of the
    sizes of the data model, running the first loop over any permutation of
    the output indices and then the second over any other leaves the same
    [a_] and [output_], and returns the same vector, as the loops in
    increasing order. *)
Theorem forward_propagation_in_any_order
  (float_t : Type) (FT : Float_t float_t) (TG : Target) (DP : Dispatch)
  (l : fully_connected_layer float_t) (in_ : list float_t) (index : nat)
  (ws : worker_storage float_t) (order_a order_out : list nat) :
  layer_invariant l →
  worker_storage_ l !! index = Some ws →
  worker_invariant l ws →
  in_size_ l ≤ length in_ →
  order_a ≡ₚ seq 0 (out_size_ l) →
  order_out ≡ₚ seq 0 (out_size_ l) →
  forward_propagation_scheduled l in_ index order_a order_out
  = forward_propagation_local l in_ index ∧
  forward_propagation_local l in_ index
  = Ok (outputs l in_,
        with_worker_storage l index
          (with_a_output ws (pre_activations l in_) (outputs l in_))).
Proof.
  intros Hl Hws Hw Hin Ha Hout.
  pose proof (invariant_bias_length l Hl) as Hb.
  destruct Hl as [Hfit HW _ _ _ _], Hw as [Hla Hlo _ _ _].
  assert (Hlocal : forward_propagation_local l in_ index
            = Ok (outputs l in_,
                  with_worker_storage l index
                    (with_a_output ws (pre_activations l in_) (outputs l in_))))
    by (apply forward_propagation_local_ok; (done || lia)).
  split; [|done]. rewrite Hlocal.
  unfold forward_propagation_scheduled, get_worker_storage. rewrite Hws. simpl.
  rewrite (for_each_tabulate _ (pre_activation l in_) (out_size_ l));
    [|intros i w Hi Hlw; apply forward_a_ok; (done || lia) | done | done].
  simpl. fold (pre_activations l in_).
  rewrite (for_each_tabulate _
    (activation.f (h_ l) (pre_activations l in_)) (out_size_ l));
    [done | | done | done].
  intros i w Hi Hlw. unfold forward_out. apply vset_lt. lia.
Qed.

Lemma forward_propagation_in_any_order_witness :
  forward_propagation_scheduled (FT := binary64) (TG := lp64)
    (example_head 53 1024) [dec64 true 9 10] 1 [1; 0] [1; 0]
  = forward_propagation_local (FT := binary64) (TG := lp64) (DP := halves)
      (example_head 53 1024) [dec64 true 9 10] 1.
Proof.
  refine (proj1
    (forward_propagation_in_any_order spec_float binary64 lp64 halves
       (example_head 53 1024) [dec64 true 9 10] 1
       {| a_ := [S754_zero false; S754_zero false];
          output_ := [S754_zero false; S754_zero false];
          prev_delta_ := [S754_zero false];
          dW_ := [S754_zero false; S754_zero false];
          db_ := [] |}
       [1; 0] [1; 0] _ _ _ _ _ _)).
  - split; by vm_compute.
  - reflexivity.
  - split; reflexivity.
  - vm_compute. lia.
  - by apply (bool_decide_unpack _).
  - by apply (bool_decide_unpack _).
Defined.

(** X5.  [forward_propagation] resizes nothing: in whatever it returns, every
    node of the chain has the dimensions and the buffer lengths it had, so a
    node whose buffers had the sizes of the data model still has them. *)
Theorem forward_propagation_keeps_shapes
  (float_t : Type) (FT : Float_t float_t) (TG : Target) (DP : Dispatch)
  (this : node float_t) (next_ : list (node float_t)) (in_ res : list float_t)
  (index : nat) (chain : list (node float_t)) :
  forward_propagation this next_ in_ index = Ok (res, chain) →
  node_shape <$> chain = node_shape <$> (this :: next_) ∧
  Forall2 (λ n n', ∀ j, node_ready j n → node_ready j n') (this :: next_) chain.
Proof.
  intros Hrun. apply forward_propagation_shape in Hrun.
  split; [done | by apply nodes_ready_shape].
Qed.

Lemma forward_propagation_keeps_shapes_witness :
  ∃ (res : list spec_float) (chain : list (node spec_float)),
    forward_propagation (FT := binary64) (TG := lp64) (DP := halves)
      (input (example_source 53 1024 (example_input 53 1024)))
      [fully_connected (example_layer 53 1024);
       fully_connected (example_head 53 1024)]
      (example_input 53 1024) 1
    = Ok (res, chain) ∧
    node_shape <$> chain = node_shape <$> example_chain 53 1024.
Proof.
  eexists _, _. split; [reflexivity|].
  refine (proj1
    (forward_propagation_keeps_shapes spec_float binary64 lp64 halves
       (input (example_source 53 1024 (example_input 53 1024)))
       [fully_connected (example_layer 53 1024);
        fully_connected (example_head 53 1024)]
       (example_input 53 1024) _ 1 _ _)).
  reflexivity.
Defined.

(** X6.  [back_propagation] resizes nothing either: every node of the chain it
    returns has the dimensions and the buffer lengths it had. *)
Theorem back_propagation_keeps_shapes
  (float_t : Type) (FT : Float_t float_t) (TG : Target) (DP : Dispatch)
  (this : node float_t) (prev_ : list (node float_t))
  (curr_delta res : list float_t) (index : nat) (chain : list (node float_t)) :
  back_propagation this prev_ curr_delta index = Ok (res, chain) →
  node_shape <$> chain = node_shape <$> (this :: prev_) ∧
  Forall2 (λ n n', ∀ j, node_ready j n → node_ready j n') (this :: prev_) chain.
Proof.
  intros Hrun. apply back_propagation_shape in Hrun.
  split; [done | by apply nodes_ready_shape].
Qed.

Lemma back_propagation_keeps_shapes_witness :
  ∃ (res : list spec_float) (chain : list (node spec_float)),
    back_propagation (FT := binary64) (TG := lp64) (DP := halves)
      (fully_connected (example_head 53 1024))
      [fully_connected (example_layer 53 1024);
       input (example_source 53 1024 (example_input 53 1024))]
      [dec64 false 1 1; dec64 false 3 1] 1
    = Ok (res, chain) ∧
    node_shape <$> chain = node_shape <$> reverse (example_chain 53 1024).
Proof.
  eexists _, _. split; [reflexivity|].
  refine (proj1
    (back_propagation_keeps_shapes spec_float binary64 lp64 halves
       (fully_connected (example_head 53 1024))
       [fully_connected (example_layer 53 1024);
        input (example_source 53 1024 (example_input 53 1024))]
       [dec64 false 1 1; dec64 false 3 1] _ 1 _ _)).
  reflexivity.
Defined.

(** X7.  Nor does [back_propagation_2nd]: every node of the chain it returns
    has the dimensions and the buffer lengths it had. *)
Theorem back_propagation_2nd_keeps_shapes
  (float_t : Type) (FT : Float_t float_t) (TG : Target)
  (this : node float_t) (prev_ : list (node float_t))
  (current_delta2 res : list float_t) (chain : list (node float_t)) :
  back_propagation_2nd this prev_ current_delta2 = Ok (res, chain) →
  node_shape <$> chain = node_shape <$> (this :: prev_) ∧
  Forall2 (λ n n', ∀ j, node_ready j n → node_ready j n') (this :: prev_) chain.
Proof.
  intros Hrun. apply back_propagation_2nd_shape in Hrun.
  split; [done | by apply nodes_ready_shape].
Qed.

Lemma back_propagation_2nd_keeps_shapes_witness :
  ∃ (res : list spec_float) (chain : list (node spec_float)),
    back_propagation_2nd (FT := binary64) (TG := lp64)
      (fully_connected (example_head 53 1024))
      [fully_connected (example_layer 53 1024);
       input (example_source 53 1024 (example_input 53 1024))]
      [dec64 false 1 1; dec64 false 3 1]
    = Ok (res, chain) ∧
    node_shape <$> chain = node_shape <$> reverse (example_chain 53 1024).
Proof.
  eexists _, _. split; [reflexivity|].
  refine (proj1
    (back_propagation_2nd_keeps_shapes spec_float binary64 lp64
       (fully_connected (example_head 53 1024))
       [fully_connected (example_layer 53 1024);
        input (example_source 53 1024 (example_input 53 1024))]
       [dec64 false 1 1; dec64 false 3 1] _ _ _)).
  reflexivity.
Defined.

(** X8.  Whatever [back_propagation] returns for worker id [index], it has
    written nothing but the [prev_delta_], [dW_] and [db_] of that worker: the
    layer it leaves has the weights, the bias, the Hessian accumulators, the
    worker's [a_] and [output_] and every other worker's storage as before,
    and so has every node upstream. *)
Theorem back_propagation_frame
  (float_t : Type) (FT : Float_t float_t) (TG : Target) (DP : Dispatch)
  (l : fully_connected_layer float_t) (prev_ : list (node float_t))
  (curr_delta res : list float_t) (index : nat) (chain : list (node float_t)) :
  back_propagation (fully_connected l) prev_ curr_delta index = Ok (res, chain) →
  ∃ (l' : fully_connected_layer float_t) (rest : list (node float_t))
    (ws ws' : worker_storage float_t),
    chain = fully_connected l' :: rest ∧
    worker_storage_ l !! index = Some ws ∧
    worker_storage_ l' !! index = Some ws' ∧
    a_ ws' = a_ ws ∧ output_ ws' = output_ ws ∧
    (∀ j, j ≠ index → worker_storage_ l' !! j = worker_storage_ l !! j) ∧
    W_ l' = W_ l ∧ b_ l' = b_ l ∧
    Whessian_ l' = Whessian_ l ∧ bhessian_ l' = bhessian_ l ∧
    prev_delta2_ l' = prev_delta2_ l ∧
    forget_gradients index <$> chain
    = forget_gradients index <$> (fully_connected l :: prev_).
Proof.
  intros Hrun.
  pose proof (back_propagation_forget_gradients _ _ _ _ _ _ Hrun) as Hforget.
  apply back_propagation_inv in Hrun
    as (ws & ws' & p & up & prev_out & rest & Hws & -> & _ & Hlocal & _ & ->).
  apply back_propagation_local_inv in Hlocal as (Ha & Ho & _).
  eexists _, rest, ws, ws'. split; [done|]. split; [done|]. split.
  { simpl. apply list_lookup_insert_eq. by eapply lookup_lt_Some. }
  do 2 (split; [done|]). split.
  { intros j Hj. simpl. by rewrite list_lookup_insert_ne. }
  by do 5 (split; [done|]).
Qed.

Lemma back_propagation_frame_witness :
  ∃ (res : list spec_float) (chain : list (node spec_float)),
    back_propagation (FT := binary64) (TG := lp64) (DP := halves)
      (fully_connected (example_head 53 1024))
      [fully_connected (example_layer 53 1024);
       input (example_source 53 1024 (example_input 53 1024))]
      [dec64 false 1 1; dec64 false 3 1] 1
    = Ok (res, chain) ∧
    forget_gradients 1 <$> chain
    = forget_gradients 1 <$> reverse (example_chain 53 1024).
Proof.
  eexists _, _. split; [reflexivity|].
  destruct (back_propagation_frame spec_float binary64 lp64 halves
       (example_head 53 1024)
       [fully_connected (example_layer 53 1024);
        input (example_source 53 1024 (example_input 53 1024))]
       [dec64 false 1 1; dec64 false 3 1] _ 1 _ eq_refl)
    as (l' & rest & ws & ws' & _ & _ & _ & _ & _ & _ & _ & _ & _ & _ & _ & Hforget).
  exact Hforget.
Defined.

(** X9.  Whatever [back_propagation_2nd] returns, it has written nothing but
    [Whessian_], [bhessian_] and [prev_delta2_]: the layer it leaves has the
    weights, the bias and every worker's storage as before, and so has every
    node upstream. *)
Theorem back_propagation_2nd_frame
  (float_t : Type) (FT : Float_t float_t) (TG : Target)
  (l : fully_connected_layer float_t) (prev_ : list (node float_t))
  (current_delta2 res : list float_t) (chain : list (node float_t)) :
  back_propagation_2nd (fully_connected l) prev_ current_delta2
  = Ok (res, chain) →
  ∃ (l' : fully_connected_layer float_t) (rest : list (node float_t)),
    chain = fully_connected l' :: rest ∧
    W_ l' = W_ l ∧ b_ l' = b_ l ∧ worker_storage_ l' = worker_storage_ l ∧
    forget_hessian <$> chain = forget_hessian <$> (fully_connected l :: prev_).
Proof.
  intros Hrun.
  pose proof (back_propagation_2nd_forget_hessian _ _ _ _ _ Hrun) as Hforget.
  apply back_propagation_2nd_inv in Hrun
    as (l' & p & up & prev_out & rest & -> & _ & Hlocal & _ & ->).
  apply back_propagation_2nd_local_inv in Hlocal as (Wh & bh & pd2 & -> & _).
  by eexists _, rest.
Qed.

Lemma back_propagation_2nd_frame_witness :
  ∃ (res : list spec_float) (chain : list (node spec_float)),
    back_propagation_2nd (FT := binary64) (TG := lp64)
      (fully_connected (example_head 53 1024))
      [fully_connected (example_layer 53 1024);
       input (example_source 53 1024 (example_input 53 1024))]
      [dec64 false 1 1; dec64 false 3 1]
    = Ok (res, chain) ∧
    forget_hessian <$> chain = forget_hessian <$> reverse (example_chain 53 1024).
Proof.
  eexists _, _. split; [reflexivity|].
  destruct (back_propagation_2nd_frame spec_float binary64 lp64
       (example_head 53 1024)
       [fully_connected (example_layer 53 1024);
        input (example_source 53 1024 (example_input 53 1024))]
       [dec64 false 1 1; dec64 false 3 1] _ _ eq_refl)
    as (l' & rest & _ & _ & _ & _ & Hforget).
  exact Hforget.
Defined.

(** X10.  From a layer whose upstream chain reaches an input node through
    dense layers that are ready and whose cached outputs have the input sizes
    of the layers they feed, [back_propagation] on a delta of the layer's
    output size returns: the recursion ends at the input node, the vector
    returned has the input size of the most upstream dense layer, and the
    chain is left ready for the next backward pass. *)
Theorem back_propagation_total
  (float_t : Type) (FT : Float_t float_t) (TG : Target) (DP : Dispatch)
  (this : node float_t) (prev_ : list (node float_t)) (curr_delta : list float_t)
  (index n : nat) :
  backward_ready index n (length curr_delta) this prev_ →
  ∃ (res : list float_t) (this' : node float_t) (prev_' : list (node float_t)),
    back_propagation this prev_ curr_delta index = Ok (res, this' :: prev_') ∧
    length res = n ∧
    backward_ready index n (length curr_delta) this' prev_'.
Proof.
  intros Hready.
  destruct (back_propagation_returns prev_ this curr_delta index n Hready)
    as (res & chain & Hrun & Hres).
  pose proof (back_propagation_forget_gradients _ _ _ _ _ _ Hrun) as Hforget.
  pose proof (back_propagation_shape _ _ _ _ _ _ Hrun) as Hshape.
  destruct chain as [|this' prev_']; [done|].
  exists res, this', prev_'. split; [done|]. split; [done|].
  apply (backward_ready_kept index n prev_ this); [|done].
  by apply (kept_forget_gradients index).
Qed.

Lemma back_propagation_total_witness :
  ∃ (res : list spec_float) (this' : node spec_float)
    (prev_' : list (node spec_float)),
    back_propagation (FT := binary64) (TG := lp64) (DP := halves)
      (fully_connected (example_head 53 1024))
      [fully_connected (example_layer 53 1024);
       input (example_source 53 1024 (example_input 53 1024))]
      [dec64 false 1 1; dec64 false 3 1] 1
    = Ok (res, this' :: prev_') ∧
    length res = 2 ∧
    backward_ready (TG := lp64) 1 2 2 this' prev_'.
Proof.
  refine (back_propagation_total spec_float binary64 lp64 halves
    (fully_connected (example_head 53 1024))
    [fully_connected (example_layer 53 1024);
     input (example_source 53 1024 (example_input 53 1024))]
    [dec64 false 1 1; dec64 false 3 1] 1 2 _).
  chain_is_ready.
Defined.

(** X11.  Likewise [back_propagation_2nd], which needs no worker's scratch
    buffers and reads the upstream outputs cached for worker 0: along such a
    chain it returns a vector of the input size of the most upstream dense
    layer, and leaves the chain ready for the next second-order pass. *)
Theorem back_propagation_2nd_total
  (float_t : Type) (FT : Float_t float_t) (TG : Target)
  (this : node float_t) (prev_ : list (node float_t))
  (current_delta2 : list float_t) (n : nat) :
  backward_2nd_ready n (length current_delta2) this prev_ →
  ∃ (res : list float_t) (this' : node float_t) (prev_' : list (node float_t)),
    back_propagation_2nd this prev_ current_delta2 = Ok (res, this' :: prev_') ∧
    length res = n ∧
    backward_2nd_ready n (length current_delta2) this' prev_'.
Proof.
  intros Hready.
  destruct (back_propagation_2nd_returns prev_ this current_delta2 n Hready)
    as (res & chain & Hrun & Hres).
  pose proof (back_propagation_2nd_forget_hessian _ _ _ _ _ Hrun) as Hforget.
  pose proof (back_propagation_2nd_shape _ _ _ _ _ Hrun) as Hshape.
  destruct chain as [|this' prev_']; [done|].
  exists res, this', prev_'. split; [done|]. split; [done|].
  apply (backward_2nd_ready_kept n prev_ this); [|done].
  by apply kept_forget_hessian.
Qed.

Lemma back_propagation_2nd_total_witness :
  ∃ (res : list spec_float) (this' : node spec_float)
    (prev_' : list (node spec_float)),
    back_propagation_2nd (FT := binary64) (TG := lp64)
      (fully_connected (example_head 53 1024))
      [fully_connected (example_layer 53 1024);
       input (example_source 53 1024 (example_input 53 1024))]
      [dec64 false 1 1; dec64 false 3 1]
    = Ok (res, this' :: prev_') ∧
    length res = 2 ∧
    backward_2nd_ready (TG := lp64) 2 2 this' prev_'.
Proof.
  refine (back_propagation_2nd_total spec_float binary64 lp64
    (fully_connected (example_head 53 1024))
    [fully_connected (example_layer 53 1024);
     input (example_source 53 1024 (example_input 53 1024))]
    [dec64 false 1 1; dec64 false 3 1] 2 _).
  chain_is_ready.
Defined.

(** X12.  A forward pass prepares the backward passes.  On a chain made of an
    input node followed by dense layers whose sizes agree, after
    [forward_propagation] from the input node, [back_propagation] from the
    last node with the same worker id, on any delta of the length of the
    forward result, returns a vector of the length of the forward input; and
    so does [back_propagation_2nd] when the forward pass ran as worker 0. *)
Theorem forward_then_backward
  (float_t : Type) (FT : Float_t float_t) (TG : Target) (DP : Dispatch)
  (li : input_layer float_t) (ls : list (fully_connected_layer float_t))
  (in_ : list float_t) (index : nat) :
  forward_ready index (length in_) (input li :: (fully_connected <$> ls)) →
  ∃ (res : list float_t) (chain : list (node float_t)) (last : node float_t)
    (prevs : list (node float_t)),
    forward_propagation (input li) (fully_connected <$> ls) in_ index
    = Ok (res, chain) ∧
    reverse chain = last :: prevs ∧
    (∀ delta : list float_t,
       length delta = length res →
       ∃ (r : list float_t) (c : list (node float_t)),
         back_propagation last prevs delta index = Ok (r, c) ∧
         length r = length in_) ∧
    (index = 0 →
     ∀ delta2 : list float_t,
       length delta2 = length res →
       ∃ (r : list float_t) (c : list (node float_t)),
         back_propagation_2nd last prevs delta2 = Ok (r, c) ∧
         length r = length in_).
Proof.
  intros Hready.
  destruct (forwarded_backward_ready index (length in_) ls (input li) in_ [])
    as (last & prevs & Hrev & Hback); [done | done |].
  rewrite app_nil_r in Hrev.
  exists (chain_outputs (input li :: (fully_connected <$> ls)) in_),
    (forwarded index (input li :: (fully_connected <$> ls)) in_), last, prevs.
  split; [by apply forward_chain_ok|]. split; [done|].
  rewrite (length_chain_outputs index) by done. split.
  - intros delta Hdelta. apply back_propagation_returns. by rewrite Hdelta.
  - intros -> delta2 Hdelta. apply back_propagation_2nd_returns.
    apply backward_ready_2nd. by rewrite Hdelta.
Qed.

Lemma forward_then_backward_witness :
  ∃ (res : list spec_float) (chain : list (node spec_float))
    (last : node spec_float) (prevs : list (node spec_float)),
    forward_propagation (FT := binary64) (TG := lp64) (DP := halves)
      (input (example_source 53 1024 (example_input 53 1024)))
      (fully_connected <$> [example_layer 53 1024; example_head 53 1024])
      (example_input 53 1024) 0
    = Ok (res, chain) ∧
    reverse chain = last :: prevs ∧
    (∀ delta : list spec_float,
       length delta = length res →
       ∃ (r : list spec_float) (c : list (node spec_float)),
         back_propagation (FT := binary64) (TG := lp64) (DP := halves)
           last prevs delta 0 = Ok (r, c) ∧
         length r = length (example_input 53 1024)) ∧
    (0 = 0 →
     ∀ delta2 : list spec_float,
       length delta2 = length res →
       ∃ (r : list spec_float) (c : list (node spec_float)),
         back_propagation_2nd (FT := binary64) (TG := lp64)
           last prevs delta2 = Ok (r, c) ∧
         length r = length (example_input 53 1024)).
Proof.
  refine (forward_then_backward spec_float binary64 lp64 halves
    (example_source 53 1024 (example_input 53 1024))
    [example_layer 53 1024; example_head 53 1024]
    (example_input 53 1024) 0 _).
  chain_is_ready.
Defined.

(** X13.  [back_propagation] accumulates across calls and resets nothing.
    Called again with the same delta on the chain that a first call left, the
    layer hands the same delta upstream as the first time, while every
    [dW[c*out_size+i]] has by then received [curr_delta[i]*prev_out[c]] twice
    and, with bias, every [db[i]] has received [curr_delta[i]] twice. *)
Theorem back_propagation_twice
  (float_t : Type) (FT : Float_t float_t) (TG : Target) (DP : Dispatch)
  (l : fully_connected_layer float_t) (p : node float_t)
  (up : list (node float_t)) (curr_delta : list float_t) (index : nat)
  (ws : worker_storage float_t) (prev_out res : list float_t)
  (chain : list (node float_t)) :
  layer_invariant l →
  worker_storage_ l !! index = Some ws →
  worker_invariant l ws →
  output p index = Ok prev_out →
  length prev_out = in_size_ l →
  length curr_delta = out_size_ l →
  back_propagation (fully_connected l) (p :: up) curr_delta index
  = Ok (res, chain) →
  ∃ (ws1 ws2 : worker_storage float_t) (rest : list (node float_t)),
    chain = fully_connected (with_worker_storage l index ws1) :: rest ∧
    back_chain chain curr_delta index
    = ('(res', chain') ← back_chain rest (prev_delta_ ws2) index;
       Ok (res', fully_connected (with_worker_storage l index ws2) :: chain')) ∧
    prev_delta_ ws2 = prev_delta_ ws1 ∧
    (∀ c i, c < in_size_ l → i < out_size_ l →
       dW_ ws2 !! (c * out_size_ l + i)
       = Some (at_ (dW_ ws) (c * out_size_ l + i)
               ⊞ at_ curr_delta i ⊠ at_ prev_out c
               ⊞ at_ curr_delta i ⊠ at_ prev_out c)) ∧
    (has_bias_ l = true →
     ∀ i, i < out_size_ l →
       db_ ws2 !! i
       = Some (at_ (db_ ws) i ⊞ at_ curr_delta i ⊞ at_ curr_delta i)).
Proof.
  intros Hl Hws Hw Hpo Hlen Hd Hrun.
  rewrite (back_propagation_fully_connected l p up curr_delta index ws prev_out)
    in Hrun by (done || lia).
  apply bind_Ok_inv in Hrun as ([res0 rest] & Hup & Hrun).
  injection Hrun as <- <-.
  destruct (back_propagation_upstream_kept _ _ _ _ _ _ Hup)
    as (p1 & up1 & -> & Hpo1 & Hh1).
  pose (ws1 := back_propagated l ws prev_out (activation_function p) curr_delta).
  pose (l1 := with_worker_storage l index ws1).
  exists ws1,
    (back_propagated l1 ws1 prev_out (activation_function p) curr_delta),
    (p1 :: up1).
  pose proof (back_propagated_invariant l ws prev_out (activation_function p)
                curr_delta Hw) as Hw1.
  split; [done|]. split.
  { cbn [back_chain]. fold ws1. fold l1.
    rewrite (back_propagation_fully_connected l1 p1 up1 curr_delta index ws1
               prev_out).
    - rewrite Hh1.
      assert (Hins : ∀ w', with_worker_storage l1 index w'
                           = with_worker_storage l index w')
        by (intros w'; apply with_worker_storage_twice).
      by rewrite Hins.
    - by apply layer_invariant_with_worker_storage.
    - simpl. apply list_lookup_insert_eq. by eapply lookup_lt_Some.
    - by apply worker_invariant_with_worker_storage.
    - by rewrite Hpo1.
    - simpl. lia.
    - simpl. lia. }
  split; [done|].
  destruct Hl as [_ _ _ _ _ _], Hw as [_ _ _ HdW Hdb]. split.
  - intros c i Hc Hi. simpl. unfold accumulated_dW.
    pose proof (row_major_lt (in_size_ l) (out_size_ l) c i Hc Hi) as Hlt.
    rewrite lookup_outer_step by (rewrite ?length_imap, ?HdW; done).
    rewrite at_outer_step by (rewrite ?HdW; done). done.
  - intros Hbias i Hi. simpl. unfold accumulated_db. simpl. rewrite Hbias.
    rewrite Hbias in Hdb.
    rewrite lookup_bias_step by (rewrite ?length_imap, ?Hdb; done).
    rewrite at_bias_step by (rewrite ?Hdb; done). done.
Qed.

Lemma back_propagation_twice_witness :
  ∃ ws2 : worker_storage spec_float,
    dW_ ws2 !! 1 = Some (dec64 false 24 1) ∧
    db_ ws2 !! 0 = Some (dec64 false 6 1).
Proof.
  assert (Hl : layer_invariant (TG := lp64) (example_layer 53 1024))
    by (split; by vm_compute).
  assert (Hw : worker_invariant (example_layer 53 1024)
                 {| a_ := [S754_zero false]; output_ := [S754_zero false];
                    prev_delta_ := [S754_zero false; S754_zero false];
                    dW_ := [S754_zero false; S754_zero false];
                    db_ := [S754_zero false] |})
    by (split; reflexivity).
  destruct (back_propagation_twice spec_float binary64 lp64 halves
       (example_layer 53 1024)
       (input (example_source 53 1024 (example_input 53 1024))) []
       [dec64 false 3 1] 1 _ (example_input 53 1024) _ _
       Hl eq_refl Hw eq_refl eq_refl eq_refl eq_refl)
    as (ws1 & ws2 & rest & _ & _ & _ & HdW & Hdb).
  exists ws2. split.
  - exact (HdW 1 0 (le_n 2) (le_n 1)).
  - exact (Hdb eq_refl 0 (le_n 1)).
Defined.

(** X14.  [back_propagation_2nd] accumulates across calls too.  Called again
    with the same delta on the chain that a first call left, the layer hands
    the same [prev_delta2_] upstream as the first time, while every
    [Whessian_[c*out_size+r]] has by then received
    [current_delta2[r]*prev_out[c]^2] twice and, with bias, every
    [bhessian_[r]] has received [current_delta2[r]] twice. *)
Theorem back_propagation_2nd_twice
  (float_t : Type) (FT : Float_t float_t) (TG : Target)
  (l : fully_connected_layer float_t) (p : node float_t)
  (up : list (node float_t)) (current_delta2 prev_out res : list float_t)
  (chain : list (node float_t)) :
  layer_invariant l →
  output p 0 = Ok prev_out →
  length prev_out = in_size_ l →
  length current_delta2 = out_size_ l →
  back_propagation_2nd (fully_connected l) (p :: up) current_delta2
  = Ok (res, chain) →
  ∃ (l1 l2 : fully_connected_layer float_t) (rest : list (node float_t)),
    chain = fully_connected l1 :: rest ∧
    back_chain_2nd chain current_delta2
    = ('(res', chain') ← back_chain_2nd rest (prev_delta2_ l2);
       Ok (res', fully_connected l2 :: chain')) ∧
    prev_delta2_ l2 = prev_delta2_ l1 ∧
    W_ l2 = W_ l ∧ b_ l2 = b_ l ∧ worker_storage_ l2 = worker_storage_ l ∧
    (∀ c r, c < in_size_ l → r < out_size_ l →
       Whessian_ l2 !! (c * out_size_ l + r)
       = Some (at_ (Whessian_ l) (c * out_size_ l + r)
               ⊞ at_ current_delta2 r ⊠ sqr (at_ prev_out c)
               ⊞ at_ current_delta2 r ⊠ sqr (at_ prev_out c))) ∧
    (has_bias_ l = true →
     ∀ r, r < out_size_ l →
       bhessian_ l2 !! r
       = Some (at_ (bhessian_ l) r ⊞ at_ current_delta2 r
               ⊞ at_ current_delta2 r)).
Proof.
  intros Hl Hpo Hlen Hd Hrun.
  rewrite (back_propagation_2nd_fully_connected l p up current_delta2 prev_out)
    in Hrun by (done || lia).
  apply bind_Ok_inv in Hrun as ([res0 rest] & Hup & Hrun).
  injection Hrun as <- <-.
  destruct (back_propagation_2nd_upstream_kept _ _ _ _ _ Hup)
    as (p1 & up1 & -> & Hpo1 & Hh1).
  pose (l1 := back_propagated_2nd l prev_out (activation_function p)
                current_delta2).
  exists l1,
    (back_propagated_2nd l1 prev_out (activation_function p) current_delta2),
    (p1 :: up1).
  split; [done|]. split.
  { cbn [back_chain_2nd]. fold l1.
    rewrite (back_propagation_2nd_fully_connected l1 p1 up1 current_delta2
               prev_out).
    - by rewrite Hh1.
    - by apply back_propagated_2nd_invariant.
    - by rewrite Hpo1.
    - simpl. lia.
    - simpl. lia. }
  do 4 (split; [done|]).
  destruct Hl as [_ _ _ HWh Hbh _]. split.
  - intros c r Hc Hr. simpl. unfold accumulated_Whessian.
    pose proof (row_major_lt (in_size_ l) (out_size_ l) c r Hc Hr) as Hlt.
    rewrite lookup_outer_step by (rewrite ?length_imap, ?HWh; done).
    rewrite at_outer_step by (rewrite ?HWh; done). done.
  - intros Hbias r Hr. simpl. unfold accumulated_bhessian. simpl.
    rewrite Hbias. rewrite Hbias in Hbh.
    rewrite lookup_bias_step by (rewrite ?length_imap, ?Hbh; done).
    rewrite at_bias_step by (rewrite ?Hbh; done). done.
Qed.

Lemma back_propagation_2nd_twice_witness :
  ∃ l2 : fully_connected_layer spec_float,
    Whessian_ l2 !! 1 = Some (dec64 false 96 1) ∧
    bhessian_ l2 !! 0 = Some (dec64 false 6 1).
Proof.
  assert (Hl : layer_invariant (TG := lp64) (example_layer 53 1024))
    by (split; by vm_compute).
  destruct (back_propagation_2nd_twice spec_float binary64 lp64
       (example_layer 53 1024)
       (input (example_source 53 1024 (example_input 53 1024))) []
       [dec64 false 3 1] (example_input 53 1024) _ _
       Hl eq_refl eq_refl eq_refl eq_refl)
    as (l1 & l2 & rest & _ & _ & _ & _ & _ & _ & HWh & Hbh).
  exists l2. split.
  - exact (HWh 1 0 (le_n 2) (le_n 1)).
  - exact (Hbh eq_refl 0 (le_n 1)).
Defined.

(** X15.  Along a chain that is ready for it, [back_propagation] does not
    depend on how the dispatcher cuts the output range into blocks: under any
    two dispatchers it returns the same vector and leaves the same chain. *)
Theorem back_propagation_any_dispatcher
  (float_t : Type) (FT : Float_t float_t) (TG : Target) (D1 D2 : Dispatch)
  (this : node float_t) (prev_ : list (node float_t)) (curr_delta : list float_t)
  (index n : nat) :
  backward_ready index n (length curr_delta) this prev_ →
  back_propagation (DP := D1) this prev_ curr_delta index
  = back_propagation (DP := D2) this prev_ curr_delta index.
Proof.
  revert this curr_delta index n.
  induction prev_ as [|p up IH]; intros this d index n Hready;
    destruct this as [l|l]; simpl in Hready; try done.
  destruct Hready as (Hd & (Hl & ws & Hws & Hw) & (po & Hpo & Hlen) & Hup).
  rewrite (back_propagation_fully_connected (DP := D1) l p up d index ws po)
    by (done || lia).
  rewrite (back_propagation_fully_connected (DP := D2) l p up d index ws po)
    by (done || lia).
  rewrite (IH p _ index n); [done|]. by rewrite length_tabulate.
Qed.

Lemma back_propagation_any_dispatcher_witness :
  back_propagation (FT := binary64) (TG := lp64) (DP := sequential)
    (fully_connected (example_head 53 1024))
    [fully_connected (example_layer 53 1024);
     input (example_source 53 1024 (example_input 53 1024))]
    [dec64 false 1 1; dec64 false 3 1] 1
  = back_propagation (FT := binary64) (TG := lp64) (DP := halves)
      (fully_connected (example_head 53 1024))
      [fully_connected (example_layer 53 1024);
       input (example_source 53 1024 (example_input 53 1024))]
      [dec64 false 1 1; dec64 false 3 1] 1.
Proof.
  refine (back_propagation_any_dispatcher spec_float binary64 lp64
    sequential halves
    (fully_connected (example_head 53 1024))
    [fully_connected (example_layer 53 1024);
     input (example_source 53 1024 (example_input 53 1024))]
    [dec64 false 1 1; dec64 false 3 1] 1 2 _).
  chain_is_ready.
Defined.

(** X16.  A layer as the constructor leaves it is ready for every worker id
    below [CNN_TASK_SIZE], provided that the weight count
    [size_t(in_dim)*out_dim] that the constructor computes does not wrap, and
    that the dimensions fit [cnn_size_t]: its buffers then have the sizes
    that the passes index them by. *)
Theorem new_layer_is_ready
  (float_t : Type) (FT : Float_t float_t) (TG : Target)
  (h : activation.function float_t) (in_dim out_dim : nat) (has_bias : bool)
  (index : nat) :
  fits_cnn_size in_dim out_dim →
  (N.of_nat in_dim < 2 ^ size_t_bits)%N →
  (N.of_nat in_dim * N.of_nat out_dim < 2 ^ size_t_bits)%N →
  index < CNN_TASK_SIZE →
  node_ready index
    (fully_connected (new_fully_connected_layer h in_dim out_dim has_bias)).
Proof.
  intros Hfit Hin Hprod Hindex. unfold new_fully_connected_layer.
  rewrite weight_dim_fits by done. split.
  - split; simpl; rewrite ?length_replicate; done.
  - eexists. split; [by apply lookup_replicate_2|].
    split; simpl; rewrite ?length_replicate; done.
Qed.

Lemma new_layer_is_ready_witness :
  node_ready (TG := lp64) 7
    (fully_connected
       (new_fully_connected_layer (FT := binary64) (TG := lp64)
          (activation.identity (FT := binary64) (dec64 false 1 1)) 3 2 true)).
Proof.
  refine (new_layer_is_ready spec_float binary64 lp64
    (activation.identity (FT := binary64) (dec64 false 1 1)) 3 2 true 7
    _ _ _ _).
  - by vm_compute.
  - reflexivity.
  - reflexivity.
  - vm_compute. lia.
Defined.

(** X17.  The backward pass of a layer reads what the forward pass of the
    layer upstream cached.  After [forward_propagation] through two dense
    layers whose sizes agree, [back_propagation] from the second one, with
    the same worker id, adds [curr_delta[i]] times the first layer's output
    [c] to each [dW[c*out_size+i]] of the second, and hands upstream, at
    [c], the dot product of the delta with row [c] of the second layer's
    weights times the first layer's [df] at its output [c]. *)
Theorem backward_reads_forward_cache
  (float_t : Type) (FT : Float_t float_t) (TG : Target) (DP : Dispatch)
  (l0 l1 : fully_connected_layer float_t) (in_ curr_delta : list float_t)
  (index : nat) (ws1 : worker_storage float_t) (up : list (node float_t)) :
  forward_ready index (length in_) [fully_connected l0; fully_connected l1] →
  worker_storage_ l1 !! index = Some ws1 →
  length curr_delta = out_size_ l1 →
  ∃ (l0' l1' : fully_connected_layer float_t) (ws1' : worker_storage float_t),
    forward_propagation (fully_connected l0) [fully_connected l1] in_ index
    = Ok (outputs l1 (outputs l0 in_),
          [fully_connected l0'; fully_connected l1']) ∧
    back_propagation (fully_connected l1') (fully_connected l0' :: up)
      curr_delta index
    = ('(res, chain) ← back_propagation (fully_connected l0') up
                          (prev_delta_ ws1') index;
       Ok (res, fully_connected (with_worker_storage l1' index ws1') :: chain)) ∧
    (∀ c, c < in_size_ l1 →
       prev_delta_ ws1' !! c
       = Some (sum_of (λ r, at_ curr_delta r
                            ⊠ at_ (W_ l1) (c * out_size_ l1 + r))
                 (out_size_ l1)
               ⊠ activation.df (h_ l0) (at_ (outputs l0 in_) c))) ∧
    (∀ c i, c < in_size_ l1 → i < out_size_ l1 →
       dW_ ws1' !! (c * out_size_ l1 + i)
       = Some (at_ (dW_ ws1) (c * out_size_ l1 + i)
               ⊞ at_ curr_delta i ⊠ at_ (outputs l0 in_) c)).
Proof.
  intros Hready Hws1 Hd.
  pose proof (forward_chain_ok index _ _ _ Hready) as Hrun.
  pose proof (forwarded_ready index _ _ Hready) as Hready'.
  destruct Hready as ((Hl0 & ws0 & Hws0 & Hw0) & Hin & (Hl1 & ws1_ & Hws1_ & Hw1)
                      & Hacc & _).
  assert (ws1_ = ws1) as -> by congruence.
  simpl in Hin, Hacc.
  cbn [forwarded chain_outputs node_outputs forwarded_node] in Hrun, Hready'.
  pose (l0' := forwarded_layer l0 index in_).
  pose (l1' := forwarded_layer l1 index (outputs l0 in_)).
  pose (ws1f := with_a_output ws1 (pre_activations l1 (outputs l0 in_))
                  (outputs l1 (outputs l0 in_))).
  assert (Hl1' : l1' = with_worker_storage l1 index ws1f).
  { unfold l1', forwarded_layer. by rewrite Hws1. }
  destruct Hready' as (_ & _ & (Hl1inv & _) & _).
  fold l1' in Hl1inv.
  exists l0', l1',
    (back_propagated l1' ws1f (outputs l0 in_) (h_ l0) curr_delta).
  split; [exact Hrun|].
  assert (Hh0 : activation_function (fully_connected l0') = h_ l0).
  { simpl. unfold l0', forwarded_layer. by rewrite Hws0. }
  split.
  { rewrite (back_propagation_fully_connected l1' (fully_connected l0') up
               curr_delta index ws1f (outputs l0 in_)).
    - by rewrite Hh0.
    - done.
    - rewrite Hl1'. simpl. apply list_lookup_insert_eq. by eapply lookup_lt_Some.
    - rewrite Hl1'. destruct Hw1 as [? ? ? ? ?].
      split; simpl; unfold pre_activations, outputs;
        rewrite ?length_tabulate; done.
    - apply (output_forwarded_node index (fully_connected l0)).
      split; [done|]. by exists ws0.
    - rewrite Hl1', length_outputs. simpl. lia.
    - rewrite Hl1'. simpl. lia. }
  destruct Hw1 as [_ _ _ HdW _]. rewrite Hl1'. split.
  - intros c Hc. simpl. by rewrite lookup_tabulate.
  - intros c i Hc Hi. simpl. unfold accumulated_dW. simpl.
    pose proof (row_major_lt (in_size_ l1) (out_size_ l1) c i Hc Hi) as Hlt.
    by rewrite lookup_outer_step by (rewrite ?HdW; done).
Qed.

Lemma backward_reads_forward_cache_witness :
  ∃ ws1' : worker_storage spec_float,
    prev_delta_ ws1' !! 0 = Some (dec64 true 1 1) ∧
    dW_ ws1' !! 1 = Some (dec64 true 27 10).
Proof.
  destruct (backward_reads_forward_cache spec_float binary64 lp64 halves
       (example_layer 53 1024) (example_head 53 1024)
       (example_input 53 1024) [dec64 false 1 1; dec64 false 3 1] 1
       {| a_ := [S754_zero false; S754_zero false];
          output_ := [S754_zero false; S754_zero false];
          prev_delta_ := [S754_zero false];
          dW_ := [S754_zero false; S754_zero false];
          db_ := [] |}
       [input (example_source 53 1024 (example_input 53 1024))])
    as (l0' & l1' & ws1' & _ & _ & Hpd & HdW).
  - chain_is_ready.
  - reflexivity.
  - reflexivity.
  - exists ws1'. split.
    + exact (Hpd 0 (le_n 1)).
    + exact (HdW 0 1 (le_n 1) (le_n 2)).
Defined.

(** X18.  Backward passes under two different worker ids commute: run one
    after the other in either order, they return the same two vectors and
    leave the same chain.  This is what lets each worker accumulate the
    gradients of its own samples.  No condition on the sizes is needed. *)
Theorem back_passes_commute
  (float_t : Type) (FT : Float_t float_t) (TG : Target) (DP : Dispatch)
  (this : node float_t) (prev_ : list (node float_t)) (d e r1 r2 : list float_t)
  (i j : nat) (c1 c12 : list (node float_t)) :
  i ≠ j →
  back_propagation this prev_ d i = Ok (r1, c1) →
  back_chain c1 e j = Ok (r2, c12) →
  ∃ c2 : list (node float_t),
    back_propagation this prev_ e j = Ok (r2, c2) ∧
    back_chain c2 d i = Ok (r1, c12).
Proof.
  revert this d e r1 r2 i j c1 c12.
  induction prev_ as [|p0 up0 IH]; intros this d e r1 r2 i j c1 c12 Hij H1 H2;
    (destruct this as [l|l];
     [simpl in H1; injection H1 as <- <-; simpl in H2; injection H2 as <- <-;
      by eexists|]);
    apply back_propagation_inv in H1
      as (wsi & wsi' & p & up & poi & rest1 & Hwsi & Hprev & Hpoi & Hloci
          & Hupi & ->); [done|].
  injection Hprev as <- <-.
  destruct (back_propagation_upstream_kept _ _ _ _ _ _ Hupi)
    as (p1 & up1 & -> & Hpo1 & Hh1).
  cbn [back_chain] in H2.
  apply back_propagation_inv in H2
    as (wsj & wsj' & p1' & up1' & poj & rest12 & Hwsj & Hprev & Hpoj & Hlocj
        & Hupj & ->).
  injection Hprev as <- <-.
  simpl in Hwsj. rewrite list_lookup_insert_ne in Hwsj by done.
  rewrite Hpo1 in Hpoj. rewrite Hh1 in Hlocj.
  change (back_propagation_local (with_worker_storage l i wsi') wsj poj
            (activation_function p0) e)
    with (back_propagation_local l wsj poj (activation_function p0) e)
    in Hlocj.
  destruct (IH p0 _ _ _ _ i j _ _ Hij Hupi Hupj) as (rest2 & Hupj' & Hupi').
  destruct (back_propagation_upstream_kept _ _ _ _ _ _ Hupj')
    as (p2 & up2 & -> & Hpo2 & Hh2).
  eexists. split.
  - simpl. unfold get_worker_storage. rewrite Hwsj. simpl. rewrite Hpoj. simpl.
    rewrite Hlocj. simpl. rewrite Hupj'. done.
  - simpl. unfold get_worker_storage. simpl.
    rewrite list_lookup_insert_ne by done. rewrite Hwsi. simpl.
    rewrite Hpo2, Hpoi. simpl. rewrite Hh2.
    change (back_propagation_local (with_worker_storage l j wsj') wsi poi
              (activation_function p0) d)
      with (back_propagation_local l wsi poi (activation_function p0) d).
    rewrite Hloci. simpl. simpl in Hupi'. rewrite Hupi'. simpl.
    unfold with_worker_storage. simpl.
    by rewrite (list_insert_insert_ne _ i j) by done.
Qed.

Lemma back_passes_commute_witness :
  ∃ (r1 r2 : list spec_float) (c12 c2 : list (node spec_float)),
    back_propagation (FT := binary64) (TG := lp64) (DP := halves)
      (fully_connected (example_head 53 1024))
      [fully_connected (example_layer 53 1024);
       input (example_source 53 1024 (example_input 53 1024))]
      [dec64 false 2 1; dec64 false 5 1] 2
    = Ok (r2, c2) ∧
    back_chain (FT := binary64) (TG := lp64) (DP := halves) c2
      [dec64 false 1 1; dec64 false 3 1] 1
    = Ok (r1, c12).
Proof.
  eexists _, _, _.
  refine (back_passes_commute spec_float binary64 lp64 halves
    (fully_connected (example_head 53 1024))
    [fully_connected (example_layer 53 1024);
     input (example_source 53 1024 (example_input 53 1024))]
    [dec64 false 1 1; dec64 false 3 1] [dec64 false 2 1; dec64 false 5 1]
    _ _ 1 2 _ _ _ _ _).
  - discriminate.
  - reflexivity.
  - reflexivity.
Defined.

(** X19.  [connection_size] counts what the constructor allocates: for a
    layer as the constructor leaves it, it is the length of [W_] plus the
    length of [b_], in [size_t] arithmetic, also when the weight count
    [size_t(in_dim)*out_dim] has wrapped; [out_dim] has to be a value of
    [size_t]. *)
Theorem connection_size_counts_parameters
  (float_t : Type) (FT : Float_t float_t) (TG : Target)
  (h : activation.function float_t) (in_dim out_dim : nat) (has_bias : bool) :
  (N.of_nat out_dim < 2 ^ size_t_bits)%N →
  connection_size (new_fully_connected_layer h in_dim out_dim has_bias)
  = size_wrap
      (N.of_nat (length (W_ (new_fully_connected_layer h in_dim out_dim has_bias)))
       + N.of_nat
           (length (b_ (new_fully_connected_layer h in_dim out_dim has_bias)))).
Proof.
  intros Hout. unfold connection_size. simpl. rewrite !length_replicate.
  rewrite N2Nat.id. do 2 f_equal. unfold size_wrap.
  destruct has_bias.
  - rewrite N.mul_1_l. by apply N.mod_small.
  - rewrite N.mul_0_l. apply N.Div0.mod_0_l.
Qed.

Lemma connection_size_counts_parameters_witness :
  connection_size (TG := ilp32)
    (new_fully_connected_layer (FT := binary32) (TG := ilp32)
       (activation.identity (FT := binary32) (dec32 false 1 1)) 3 2 true)
  = 8%N.
Proof.
  refine (connection_size_counts_parameters spec_float binary32 ilp32
    (activation.identity (FT := binary32) (dec32 false 1 1)) 3 2 true _).
  reflexivity.
Defined.

(** X20.  Two dense layers chained with sizes that do not agree are not told
    apart from a well-formed chain by any check.  When the first layer has
    fewer outputs than the second has inputs, [forward_propagation] reads past
    the end of the vector handed on (the fault [OutOfRange]); when it has
    more, the call returns, the second layer using the first [in_size]
    entries it is given. *)
Theorem mismatched_layers_in_a_chain
  (float_t : Type) (FT : Float_t float_t) (TG : Target) (DP : Dispatch)
  (l0 l1 : fully_connected_layer float_t) (rest : list (node float_t))
  (in_ : list float_t) (index : nat) :
  node_ready index (fully_connected l0) →
  node_ready index (fully_connected l1) →
  length in_ = in_size_ l0 →
  (out_size_ l0 < in_size_ l1 → 0 < out_size_ l1 →
   forward_propagation (fully_connected l0) (fully_connected l1 :: rest) in_
     index
   = Fault OutOfRange) ∧
  (in_size_ l1 < out_size_ l0 →
   ∃ chain : list (node float_t),
     forward_propagation (fully_connected l0) [fully_connected l1] in_ index
     = Ok (outputs l1 (take (in_size_ l1) (outputs l0 in_)), chain)).
Proof.
  intros (Hl0 & ws0 & Hws0 & Hw0) (Hl1 & ws1 & Hws1 & Hw1) Hin. split.
  - intros Hshort Hout.
    rewrite (forward_propagation_fully_connected l0 _ in_ index ws0)
      by (done || lia).
    assert (Hlocal : forward_propagation_local l1 (outputs l0 in_) index
                     = Fault OutOfRange).
    { apply (forward_propagation_local_short l1 _ index ws1); try done.
      by rewrite length_outputs. }
    destruct rest; cbn [forward_propagation]; by rewrite Hlocal.
  - intros Hlong.
    rewrite (forward_propagation_fully_connected l0 _ in_ index ws0)
      by (done || lia).
    rewrite (forward_propagation_fully_connected l1 [] (outputs l0 in_) index
               ws1) by (done || rewrite length_outputs; lia).
    destruct (outputs_take l1 (outputs l0 in_)) as [_ ->]. by eexists.
Qed.

Lemma mismatched_layers_in_a_chain_witness :
  forward_propagation (FT := binary64) (TG := lp64) (DP := halves)
    (fully_connected (example_layer 53 1024))
    [fully_connected (example_layer 53 1024)] (example_input 53 1024) 1
  = Fault OutOfRange.
Proof.
  refine (proj1
    (mismatched_layers_in_a_chain spec_float binary64 lp64 halves
       (example_layer 53 1024) (example_layer 53 1024) []
       (example_input 53 1024) 1 _ _ _) _ _).
  - layer_is_ready.
  - layer_is_ready.
  - reflexivity.
  - vm_compute. lia.
  - vm_compute. lia.
Defined.

(** X21.  A forward pass of another worker does not disturb the backward
    pass: after [forward_propagation] under worker id [j], entered at any
    node of the chain, [back_propagation] under a worker id [i ≠ j] from the
    last node has the same outcome as before it, fault or returned vector,
    and leaves the same nodes up to the storage of worker [j]. *)
Theorem back_propagation_ignores_other_workers
  (float_t : Type) (FT : Float_t float_t) (TG : Target) (DP : Dispatch)
  (i j : nat) (ups rest chain : list (node float_t)) (first : node float_t)
  (in_ res curr_delta : list float_t)
  (this this' : node float_t) (prev_ prev_' : list (node float_t)) :
  i ≠ j →
  forward_propagation first rest in_ j = Ok (res, chain) →
  reverse (ups ++ first :: rest) = this :: prev_ →
  reverse (ups ++ chain) = this' :: prev_' →
  observe j <$> back_propagation this' prev_' curr_delta i
  = observe j <$> back_propagation this prev_ curr_delta i.
Proof.
  intros Hij Hrun Hrev Hrev'.
  apply forward_propagation_forget_worker in Hrun.
  assert (Heq : forget_worker j <$> (this' :: prev_')
                = forget_worker j <$> (this :: prev_)).
  { rewrite <- Hrev, <- Hrev', !fmap_reverse, !fmap_app. by rewrite Hrun. }
  rewrite !fmap_cons in Heq. injection Heq as Hthis Hprev.
  by apply back_propagation_forget_worker.
Qed.

Lemma back_propagation_ignores_other_workers_witness :
  ∃ (res : list spec_float) (chain : list (node spec_float))
    (this' : node spec_float) (prev_' : list (node spec_float)),
    forward_propagation (FT := binary64) (TG := lp64) (DP := halves)
      (fully_connected (example_layer 53 1024)) []
      [dec64 false 1 1; dec64 false 1 1] 3
    = Ok (res, chain) ∧
    reverse
      ([input (example_source 53 1024 (example_input 53 1024))] ++ chain)
    = this' :: prev_' ∧
    observe 3
    <$> back_propagation (FT := binary64) (TG := lp64) (DP := halves)
          this' prev_' [dec64 false 3 1] 1
    = observe 3
      <$> back_propagation (FT := binary64) (TG := lp64) (DP := halves)
            (fully_connected (example_layer 53 1024))
            [input (example_source 53 1024 (example_input 53 1024))]
            [dec64 false 3 1] 1.
Proof.
  eexists _, _, _, _. split; [reflexivity|]. split; [reflexivity|].
  refine (back_propagation_ignores_other_workers spec_float binary64 lp64 halves
    1 3 [input (example_source 53 1024 (example_input 53 1024))] [] _
    (fully_connected (example_layer 53 1024))
    [dec64 false 1 1; dec64 false 1 1] _ [dec64 false 3 1]
    _ _ _ _ _ _ _ _).
  - discriminate.
  - reflexivity.
  - reflexivity.
  - reflexivity.
Defined.
